(** * EdgeHeap: the induced-cost engine of the cluster-editing solver

    A shallow embedding of [src/clusterediting/EdgeHeap.cpp].

    - [EdgeWeight] is a C++ [double] ([std::max(icf[eb], 0.0)] only
      type-checks for [double]), modelled by Rocq's binary64 [float].
    - A [std::vector] is a [list]; reading or writing outside its bounds is
      undefined behaviour in C++ and is [None] here, so every operation
      returns an [option].
    - [uint64_t] arithmetic is written with its wrap-around ([u64]).
    - Lines written to [std::cout] unconditionally are collected in the
      field [cout]; the traces guarded by [verbosity >= 4] only format
      values and are left out (the model is the engine at [verbosity < 4]),
      and so is the [ProgressPrinter], which touches no state of the engine.
    - The graph ([StaticSparseGraph]), the edge type and the two-weight cost
      kernel are declared outside this file: the graph and the kernel are
      parameters of the operations. *)

From Stdlib Require Import NArith Lia Floats Sorted.
From stdpp Require Import base option list numbers strings.

Local Open Scope N_scope.

(** ** Scalars *)

(** The integer types [NodeId], [EdgeId] and [RankId] are unsigned; their
    widths are fixed outside this file and no operation of the engine
    overflows them, so they are read as [N]. *)
Abbreviation NodeId := N (only parsing).
Abbreviation EdgeId := N (only parsing).
Abbreviation RankId := N (only parsing).
Abbreviation EdgeWeight := float (only parsing).

(** Modelled from the spec: [DynamicSparseGraph::Edge] and its constant
    [InvalidEdge] are declared outside this file.  The spec gives the
    max-queries the result type "Edge | NoEdge", so [InvalidEdge] is a value
    of its own, different from every edge built from two nodes. *)
Inductive Edge : Type :=
  | InvalidEdge
  | MkEdge (u v : NodeId).

(** Modelled from the spec: the sentinels [DynamicSparseGraph::Forbidden] and
    [DynamicSparseGraph::Permanent] are defined outside this file.  The spec
    calls [Forbidden] "the minimum possible value"; [Permanent] is its
    mirror image. *)
Definition Forbidden : EdgeWeight := neg_infinity.
Definition Permanent : EdgeWeight := infinity.

(** [std::max(a, b)] is [(a < b) ? b : a]. *)
Definition fmax (a b : EdgeWeight) : EdgeWeight :=
  if (a <? b)%float then b else a.

(** [a != b] on doubles. *)
Definition fneq (a b : EdgeWeight) : bool := negb (a =? b)%float.

(** Wrap-around of [uint64_t]. *)
Definition u64 (x : N) : N := x mod 2 ^ 64.
(** [x - 1] on [uint64_t]. *)
Definition u64_pred (x : N) : N := u64 (x + (2 ^ 64 - 1)).

(** ** Vectors *)

Definition vget {A} (v : list A) (i : N) : option A := v !! N.to_nat i.

Definition vset {A} (v : list A) (i : N) (x : A) : option (list A) :=
  if decide (N.to_nat i < length v)%nat then Some (<[N.to_nat i := x]> v) else None.

Definition vsize {A} (v : list A) : N := N.of_nat (length v).

(** [0, 1, ..., n-1] *)
Definition upto (n : N) : list N := N.of_nat <$> seq 0 (N.to_nat n).

Fixpoint foldM {A S} (f : S → A → option S) (s : S) (l : list A) : option S :=
  match l with
  | [] => Some s
  | x :: l' => s' ← f s x; foldM f s' l'
  end.

(** [std::swap(v[i], v[j])] *)
Definition vswap {A} (v : list A) (i j : N) : option (list A) :=
  a ← vget v i; b ← vget v j; v1 ← vset v i b; vset v1 j a.

(** [std::set_intersection] on two ranges (the two-cursor merge of the
    standard library; it expects ascending ranges). *)
Fixpoint set_intersection (l1 : list N) : list N → list N :=
  fix aux (l2 : list N) : list N :=
    match l1, l2 with
    | x :: l1', y :: l2' =>
        if x <? y then set_intersection l1' l2
        else if y <? x then aux l2'
        else x :: set_intersection l1' l2'
    | _, _ => []
    end.

(** [std::sort(first, last, comp)] with [comp a b = key a > key b].  The
    standard leaves the order of elements with equal keys open; the model is
    an insertion sort that keeps them in their original order.  Results
    that depend on the order of ties are not stated below. *)
Fixpoint insert_desc (x : RankId * EdgeWeight) (l : list (RankId * EdgeWeight))
  : list (RankId * EdgeWeight) :=
  match l with
  | [] => [x]
  | y :: l' => if (x.2 <? y.2)%float then y :: insert_desc x l' else x :: l
  end.

Definition sort_desc (l : list (RankId * EdgeWeight)) : list (RankId * EdgeWeight) :=
  foldr insert_desc [] l.

(** The comparator reads [score[a]] for the elements it compares. *)
Definition sort_by_score (score : list EdgeWeight) (l : list RankId)
  : option (list RankId) :=
  keyed ← mapM (λ a, x ← vget score a; Some (a, x)) l;
  Some ((sort_desc keyed).*1).

(** ** The graph adapter and the cost kernel (external to this file) *)

Record StaticSparseGraph : Type := {
  numNodes : N;
  numEdges : N;
  getNonZeroNeighbours : NodeId → list NodeId;
  edge_id : Edge → EdgeId;               (* Edge::id() *)
  findIndex : EdgeId → RankId;           (* findIndex(EdgeId) *)
  getWeight : RankId → EdgeWeight;       (* getWeight(RankId) *)
  getWeightE : Edge → EdgeWeight         (* getWeight(Edge) *)
}.

(** [findIndex(Edge)]: the overload goes through the edge's id, as
    [initInducedCosts] does by hand ([uv.id()] then [findIndex(id)]). *)
Definition findIndexE (g : StaticSparseGraph) (e : Edge) : RankId :=
  findIndex g (edge_id g e).

(** The triangle cost kernel [getIcf(w_uw, w_vw)] / [getIcp(w_uw, w_vw)] is
    declared in the header, outside this file; it is a parameter. *)
Record Kernel : Type := {
  kIcf : EdgeWeight → EdgeWeight → EdgeWeight;
  kIcp : EdgeWeight → EdgeWeight → EdgeWeight
}.

(** ** The engine state *)

Record EdgeHeap : Type := {
  unprocessed : N;
  edges : list Edge;
  icf : list EdgeWeight;
  icp : list EdgeWeight;
  forb_rank2edge : list RankId;
  perm_rank2edge : list RankId;
  edge2forb_rank : list RankId;
  edge2perm_rank : list RankId;
  edgeToBundle : list RankId;
  edgeBundles : list (list RankId);
  cout : list string
}.

Definition set_unprocessed (s : EdgeHeap) (x : N) : EdgeHeap :=
  {| unprocessed := x; edges := edges s; icf := icf s; icp := icp s;
     forb_rank2edge := forb_rank2edge s; perm_rank2edge := perm_rank2edge s;
     edge2forb_rank := edge2forb_rank s; edge2perm_rank := edge2perm_rank s;
     edgeToBundle := edgeToBundle s; edgeBundles := edgeBundles s; cout := cout s |}.

Definition set_edges (s : EdgeHeap) (x : list Edge) : EdgeHeap :=
  {| unprocessed := unprocessed s; edges := x; icf := icf s; icp := icp s;
     forb_rank2edge := forb_rank2edge s; perm_rank2edge := perm_rank2edge s;
     edge2forb_rank := edge2forb_rank s; edge2perm_rank := edge2perm_rank s;
     edgeToBundle := edgeToBundle s; edgeBundles := edgeBundles s; cout := cout s |}.

Definition set_icf (s : EdgeHeap) (x : list EdgeWeight) : EdgeHeap :=
  {| unprocessed := unprocessed s; edges := edges s; icf := x; icp := icp s;
     forb_rank2edge := forb_rank2edge s; perm_rank2edge := perm_rank2edge s;
     edge2forb_rank := edge2forb_rank s; edge2perm_rank := edge2perm_rank s;
     edgeToBundle := edgeToBundle s; edgeBundles := edgeBundles s; cout := cout s |}.

Definition set_icp (s : EdgeHeap) (x : list EdgeWeight) : EdgeHeap :=
  {| unprocessed := unprocessed s; edges := edges s; icf := icf s; icp := x;
     forb_rank2edge := forb_rank2edge s; perm_rank2edge := perm_rank2edge s;
     edge2forb_rank := edge2forb_rank s; edge2perm_rank := edge2perm_rank s;
     edgeToBundle := edgeToBundle s; edgeBundles := edgeBundles s; cout := cout s |}.

Definition set_forb (s : EdgeHeap) (heap index : list RankId) : EdgeHeap :=
  {| unprocessed := unprocessed s; edges := edges s; icf := icf s; icp := icp s;
     forb_rank2edge := heap; perm_rank2edge := perm_rank2edge s;
     edge2forb_rank := index; edge2perm_rank := edge2perm_rank s;
     edgeToBundle := edgeToBundle s; edgeBundles := edgeBundles s; cout := cout s |}.

Definition set_perm (s : EdgeHeap) (heap index : list RankId) : EdgeHeap :=
  {| unprocessed := unprocessed s; edges := edges s; icf := icf s; icp := icp s;
     forb_rank2edge := forb_rank2edge s; perm_rank2edge := heap;
     edge2forb_rank := edge2forb_rank s; edge2perm_rank := index;
     edgeToBundle := edgeToBundle s; edgeBundles := edgeBundles s; cout := cout s |}.

Definition set_bundles (s : EdgeHeap) (e2b : list RankId) (bs : list (list RankId))
  : EdgeHeap :=
  {| unprocessed := unprocessed s; edges := edges s; icf := icf s; icp := icp s;
     forb_rank2edge := forb_rank2edge s; perm_rank2edge := perm_rank2edge s;
     edge2forb_rank := edge2forb_rank s; edge2perm_rank := edge2perm_rank s;
     edgeToBundle := e2b; edgeBundles := bs; cout := cout s |}.

(** [std::cout << msg << std::endl] *)
Definition print (s : EdgeHeap) (msg : string) : EdgeHeap :=
  {| unprocessed := unprocessed s; edges := edges s; icf := icf s; icp := icp s;
     forb_rank2edge := forb_rank2edge s; perm_rank2edge := perm_rank2edge s;
     edge2forb_rank := edge2forb_rank s; edge2perm_rank := edge2perm_rank s;
     edgeToBundle := edgeToBundle s; edgeBundles := edgeBundles s;
     cout := cout s ++ [msg] |}.

(** ** [EdgeHeap::updateHeap] *)

(** The sift-up loop, one iteration per unit of fuel:
[[
  while (pos > 0 && score[heap[parent]] < score[heap[pos]]) {
      std::swap(heap[pos], heap[parent]);
      index[heap[pos]] = pos;
      index[heap[parent]] = parent;
      pos = parent;
      parent = (pos-1)/2;
  }
]] *)
Fixpoint siftUp (fuel : nat) (score : list EdgeWeight)
    (heap index : list RankId) (pos parent : N)
  : option (list RankId * list RankId) :=
  c ← (if 0 <? pos then
         hp ← vget heap parent; sp ← vget score hp;
         hq ← vget heap pos; sq ← vget score hq;
         Some (sp <? sq)%float
       else Some false);
  if c : bool then
    match fuel with
    | O => None
    | S fuel' =>
        heap1 ← vswap heap pos parent;
        a ← vget heap1 pos; index1 ← vset index a pos;
        b ← vget heap1 parent; index2 ← vset index1 b parent;
        siftUp fuel' score heap1 index2 parent (u64_pred parent / 2)
    end
  else Some (heap, index).

(** The sift-down loop.  Its condition joins two short-circuit conjunctions
    with the non-short-circuit [|]: both are evaluated. *)
Fixpoint siftDown (fuel : nat) (score : list EdgeWeight)
    (heap index : list RankId) (pos lChild rChild : N)
  : option (list RankId * list RankId) :=
  cl ← (if lChild <? vsize heap then
          hp ← vget heap pos; sp ← vget score hp;
          hl ← vget heap lChild; sl ← vget score hl;
          Some (sp <? sl)%float
        else Some false);
  cr ← (if rChild <? vsize heap then
          hp ← vget heap pos; sp ← vget score hp;
          hr ← vget heap rChild; sr ← vget score hr;
          Some (sp <? sr)%float
        else Some false);
  if (cl : bool) || cr then
    match fuel with
    | O => None
    | S fuel' =>
        right ← (if rChild <? vsize heap then
                   hl ← vget heap lChild; sl ← vget score hl;
                   hr ← vget heap rChild; sr ← vget score hr;
                   Some (sl <? sr)%float
                 else Some false);
        let child := if right : bool then rChild else lChild in
        heap1 ← vswap heap pos child;
        a ← vget heap1 pos; index1 ← vset index a pos;
        b ← vget heap1 child; index2 ← vset index1 b child;
        siftDown fuel' score heap1 index2 child
                 (u64 (2 * child + 1)) (u64 (2 * child + 2))
    end
  else Some (heap, index).

(** Every iteration of either loop moves [pos] to another slot of [heap], and
    never to one it has left, so [length heap] iterations are enough fuel
    (theorems [siftUp_total] and [siftDown_total]). *)
Definition updateHeap (heap : list RankId) (e : RankId) (change : EdgeWeight)
    (index : list RankId) (score : list EdgeWeight)
  : option (list RankId * list RankId) :=
  pos ← vget index e;
  if (0 <? change)%float then
    siftUp (length heap) score heap index pos (u64_pred pos / 2)
  else
    siftDown (length heap) score heap index pos
             (u64 (2 * pos + 1)) (u64 (2 * pos + 2)).

(** ** The engine's operations *)

Section Engine.

Variable graph : StaticSparseGraph.
Variable kernel : Kernel.

(** The constructor: every vector has [1 + numEdges] entries, the heap arrays
    are empty. *)
Definition EdgeHeap_new : EdgeHeap :=
  let n := N.to_nat (1 + numEdges graph) in
  {| unprocessed := 0;
     edges := replicate n InvalidEdge;
     icf := replicate n Forbidden;
     icp := replicate n Forbidden;
     forb_rank2edge := [];
     perm_rank2edge := [];
     edge2forb_rank := replicate n 0;
     edge2perm_rank := replicate n 0;
     edgeToBundle := replicate n 0;
     edgeBundles := replicate n [];
     cout := [] |}.

(** *** [initInducedCosts] *)

(** One common neighbour [w] of the edge [uv] (lines 67-74). *)
Definition addTriangle (u v : NodeId) (rId : RankId) (s : EdgeHeap) (w : NodeId)
  : option EdgeHeap :=
  let w_uw := getWeightE graph (MkEdge u w) in
  let w_vw := getWeightE graph (MkEdge v w) in
  a ← vget (icf s) rId;
  icf1 ← vset (icf s) rId (a + kIcf kernel w_uw w_vw)%float;
  b ← vget (icp s) rId;
  icp1 ← vset (icp s) rId (b + kIcp kernel w_uw w_vw)%float;
  Some (set_icp (set_icf s icf1) icp1).

(** The body of the inner loop for the pair [(u, v)] (lines 30-74). *)
Definition initEdge (u : NodeId) (s : EdgeHeap) (v : NodeId) : option EdgeHeap :=
  if v <? u then Some s
  else
    let uv := MkEdge u v in
    let rId := findIndex graph (edge_id graph uv) in
    if rId =? 0 then Some s
    else
      edges1 ← vset (edges s) rId uv;
      let s := set_edges s edges1 in
      let w_uv := getWeight graph rId in
      if (w_uv =? 0)%float || (w_uv =? Forbidden)%float || (w_uv =? Permanent)%float
      then Some s
      else
        icf1 ← vset (icf s) rId 0%float;
        icp1 ← vset (icp s) rId 0%float;
        let s := set_unprocessed (set_icp (set_icf s icf1) icp1)
                                 (u64 (unprocessed s + 1)) in
        s ← (if (0 <=? w_uv)%float then
               a ← vget (icf s) rId;
               icf2 ← vset (icf s) rId (a + w_uv)%float;
               Some (set_icf s icf2)
             else
               b ← vget (icp s) rId;
               icp2 ← vset (icp s) rId (b + - w_uv)%float;
               Some (set_icp s icp2));
        let w_vec := set_intersection (getNonZeroNeighbours graph u)
                                      (getNonZeroNeighbours graph v) in
        foldM (addTriangle u v rId) s w_vec.

(** The outer loop body for the node [u] (lines 28-77). *)
Definition initNode (s : EdgeHeap) (u : NodeId) : option EdgeHeap :=
  foldM (initEdge u) s (getNonZeroNeighbours graph u).

(** The diagnostic sweep (lines 79-88): it stops at the first report. *)
Fixpoint nanSweep (s : EdgeHeap) (l : list N) : option EdgeHeap :=
  match l with
  | [] => Some s
  | i :: l' =>
      x ← vget (icf s) (findIndex graph i);
      if is_nan x then Some (print s "NaN! in icf")
      else
        y ← vget (icp s) (findIndex graph i);
        if is_nan y then Some (print s "NaN! in icp")
        else nanSweep s l'
  end.

(** Lines 100-103. *)
Definition initIndex (s : EdgeHeap) (i : RankId) : option EdgeHeap :=
  a ← vget (forb_rank2edge s) i;
  fidx ← vset (edge2forb_rank s) a i;
  b ← vget (perm_rank2edge s) i;
  pidx ← vset (edge2perm_rank s) b i;
  Some (set_perm (set_forb s (forb_rank2edge s) fidx) (perm_rank2edge s) pidx).

(** Lines 106-109. *)
Definition initBundle (s : EdgeHeap) (id : RankId) : option EdgeHeap :=
  e2b ← vset (edgeToBundle s) id id;
  members ← vget (edgeBundles s) id;
  bs ← vset (edgeBundles s) id (members ++ [id]);
  Some (set_bundles s e2b bs).

Definition initInducedCosts (s : EdgeHeap) : option EdgeHeap :=
  s ← foldM initNode s (upto (numNodes graph));
  s ← nanSweep s (upto (vsize (icf s)));
  let ids := upto (vsize (icf s)) in
  let s := set_perm (set_forb s (forb_rank2edge s ++ ids) (edge2forb_rank s))
                    (perm_rank2edge s ++ ids) (edge2perm_rank s) in
  fheap ← sort_by_score (icf s) (forb_rank2edge s);
  pheap ← sort_by_score (icp s) (perm_rank2edge s);
  let s := set_perm (set_forb s fheap (edge2forb_rank s)) pheap (edge2perm_rank s) in
  s ← foldM initIndex s ids;
  foldM initBundle s ids.

(** *** The max-queries *)

Definition getMaxIcfEdge (s : EdgeHeap) : option Edge :=
  ei ← vget (forb_rank2edge s) 0;
  if vsize (forb_rank2edge s) <=? 1 then Some InvalidEdge
  else
    x ← vget (icf s) ei;
    if (x <? 0)%float then Some InvalidEdge
    else vget (edges s) ei.

Definition getMaxIcpEdge (s : EdgeHeap) : option Edge :=
  ei ← vget (perm_rank2edge s) 0;
  if vsize (perm_rank2edge s) <=? 1 then Some InvalidEdge
  else
    x ← vget (icp s) ei;
    if (x <? 0)%float then Some InvalidEdge
    else vget (edges s) ei.

(** *** Cost look-up through the bundle *)

Definition getIcf (s : EdgeHeap) (e : Edge) : option (EdgeWeight * EdgeHeap) :=
  let s := if findIndexE graph e =? 0 then print s "getIcf on edge with rank 0" else s in
  eb ← vget (edgeToBundle s) (findIndexE graph e);
  x ← vget (icf s) eb;
  Some (x, s).

Definition getIcp (s : EdgeHeap) (e : Edge) : option (EdgeWeight * EdgeHeap) :=
  let s := if findIndexE graph e =? 0 then print s "getIcf on edge with rank 0" else s in
  eb ← vget (edgeToBundle s) (findIndexE graph e);
  x ← vget (icp s) eb;
  Some (x, s).

(** *** [increaseIcf] and [increaseIcp] *)

Definition increaseIcf (s : EdgeHeap) (e : Edge) (w : EdgeWeight) : option EdgeHeap :=
  let rId := findIndexE graph e in
  c ← (if (0 <? rId) && fneq w 0%float then
         eb ← vget (edgeToBundle s) rId; x ← vget (icf s) eb; Some (0 <=? x)%float
       else Some false);
  if c : bool then
    eb ← vget (edgeToBundle s) rId;
    x ← vget (icf s) eb;
    icf1 ← vset (icf s) eb (x + w)%float;
    y ← vget icf1 eb;
    icf2 ← vset icf1 eb (fmax y 0%float);
    '(heap, index) ← updateHeap (forb_rank2edge s) eb w (edge2forb_rank s) icf2;
    Some (set_forb (set_icf s icf2) heap index)
  else Some s.

Definition increaseIcp (s : EdgeHeap) (e : Edge) (w : EdgeWeight) : option EdgeHeap :=
  let rId := findIndexE graph e in
  c ← (if (0 <? rId) && fneq w 0%float then
         eb ← vget (edgeToBundle s) rId; x ← vget (icp s) eb; Some (0 <=? x)%float
       else Some false);
  if c : bool then
    eb ← vget (edgeToBundle s) rId;
    x ← vget (icp s) eb;
    icp1 ← vset (icp s) eb (x + w)%float;
    y ← vget icp1 eb;
    icp2 ← vset icp1 eb (fmax y 0%float);
    '(heap, index) ← updateHeap (perm_rank2edge s) eb w (edge2perm_rank s) icp2;
    Some (set_perm (set_icp s icp2) heap index)
  else Some s.

(** *** [removeEdge] *)

Definition removeEdge (s : EdgeHeap) (rId : RankId) : option EdgeHeap :=
  if rId =? 0 then Some s
  else
    c ← (if 0 <? rId then
           x ← vget (icf s) rId;
           if fneq x Forbidden then y ← vget (icp s) rId; Some (fneq y Forbidden)
           else Some false
         else Some false);
    if c : bool then
      icf1 ← vset (icf s) rId Forbidden;
      icp1 ← vset (icp s) rId Forbidden;
      let s := set_icp (set_icf s icf1) icp1 in
      '(fheap, fidx) ← updateHeap (forb_rank2edge s) rId Forbidden (edge2forb_rank s) (icf s);
      let s := set_forb s fheap fidx in
      '(pheap, pidx) ← updateHeap (perm_rank2edge s) rId Forbidden (edge2perm_rank s) (icp s);
      let s := set_perm s pheap pidx in
      Some (set_unprocessed s (u64_pred (unprocessed s)))
    else Some s.

(** [removeEdge(const Edge e)] *)
Definition removeEdgeE (s : EdgeHeap) (e : Edge) : option EdgeHeap :=
  removeEdge s (findIndexE graph e).

(** *** [mergeEdges] *)

(** The loop that hands the members of bundle [from] over to bundle [to]. *)
Definition moveMember (to : RankId) (s : EdgeHeap) (toDelete : RankId)
  : option EdgeHeap :=
  members ← vget (edgeBundles s) to;
  bs ← vset (edgeBundles s) to (members ++ [toDelete]);
  e2b ← vset (edgeToBundle s) toDelete to;
  Some (set_bundles s e2b bs).

(** One arm of [mergeEdges]: bundle [from] is absorbed by bundle [to]. *)
Definition absorb (s : EdgeHeap) (to from : RankId) : option EdgeHeap :=
  members ← vget (edgeBundles s) from;
  s ← foldM (moveMember to) s members;
  bs ← vset (edgeBundles s) from [];
  let s := set_bundles s (edgeToBundle s) bs in
  x ← vget (icf s) from;
  s ← (if (x <? 0)%float then Some (print s "Merged edge has negative icf")
       else a ← vget (icf s) to; icf1 ← vset (icf s) to (a + x)%float;
            Some (set_icf s icf1));
  y ← vget (icp s) from;
  s ← (if (y <? 0)%float then Some (print s "Merged edge has negative icp")
       else b ← vget (icp s) to; icp1 ← vset (icp s) to (b + y)%float;
            Some (set_icp s icp1));
  removeEdge s from.

Definition mergeEdges (s : EdgeHeap) (e1 e2 : Edge) : option EdgeHeap :=
  let r1 := findIndexE graph e1 in
  let r2 := findIndexE graph e2 in
  if N.land r1 r2 =? 0 then Some s
  else
    eb1 ← vget (edgeToBundle s) r1;
    eb2 ← vget (edgeToBundle s) r2;
    if eb1 =? eb2 then Some s
    else
      n1 ← length <$> vget (edgeBundles s) eb1;
      n2 ← length <$> vget (edgeBundles s) eb2;
      if (n2 <? n1)%nat then absorb s eb1 eb2 else absorb s eb2 eb1.

Definition numUnprocessed (s : EdgeHeap) : N := unprocessed s.

End Engine.

(** ** The heap properties *)

(** The value of the rank stored at slot [i]. *)
Definition slot_value (score : list EdgeWeight) (heap : list RankId) (i : N)
  : option EdgeWeight :=
  r ← vget heap i; vget score r.

(** Slot [i] is at least its child [c], when [c] is within bounds. *)
Definition slot_ordered (score : list EdgeWeight) (heap : list RankId) (i c : N) : bool :=
  match slot_value score heap i, slot_value score heap c with
  | Some p, Some q => (q <=? p)%float
  | _, _ => true
  end.

(** The max-heap order: every slot is at least each of its children. *)
Definition heap_ordered (score : list EdgeWeight) (heap : list RankId) : bool :=
  forallb (λ i, slot_ordered score heap i (2 * i + 1)
                && slot_ordered score heap i (2 * i + 2))
          (upto (vsize heap)).

(** The reverse index: [index[heap[i]] == i] for every slot [i]. *)
Definition index_consistent (heap index : list RankId) : bool :=
  forallb (λ i, match vget heap i with
                | Some r => bool_decide (vget index r = Some i)
                | None => false
                end)
          (upto (vsize heap)).

(** The same, slot by slot. *)
Definition consistent (heap index : list RankId) : Prop :=
  ∀ (i : nat) (r : RankId), heap !! i = Some r → index !! N.to_nat r = Some (N.of_nat i).

(** ** Well-formed engine states *)

Definition ranks_ok (n : nat) (l : list RankId) : Prop :=
  Forall (λ a, (N.to_nat a < n)%nat) l.

(** A heap array and its reverse index over [n] ranks: both have [n] entries,
    all of them below [n], the index is the inverse of the array, and [n] is
    far from the [uint64_t] limit. *)
Record heap_wf (n : nat) (heap index : list RankId) : Prop := {
  hw_small : N.of_nat n < 2 ^ 63;
  hw_heap_len : length heap = n;
  hw_index_len : length index = n;
  hw_heap : ranks_ok n heap;
  hw_index : ranks_ok n index;
  hw_consistent : consistent heap index
}.

Definition ranks_okb (n : nat) (l : list RankId) : bool :=
  forallb (λ a, N.to_nat a <? n)%nat l.

(** Every vector has one entry per rank, every stored rank or slot is within
    bounds, each reverse index is the inverse of its heap array, and the
    table is far below the [uint64_t] limit. *)
Definition well_formed (s : EdgeHeap) : bool :=
  let n := length (icf s) in
  (N.of_nat n <? 2 ^ 63)
  && (length (edges s) =? n)%nat && (length (icp s) =? n)%nat
  && (length (forb_rank2edge s) =? n)%nat && (length (edge2forb_rank s) =? n)%nat
  && ranks_okb n (forb_rank2edge s) && ranks_okb n (edge2forb_rank s)
  && index_consistent (forb_rank2edge s) (edge2forb_rank s)
  && (length (perm_rank2edge s) =? n)%nat && (length (edge2perm_rank s) =? n)%nat
  && ranks_okb n (perm_rank2edge s) && ranks_okb n (edge2perm_rank s)
  && index_consistent (perm_rank2edge s) (edge2perm_rank s)
  && (length (edgeToBundle s) =? n)%nat && ranks_okb n (edgeToBundle s)
  && (length (edgeBundles s) =? n)%nat && forallb (ranks_okb n) (edgeBundles s).

Record wf (s : EdgeHeap) : Prop := {
  wf_edges : length (edges s) = length (icf s);
  wf_icp : length (icp s) = length (icf s);
  wf_forb : heap_wf (length (icf s)) (forb_rank2edge s) (edge2forb_rank s);
  wf_perm : heap_wf (length (icf s)) (perm_rank2edge s) (edge2perm_rank s);
  wf_e2b_len : length (edgeToBundle s) = length (icf s);
  wf_e2b : ranks_ok (length (icf s)) (edgeToBundle s);
  wf_bs_len : length (edgeBundles s) = length (icf s);
  wf_bs : Forall (ranks_ok (length (icf s))) (edgeBundles s)
}.




(** ** The heap order, slot by slot *)

(** [a <= b] on [double]; false as soon as one side is a NaN. *)
Definition fle (a b : EdgeWeight) : Prop := (a <=? b)%float = true.

(** No score is a NaN. *)
Definition nonan (score : list EdgeWeight) : Prop :=
  Forall (λ x, is_nan x = false) score.

Definition nonanb (score : list EdgeWeight) : bool :=
  forallb (λ x, negb (is_nan x)) score.

(** The score found through slot [i]. *)
Definition sv (score : list EdgeWeight) (heap : list RankId) (i : N) : EdgeWeight :=
  default 0%float (slot_value score heap i).

(** Slot [c] is a child of slot [i]: [2*i+1] or [2*i+2]. *)
Definition child_of (c i : N) : Prop := c = 2 * i + 1 ∨ c = 2 * i + 2.

Definition ordered (score : list EdgeWeight) (heap : list RankId) : Prop :=
  ∀ i c, child_of c i → c < vsize heap → fle (sv score heap c) (sv score heap i).

(** The loop invariant of the upward walk: the order holds everywhere but
    between [pos] and its parent, and the children of [pos] are below its
    parent. *)
Definition up_inv (score : list EdgeWeight) (heap : list RankId) (pos : N) : Prop :=
  (∀ i c, child_of c i → c < vsize heap → c ≠ pos →
          fle (sv score heap c) (sv score heap i)) ∧
  (∀ i c, child_of pos i → child_of c pos → c < vsize heap →
          fle (sv score heap c) (sv score heap i)).

(** The loop invariant of the downward walk: the order holds everywhere but
    between [pos] and its children, and these are below the parent of [pos]. *)
Definition down_inv (score : list EdgeWeight) (heap : list RankId) (pos : N) : Prop :=
  (∀ i c, child_of c i → c < vsize heap → i ≠ pos →
          fle (sv score heap c) (sv score heap i)) ∧
  (∀ i c, child_of pos i → child_of c pos → c < vsize heap →
          fle (sv score heap c) (sv score heap i)).

(** The order [std::sort] is asked for: descending keys. *)
Definition key_ge (p q : RankId * EdgeWeight) : Prop := fle q.2 p.2.

(** The rounded sum [x + w] lies on the side of [x] that the sign of [w]
    announces to [updateHeap]. *)
Definition moves_toward (x w : EdgeWeight) : bool :=
  if (0 <? w)%float then (x <=? x + w)%float else (x + w <=? x)%float.

(** ... for the bundle entry that [increaseIcf] / [increaseIcp] on rank [r]
    would change. *)
Definition increase_monotone (score : list EdgeWeight) (s : EdgeHeap) (r : RankId)
    (w : EdgeWeight) : bool :=
  match (eb ← vget (edgeToBundle s) r; vget score eb) with
  | Some x => moves_toward x w
  | None => true
  end.

(** ** Vocabulary of the statements *)

(** [removeEdge]'s guard: the rank is not 0 and neither cost entry holds the
    [Forbidden] sentinel yet. *)
Definition removable (s : EdgeHeap) (rId : RankId) : bool :=
  negb (rId =? 0) &&
  match vget (icf s) rId, vget (icp s) rId with
  | Some x, Some y => fneq x Forbidden && fneq y Forbidden
  | _, _ => false
  end.

(** *** The graph as [initInducedCosts] walks it *)

Section Walk.
Variable g : StaticSparseGraph.
Variable k : Kernel.

(** The rank the loop computes for the pair [(u, v)] (lines 34-36). *)
Definition rank_uv (u v : NodeId) : RankId := findIndex g (edge_id g (MkEdge u v)).

(** The pairs [(u, v)] in the order the two loops meet them. *)
Definition pairs : list (NodeId * NodeId) :=
  u ← upto (numNodes g); (λ v, (u, v)) <$> getNonZeroNeighbours g u.

(** A plain weight: not zero and not one of the two sentinels (line 47). *)
Definition plain (w : EdgeWeight) : bool :=
  negb ((w =? 0)%float || (w =? Forbidden)%float || (w =? Permanent)%float).

(** The pair reaches line 42: [u <= v] and its rank is not 0. *)
Definition ranked (p : NodeId * NodeId) : bool :=
  negb (p.2 <? p.1) && negb (rank_uv p.1 p.2 =? 0).

(** The pair is given costs: it is ranked and its weight is plain. *)
Definition tracked (p : NodeId * NodeId) : bool :=
  ranked p && plain (getWeight g (rank_uv p.1 p.2)).

(** The nodes that are non-zero-weight neighbours of both [u] and [v], in
    the order of [u]'s neighbour list. *)
Definition common (u v : NodeId) : list NodeId :=
  filter (λ w, w ∈ getNonZeroNeighbours g v) (getNonZeroNeighbours g u).

(** The sum, from [start] and from left to right, of a kernel's contributions
    over the nodes [ws]. *)
Definition triangle_sum (f : EdgeWeight → EdgeWeight → EdgeWeight)
    (u v : NodeId) (ws : list NodeId) (start : EdgeWeight) : EdgeWeight :=
  fold_left (λ acc w, acc + f (getWeightE g (MkEdge u w)) (getWeightE g (MkEdge v w)))%float
            ws start.

(** The induced costs of the edge [(u, v)] of weight [w_uv]. *)
Definition forbid_cost (u v : NodeId) : EdgeWeight :=
  let w_uv := getWeight g (rank_uv u v) in
  triangle_sum (kIcf k) u v (common u v)
               (if (0 <=? w_uv)%float then 0 + w_uv else 0)%float.

Definition perm_cost (u v : NodeId) : EdgeWeight :=
  let w_uv := getWeight g (rank_uv u v) in
  triangle_sum (kIcp k) u v (common u v)
               (if (0 <=? w_uv)%float then 0 else 0 + - w_uv)%float.

(** Strictly ascending. *)
Fixpoint ascending (l : list N) : bool :=
  match l with
  | x :: (y :: _) as l' => (x <? y) && ascending l'
  | _ => true
  end.

Fixpoint distinct (l : list N) : bool :=
  match l with
  | [] => true
  | x :: l' => negb (existsb (N.eqb x) l') && distinct l'
  end.

(** What the engine needs of the graph adapter to stay within its vectors:
    every rank it is handed is at most [numEdges]. *)
Definition graph_ok : bool :=
  (1 + numEdges g <? 2 ^ 63)
  && forallb (λ p, rank_uv p.1 p.2 <=? numEdges g) (filter (λ p, ranked p = true) pairs)
  && forallb (λ i, findIndex g i <=? numEdges g) (upto (1 + numEdges g)).

(** Neighbour lists are ascending, as [std::set_intersection] expects. *)
Definition neighbours_ascending : bool :=
  forallb (λ p, ascending (getNonZeroNeighbours g p.1)
                && ascending (getNonZeroNeighbours g p.2)) pairs.

(** No two tracked pairs share a rank. *)
Definition ranks_distinct : bool :=
  distinct ((λ p, rank_uv p.1 p.2) <$> filter (λ p, tracked p = true) pairs).

(** [v] is listed for [u], a node of the graph. *)
Definition listed (u v : NodeId) : bool :=
  (u <? numNodes g) && existsb (N.eqb v) (getNonZeroNeighbours g u).

End Walk.

(** *** What the loops of [initInducedCosts] compute *)

Section InitLoops.
Variable g : StaticSparseGraph.
Variable k : Kernel.

(** The state after the loop body for the pair [p], when the pair's rank is
    within the vectors. *)
Definition initEdge_result (s : EdgeHeap) (p : NodeId * NodeId) : EdgeHeap :=
  let r := N.to_nat (rank_uv g p.1 p.2) in
  let w_uv := getWeight g (rank_uv g p.1 p.2) in
  let w_vec := set_intersection (getNonZeroNeighbours g p.1)
                                (getNonZeroNeighbours g p.2) in
  if ranked g p then
    if plain w_uv then
      {| unprocessed := u64 (unprocessed s + 1);
         edges := <[r := MkEdge p.1 p.2]> (edges s);
         icf := <[r := triangle_sum g (kIcf k) p.1 p.2 w_vec
                          (if (0 <=? w_uv)%float then 0 + w_uv else 0)%float]> (icf s);
         icp := <[r := triangle_sum g (kIcp k) p.1 p.2 w_vec
                          (if (0 <=? w_uv)%float then 0 else 0 + - w_uv)%float]> (icp s);
         forb_rank2edge := forb_rank2edge s; perm_rank2edge := perm_rank2edge s;
         edge2forb_rank := edge2forb_rank s; edge2perm_rank := edge2perm_rank s;
         edgeToBundle := edgeToBundle s; edgeBundles := edgeBundles s;
         cout := cout s |}
    else set_edges s (<[r := MkEdge p.1 p.2]> (edges s))
  else s.

(** The state after the two nested loops. *)
Definition costs_result (s : EdgeHeap) : EdgeHeap :=
  fold_left initEdge_result (pairs g) s.

End InitLoops.

(** *** What [mergeEdges] does before it removes the absorbed entry *)

(** The lines [mergeEdges] writes to [std::cout] for an absorbed entry
    [(x, y)]. *)
Definition merge_reports (x y : EdgeWeight) : list string :=
  (if (x <? 0)%float then ["Merged edge has negative icf"] else []) ++
  (if (y <? 0)%float then ["Merged edge has negative icp"] else []).

(** The state of [absorb s to from] just before its call of [removeEdge]:
    [mf] and [mt] are the members of the two bundles, [(x, y)] and [(a, b)]
    their cost entries, [e2b] the bundle map after the hand-over. *)
Definition merged_state (s : EdgeHeap) (to from : RankId) (mf mt : list RankId)
    (x y a b : EdgeWeight) (e2b : list RankId) : EdgeHeap :=
  {| unprocessed := unprocessed s;
     edges := edges s;
     icf := if (x <? 0)%float then icf s else <[N.to_nat to := (a + x)%float]> (icf s);
     icp := if (y <? 0)%float then icp s else <[N.to_nat to := (b + y)%float]> (icp s);
     forb_rank2edge := forb_rank2edge s; perm_rank2edge := perm_rank2edge s;
     edge2forb_rank := edge2forb_rank s; edge2perm_rank := edge2perm_rank s;
     edgeToBundle := e2b;
     edgeBundles := <[N.to_nat from := []]> (<[N.to_nat to := mt ++ mf]> (edgeBundles s));
     cout := cout s ++ merge_reports x y |}.

(** The two roles in a merge of the bundles [eb1] and [eb2] (line 202): the
    larger bundle survives, and on a tie the second one does. *)
Definition merge_roles (s : EdgeHeap) (eb1 eb2 : RankId) : option (RankId * RankId) :=
  n1 ← length <$> vget (edgeBundles s) eb1;
  n2 ← length <$> vget (edgeBundles s) eb2;
  Some (if (n2 <? n1)%nat then (eb1, eb2) else (eb2, eb1)).

(** [mergeEdges] gets past its two early returns: the ranks share a bit
    (the test of line 195) and resolve to distinct bundles. *)
Definition merge_proceeds (g : StaticSparseGraph) (s : EdgeHeap) (e1 e2 : Edge)
  : option (RankId * RankId) :=
  if N.land (findIndexE g e1) (findIndexE g e2) =? 0 then None
  else
    eb1 ← vget (edgeToBundle s) (findIndexE g e1);
    eb2 ← vget (edgeToBundle s) (findIndexE g e2);
    if eb1 =? eb2 then None else merge_roles s eb1 eb2.

(** *** The states the search loop can reach *)

(** One call of a mutator that returns. *)
Inductive step (g : StaticSparseGraph) (s : EdgeHeap) : EdgeHeap → Prop :=
  | step_increaseIcf e w s' : increaseIcf g s e w = Some s' → step g s s'
  | step_increaseIcp e w s' : increaseIcp g s e w = Some s' → step g s s'
  | step_mergeEdges e1 e2 s' : mergeEdges g s e1 e2 = Some s' → step g s s'
  | step_removeEdge e s' : removeEdgeE g s e = Some s' → step g s s'.

(** The states after [initInducedCosts] and any number of mutations. *)
Inductive reachable (g : StaticSparseGraph) (k : Kernel) : EdgeHeap → Prop :=
  | reach_init s :
      initInducedCosts g k (EdgeHeap_new g) = Some s → reachable g k s
  | reach_step s s' : reachable g k s → step g s s' → reachable g k s'.

(** Rank 0 is a placeholder: it holds no cost, it is its own one-element
    bundle and is bundled with no other rank, and it keeps a slot in each
    heap. *)
Record rank0_reserved (s : EdgeHeap) : Prop := {
  r0_icf : vget (icf s) 0 = Some Forbidden;
  r0_icp : vget (icp s) 0 = Some Forbidden;
  r0_bundle : vget (edgeToBundle s) 0 = Some 0;
  r0_members : vget (edgeBundles s) 0 = Some [0];
  r0_alone : ∀ r, r ≠ 0 → vget (edgeToBundle s) r ≠ Some 0;
  r0_nowhere : ∀ b m, b ≠ 0 → vget (edgeBundles s) b = Some m → 0 ∉ m;
  r0_forb : 0 ∈ forb_rank2edge s;
  r0_perm : 0 ∈ perm_rank2edge s
}.

(** The bundle map and the member lists describe one partition of the
    ranks. *)
Record bundles_agree (s : EdgeHeap) : Prop := {
  ba_member : ∀ r b, vget (edgeToBundle s) r = Some b →
                     ∃ m, vget (edgeBundles s) b = Some m ∧ r ∈ m;
  ba_owner : ∀ b m r, vget (edgeBundles s) b = Some m → r ∈ m →
                      vget (edgeToBundle s) r = Some b;
  ba_nodup : ∀ b m, vget (edgeBundles s) b = Some m → NoDup m
}.

(** The edge table answers, for a rank, [InvalidEdge] or an edge of that
    rank. *)
Definition edges_ranked (g : StaticSparseGraph) (s : EdgeHeap) : Prop :=
  ∀ r e, vget (edges s) r = Some e → e = InvalidEdge ∨ (findIndexE g e = r ∧ r ≠ 0).

(** ** Sample instances *)

(** A graph adapter built from a list of weighted edges: the edge at position
    [i] gets rank [i + 1], an edge's id is its index in the upper triangle,
    and the neighbours of a node are listed in ascending order. *)
Module Sample.

Definition pair_id (u v : NodeId) : EdgeId :=
  let lo := N.min u v in
  let hi := N.max u v in
  hi * (hi - 1) / 2 + lo.

Definition id_of (e : Edge) : EdgeId :=
  match e with
  | InvalidEdge => 0
  | MkEdge u v => pair_id u v
  end.

Fixpoint rank_of (es : list (NodeId * NodeId * EdgeWeight)) (r : RankId) (i : EdgeId)
  : RankId :=
  match es with
  | [] => 0
  | (u, v, _) :: es' => if pair_id u v =? i then r else rank_of es' (r + 1) i
  end.

Definition weight_of (es : list (NodeId * NodeId * EdgeWeight)) (r : RankId)
  : EdgeWeight :=
  if r =? 0 then 0%float
  else default 0%float (snd <$> es !! N.to_nat (r - 1)).

Definition graph_of (n : N) (es : list (NodeId * NodeId * EdgeWeight))
  : StaticSparseGraph :=
  {| numNodes := n;
     numEdges := vsize es;
     getNonZeroNeighbours u :=
       filter (λ v, negb (v =? u)
                    && fneq (weight_of es (rank_of es 1 (pair_id u v))) 0%float = true)
              (upto n);
     edge_id := id_of;
     findIndex := rank_of es 1;
     getWeight := weight_of es;
     getWeightE e := weight_of es (rank_of es 1 (id_of e)) |}.

(** The classical induced-cost kernel of weighted cluster editing. *)
Definition fmin (a b : EdgeWeight) : EdgeWeight := if (b <? a)%float then b else a.

Definition wce : Kernel :=
  {| kIcf uw vw :=
       if (0 <? uw)%float && (0 <? vw)%float then fmin uw vw else 0%float;
     kIcp uw vw :=
       if (uw <? 0)%float && (0 <? vw)%float then fmin vw (- uw)%float
       else if (0 <? uw)%float && (vw <? 0)%float then fmin (- vw)%float uw
       else 0%float |}.

(** A star: node 0 joined to 1, 2 and 3; no triangle. *)
Definition star : StaticSparseGraph :=
  graph_of 4 [(0, 1, 5%float); (0, 2, 4%float); (0, 3, 3%float)].

(** The scenario of the spec: one triangle (0,1,2) and a pendant edge. *)
Definition scenario : StaticSparseGraph :=
  graph_of 4 [(0, 1, 3%float); (1, 2, 2%float); (0, 2, (-1)%float); (2, 3, 1%float)].

(** Two nodes joined by one absent (negative) edge. *)
Definition absent : StaticSparseGraph :=
  graph_of 2 [(0, 1, (-1)%float)].

(** A triangle with one undecided edge, one edge already forbidden and one
    already permanent. *)
Definition decided : StaticSparseGraph :=
  graph_of 3 [(0, 1, 2%float); (1, 2, Forbidden); (0, 2, Permanent)].

(** The states the engine reaches on these graphs. *)
Definition run (g : StaticSparseGraph) : EdgeHeap :=
  default (EdgeHeap_new g) (initInducedCosts g wce (EdgeHeap_new g)).

Definition star0 : EdgeHeap := Eval vm_compute in run star.
Definition scenario0 : EdgeHeap := Eval vm_compute in run scenario.
Definition absent0 : EdgeHeap := Eval vm_compute in run absent.
Definition decided0 : EdgeHeap := Eval vm_compute in run decided.

(** The star after merging the edges (0,2) and (0,3), of ranks 2 and 3. *)
Definition star_merged : EdgeHeap :=
  Eval vm_compute in default star0 (mergeEdges star star0 (MkEdge 0 2) (MkEdge 0 3)).

(** The star after removing the edge (0,2), resp. the edge (0,3). *)
Definition star_less2 : EdgeHeap :=
  Eval vm_compute in default star0 (removeEdgeE star star0 (MkEdge 0 2)).
Definition star_less3 : EdgeHeap :=
  Eval vm_compute in default star0 (removeEdgeE star star0 (MkEdge 0 3)).

(** ... and after then merging the edge (0,1) into the removed edge (0,3). *)
Definition star_less3_merged : EdgeHeap :=
  Eval vm_compute in default star0 (mergeEdges star star_less3 (MkEdge 0 1) (MkEdge 0 3)).

(** The star after [increaseIcf] on the edge (0,2) with [+inf] and then with
    [-inf]: its icf entry is a NaN, its icp entry still 0. *)
Definition star_inf2 : EdgeHeap :=
  Eval vm_compute in default star0 (increaseIcf star star0 (MkEdge 0 2) infinity).
Definition star_nan2 : EdgeHeap :=
  Eval vm_compute in default star0 (increaseIcf star star_inf2 (MkEdge 0 2) neg_infinity).

(** ... after the same two calls of [increaseIcp] (both entries are NaN), *)
Definition star_nan2_pinf : EdgeHeap :=
  Eval vm_compute in default star0 (increaseIcp star star_nan2 (MkEdge 0 2) infinity).
Definition star_nan2_both : EdgeHeap :=
  Eval vm_compute in
    default star0 (increaseIcp star star_nan2_pinf (MkEdge 0 2) neg_infinity).

(** ... with the edges (0,1) and (0,3) removed, *)
Definition star_nan2_less1 : EdgeHeap :=
  Eval vm_compute in default star0 (removeEdgeE star star_nan2_both (MkEdge 0 1)).
Definition star_nan2_less13 : EdgeHeap :=
  Eval vm_compute in default star0 (removeEdgeE star star_nan2_less1 (MkEdge 0 3)).

(** ... and with (0,2) merged into the removed (0,3): [unprocessed] is 0 and
    the entries of rank 3 are NaN. *)
Definition star_drained : EdgeHeap :=
  Eval vm_compute in
    default star0 (mergeEdges star star_nan2_less13 (MkEdge 0 2) (MkEdge 0 3)).

(** ... and with (0,3) removed once more. *)
Definition star_wrapped : EdgeHeap :=
  Eval vm_compute in default star0 (removeEdgeE star star_drained (MkEdge 0 3)).

End Sample.
(** * Properties *)

(** ** Vectors *)

Section Vectors.
Context {A : Type}.
Implicit Types (v : list A) (i j : N) (x : A).

Lemma vget_lt v i x : vget v i = Some x → (N.to_nat i < length v)%nat.
Proof. unfold vget. apply lookup_lt_Some. Qed.

Lemma vget_ok v i : (N.to_nat i < length v)%nat → ∃ x, vget v i = Some x.
Proof. intros H. apply lookup_lt_is_Some_2 in H. destruct H as [x H]. by exists x. Qed.

Lemma vget_Forall (P : A → Prop) v i :
  Forall P v → (N.to_nat i < length v)%nat → ∃ x, vget v i = Some x ∧ P x.
Proof.
  intros HP H. destruct (vget_ok v i H) as [x Hx]. exists x. split; [done|].
  eapply Forall_lookup_1; eauto.
Qed.

Lemma vset_ok v i x :
  (N.to_nat i < length v)%nat → vset v i x = Some (<[N.to_nat i := x]> v).
Proof. intros H. unfold vset. by rewrite decide_True. Qed.

Lemma vset_Some v i x v' :
  vset v i x = Some v' → (N.to_nat i < length v)%nat ∧ v' = <[N.to_nat i := x]> v.
Proof. unfold vset. case_decide; naive_solver. Qed.

Lemma vset_length v i x v' : vset v i x = Some v' → length v' = length v.
Proof. intros [_ ->]%vset_Some. apply length_insert. Qed.

Lemma vget_vset_eq v i x v' : vset v i x = Some v' → vget v' i = Some x.
Proof. intros [H ->]%vset_Some. unfold vget. by apply list_lookup_insert_eq. Qed.

Lemma vget_vset_ne v i j x v' : vset v i x = Some v' → i ≠ j → vget v' j = vget v j.
Proof.
  intros [H ->]%vset_Some Hne. unfold vget. apply list_lookup_insert_ne. lia.
Qed.

Lemma vset_Forall (P : A → Prop) v i x v' :
  vset v i x = Some v' → Forall P v → P x → Forall P v'.
Proof. intros [_ ->]%vset_Some ??. by apply Forall_insert. Qed.

Lemma vswap_ok (P : A → Prop) v i j :
  (N.to_nat i < length v)%nat → (N.to_nat j < length v)%nat → Forall P v →
  ∃ v', vswap v i j = Some v' ∧ length v' = length v ∧ Forall P v' ∧ v' ≡ₚ v.
Proof.
  intros Hi Hj HP. unfold vswap.
  destruct (vget_Forall P v i HP Hi) as (a & Hga & Ha).
  destruct (vget_Forall P v j HP Hj) as (b & Hgb & Hb).
  rewrite Hga, Hgb. simpl.
  rewrite (vset_ok v i b Hi). simpl.
  rewrite vset_ok by (by rewrite length_insert).
  eexists. split; [done|]. rewrite !length_insert. split; [done|]. split.
  - apply Forall_insert; [apply Forall_insert|]; done.
  - by apply Permutation_insert_swap.
Qed.

End Vectors.

Lemma length_upto n : length (upto n) = N.to_nat n.
Proof. unfold upto. by rewrite length_fmap, length_seq. Qed.

Lemma elem_of_upto n x : x ∈ upto n ↔ x < n.
Proof.
  unfold upto. rewrite list_elem_of_fmap. split.
  - intros (i & -> & Hi%elem_of_seq). lia.
  - intros Hx. exists (N.to_nat x). split; [lia|]. apply elem_of_seq. lia.
Qed.

Lemma NoDup_upto n : NoDup (upto n).
Proof.
  unfold upto. apply NoDup_fmap_2; [|apply NoDup_seq]. intros i j. lia.
Qed.

Lemma lookup_upto n (i : nat) : (i < N.to_nat n)%nat → upto n !! i = Some (N.of_nat i).
Proof. intros Hi. unfold upto. rewrite list_lookup_fmap, lookup_seq_lt by done. done. Qed.

Lemma ranks_ok_upto n : ranks_ok (N.to_nat n) (upto n).
Proof. apply Forall_forall. intros x Hx%elem_of_upto. lia. Qed.

Lemma u64_small x : x < 2 ^ 64 → u64 x = x.
Proof. intros. unfold u64. by apply N.mod_small. Qed.

Lemma u64_pred_pos x : 0 < x → x < 2 ^ 64 → u64_pred x = x - 1.
Proof.
  intros H0 H. unfold u64_pred, u64.
  replace (x + (2 ^ 64 - 1)) with (x - 1 + 1 * 2 ^ 64) by lia.
  rewrite N.Div0.mod_add. apply N.mod_small. lia.
Qed.

Lemma u64_succ x : u64 (u64 x + 1) = u64 (x + 1).
Proof. unfold u64. by rewrite N.Div0.add_mod_idemp_l. Qed.

(** ** The heap arrays stay within bounds *)

Lemma vswap_eq {A} (v : list A) (i j : N) (a b : A) :
  vget v i = Some a → vget v j = Some b →
  vswap v i j = Some (<[N.to_nat j := a]> (<[N.to_nat i := b]> v)).
Proof.
  intros Ha Hb. unfold vswap. rewrite Ha, Hb. simpl.
  rewrite (vset_ok v i b) by (by eapply vget_lt). simpl.
  apply vset_ok. rewrite length_insert. by eapply vget_lt.
Qed.

(** Swapping two slots and recording the new slot of both ranks keeps the
    index the inverse of the array. *)
Lemma swap_consistent heap index (pos child : N) (a b : RankId) :
  consistent heap index → pos ≠ child →
  vget heap pos = Some b → vget heap child = Some a →
  consistent (<[N.to_nat child := b]> (<[N.to_nat pos := a]> heap))
             (<[N.to_nat b := child]> (<[N.to_nat a := pos]> index)).
Proof.
  intros Hc Hne Hb Ha i r Hi. unfold vget in *.
  pose proof (Hc _ _ Hb) as Hib. pose proof (Hc _ _ Ha) as Hia.
  rewrite N2Nat.id in Hib, Hia.
  assert (a ≠ b) as Hab by (intros ->; congruence).
  pose proof (lookup_lt_Some _ _ _ Hib) as Lb.
  pose proof (lookup_lt_Some _ _ _ Hia) as La.
  pose proof (lookup_lt_Some _ _ _ Hb) as Lpos.
  pose proof (lookup_lt_Some _ _ _ Ha) as Lchild.
  destruct (decide (i = N.to_nat child)) as [->|Hic].
  { rewrite list_lookup_insert_eq in Hi by (by rewrite length_insert).
    injection Hi as <-. rewrite list_lookup_insert_eq by (by rewrite length_insert).
    by rewrite N2Nat.id. }
  rewrite list_lookup_insert_ne in Hi by done.
  destruct (decide (i = N.to_nat pos)) as [->|Hip].
  { rewrite list_lookup_insert_eq in Hi by done. injection Hi as <-.
    rewrite list_lookup_insert_ne by lia. rewrite list_lookup_insert_eq by done.
    by rewrite N2Nat.id. }
  rewrite list_lookup_insert_ne in Hi by done.
  pose proof (Hc _ _ Hi) as Hir.
  assert (r ≠ a) by (intros ->; rewrite Hia in Hir; injection Hir; lia).
  assert (r ≠ b) by (intros ->; rewrite Hib in Hir; injection Hir; lia).
  rewrite !list_lookup_insert_ne by lia. done.
Qed.

(** One loop iteration's writes: the swap and the two index updates. *)
Lemma swap_step n heap index pos child :
  heap_wf n heap index → (N.to_nat pos < n)%nat → (N.to_nat child < n)%nat →
  pos ≠ child →
  ∃ heap1 a index1 b index2,
    vswap heap pos child = Some heap1 ∧
    vget heap1 pos = Some a ∧ vset index a pos = Some index1 ∧
    vget heap1 child = Some b ∧ vset index1 b child = Some index2 ∧
    heap_wf n heap1 index2 ∧ heap1 ≡ₚ heap.
Proof.
  intros [Hs Hl Hil Hh Hi Hc] Hp Hch Hne.
  destruct (vget_Forall _ heap pos Hh) as (b & Hb & Hbn); [lia|].
  destruct (vget_Forall _ heap child Hh) as (a & Ha & Han); [lia|].
  exists (<[N.to_nat child := b]> (<[N.to_nat pos := a]> heap)), a,
    (<[N.to_nat a := pos]> index), b,
    (<[N.to_nat b := child]> (<[N.to_nat a := pos]> index)).
  split_and!.
  - by apply vswap_eq.
  - unfold vget. rewrite list_lookup_insert_ne by lia.
    apply list_lookup_insert_eq. lia.
  - apply vset_ok. lia.
  - unfold vget. apply list_lookup_insert_eq. rewrite length_insert. lia.
  - apply vset_ok. rewrite length_insert. lia.
  - split; try done.
    + by rewrite !length_insert.
    + by rewrite !length_insert.
    + apply Forall_insert; [apply Forall_insert|]; done.
    + apply Forall_insert; [apply Forall_insert|]; done.
    + by apply swap_consistent.
  - by apply Permutation_insert_swap.
Qed.

Lemma siftUp_total n score fuel : ∀ heap index pos parent,
  heap_wf n heap index → length score = n →
  (N.to_nat pos < n)%nat → (N.to_nat pos ≤ fuel)%nat →
  (0 < pos → parent = (pos - 1) / 2) →
  ∃ heap' index',
    siftUp fuel score heap index pos parent = Some (heap', index') ∧
    heap_wf n heap' index' ∧ heap' ≡ₚ heap.
Proof.
  induction fuel as [|fuel IH]; intros heap index pos parent Hwf Hsc Hpos Hfuel Hpar.
  - assert (pos = 0) as -> by lia. simpl. by eexists _, _.
  - cbn [siftUp]. destruct (0 <? pos) eqn:Hp.
    2:{ simpl. by eexists _, _. }
    apply N.ltb_lt in Hp. specialize (Hpar Hp).
    assert (parent < pos) as Hlt.
    { subst parent. apply N.le_lt_trans with (pos - 1); [|lia].
      apply N.Div0.div_le_upper_bound. lia. }
    pose proof Hwf as [Hs Hl Hil Hh Hi].
    destruct (vget_Forall _ heap parent Hh) as (hp & -> & Hhp); [lia|].
    destruct (vget_Forall _ heap pos Hh) as (hq & -> & Hhq); [lia|]. simpl.
    destruct (vget_ok score hp) as (sp & ->); [lia|].
    destruct (vget_ok score hq) as (sq & ->); [lia|]. simpl.
    destruct (sp <? sq)%float; [|by eexists _, _].
    destruct (swap_step n heap index pos parent Hwf)
      as (heap1 & a & index1 & b & index2 & E1 & E2 & E3 & E4 & E5 & Hwf1 & Hperm);
      [lia..|].
    rewrite E1; simpl; rewrite E2; simpl; rewrite E3; simpl; rewrite E4; simpl;
      rewrite E5; simpl.
    destruct (IH heap1 index2 parent (u64_pred parent / 2))
      as (heap' & index' & Hrun & Hwf' & Hperm'); try done; try lia.
    { intros Hp0. rewrite u64_pred_pos; [done|done|]. lia. }
    exists heap', index'. split; [done|]. split; [done|]. by rewrite Hperm'.
Qed.

Lemma siftDown_total n score fuel : ∀ heap index pos lChild rChild,
  heap_wf n heap index → length score = n →
  (N.to_nat pos < n)%nat → (n ≤ fuel + N.to_nat pos)%nat →
  lChild = 2 * pos + 1 → rChild = 2 * pos + 2 →
  ∃ heap' index',
    siftDown fuel score heap index pos lChild rChild = Some (heap', index') ∧
    heap_wf n heap' index' ∧ heap' ≡ₚ heap.
Proof.
  induction fuel as [|fuel IH];
    intros heap index pos lChild rChild Hwf Hsc Hpos Hfuel -> ->.
  - lia.
  - cbn [siftDown]. pose proof Hwf as [Hs Hl Hil Hh Hi]. unfold vsize. rewrite Hl.
    destruct (vget_Forall _ heap pos Hh) as (hp & Hgp & Hhp); [lia|].
    destruct (vget_ok score hp) as (sp & Hsp); [lia|].
    assert (∃ cl, (if 2 * pos + 1 <? N.of_nat n
                   then hp ← vget heap pos; sp ← vget score hp;
                        hl ← vget heap (2 * pos + 1); sl ← vget score hl;
                        Some (sp <? sl)%float
                   else Some false) = Some cl ∧
                  (cl = true → 2 * pos + 1 < N.of_nat n)) as (cl & -> & Hcl).
    { destruct (2 * pos + 1 <? N.of_nat n) eqn:E; [|by eexists].
      apply N.ltb_lt in E. rewrite Hgp. simpl. rewrite Hsp. simpl.
      destruct (vget_Forall _ heap (2 * pos + 1) Hh) as (hl & -> & Hhl); [lia|]. simpl.
      destruct (vget_ok score hl) as (sl & ->); [lia|]. simpl. eexists; split; [done|lia]. }
    assert (∃ cr, (if 2 * pos + 2 <? N.of_nat n
                   then hp ← vget heap pos; sp ← vget score hp;
                        hr ← vget heap (2 * pos + 2); sr ← vget score hr;
                        Some (sp <? sr)%float
                   else Some false) = Some cr ∧
                  (cr = true → 2 * pos + 2 < N.of_nat n)) as (cr & -> & Hcr).
    { destruct (2 * pos + 2 <? N.of_nat n) eqn:E; [|by eexists].
      apply N.ltb_lt in E. rewrite Hgp. simpl. rewrite Hsp. simpl.
      destruct (vget_Forall _ heap (2 * pos + 2) Hh) as (hr & -> & Hhr); [lia|]. simpl.
      destruct (vget_ok score hr) as (sr & ->); [lia|]. simpl. eexists; split; [done|lia]. }
    simpl. destruct (cl || cr) eqn:Hc; [|by eexists _, _].
    assert (2 * pos + 1 < N.of_nat n) as Hleft.
    { destruct cl; [by apply Hcl|]. simpl in Hc. specialize (Hcr Hc). lia. }
    assert (∃ right, (if 2 * pos + 2 <? N.of_nat n
                      then hl ← vget heap (2 * pos + 1); sl ← vget score hl;
                           hr ← vget heap (2 * pos + 2); sr ← vget score hr;
                           Some (sl <? sr)%float
                      else Some false) = Some right ∧
                     (right = true → 2 * pos + 2 < N.of_nat n))
      as (right & -> & Hright).
    { destruct (2 * pos + 2 <? N.of_nat n) eqn:E; [|by eexists].
      apply N.ltb_lt in E.
      destruct (vget_Forall _ heap (2 * pos + 1) Hh) as (hl & -> & Hhl); [lia|]. simpl.
      destruct (vget_ok score hl) as (sl & ->); [lia|]. simpl.
      destruct (vget_Forall _ heap (2 * pos + 2) Hh) as (hr & -> & Hhr); [lia|]. simpl.
      destruct (vget_ok score hr) as (sr & ->); [lia|]. simpl. eexists; split; [done|lia]. }
    simpl. set (child := if right then 2 * pos + 2 else 2 * pos + 1).
    assert (pos < child ∧ child < N.of_nat n) as [Hchild1 Hchild2].
    { unfold child. destruct right; [specialize (Hright eq_refl)|]; lia. }
    destruct (swap_step n heap index pos child Hwf)
      as (heap1 & a & index1 & b & index2 & E1 & E2 & E3 & E4 & E5 & Hwf1 & Hperm);
      [lia..|].
    rewrite E1; simpl; rewrite E2; simpl; rewrite E3; simpl; rewrite E4; simpl;
      rewrite E5; simpl.
    destruct (IH heap1 index2 child (u64 (2 * child + 1)) (u64 (2 * child + 2)))
      as (heap' & index' & Hrun & Hwf' & Hperm'); try done; try lia.
    { apply u64_small. assert (2 ^ 63 + 2 ^ 63 = 2 ^ 64) by done. lia. }
    { apply u64_small. assert (2 ^ 63 + 2 ^ 63 = 2 ^ 64) by done. lia. }
    exists heap', index'. split; [done|]. split; [done|]. by rewrite Hperm'.
Qed.

Lemma updateHeap_total n heap e change index score :
  heap_wf n heap index → length score = n → (N.to_nat e < n)%nat →
  ∃ heap' index',
    updateHeap heap e change index score = Some (heap', index') ∧
    heap_wf n heap' index' ∧ heap' ≡ₚ heap.
Proof.
  intros Hwf Hsc He. pose proof Hwf as [Hs Hl Hil Hh Hi]. unfold updateHeap.
  destruct (vget_Forall _ index e Hi) as (pos & -> & Hpos); [lia|]. simpl.
  destruct (0 <? change)%float.
  - apply (siftUp_total n); try done; try lia.
    intros Hp. rewrite u64_pred_pos; [done|done|].
    assert (2 ^ 63 < 2 ^ 64) by done. lia.
  - apply (siftDown_total n); try done; try lia.
    + apply u64_small. assert (2 ^ 63 + 2 ^ 63 = 2 ^ 64) by done. lia.
    + apply u64_small. assert (2 ^ 63 + 2 ^ 63 = 2 ^ 64) by done. lia.
Qed.

(** ** Well-formed engine states *)

Lemma ranks_okb_spec n l : ranks_okb n l = true ↔ ranks_ok n l.
Proof.
  unfold ranks_okb, ranks_ok. rewrite forallb_forall, Forall_forall.
  split; intros H x Hx.
  - apply Nat.ltb_lt, H. by apply list_elem_of_In.
  - apply Nat.ltb_lt, H. by apply list_elem_of_In.
Qed.

Lemma bundles_okb_spec n bs :
  forallb (ranks_okb n) bs = true ↔ Forall (ranks_ok n) bs.
Proof.
  rewrite forallb_forall, Forall_forall. split; intros H l Hl.
  - by apply ranks_okb_spec, H, list_elem_of_In.
  - by apply ranks_okb_spec, H, list_elem_of_In.
Qed.

Lemma index_consistent_spec heap index :
  index_consistent heap index = true ↔ consistent heap index.
Proof.
  unfold index_consistent, consistent. rewrite forallb_forall. split.
  - intros H i r Hi. specialize (H (N.of_nat i)).
    unfold vget in H. rewrite Nat2N.id, Hi in H.
    eapply bool_decide_eq_true_1, H. apply list_elem_of_In, elem_of_upto.
    apply lookup_lt_Some in Hi. unfold vsize. lia.
  - intros H x Hx%list_elem_of_In%elem_of_upto. unfold vsize in Hx.
    destruct (vget_ok heap x) as [r Hr]; [lia|]. rewrite Hr.
    apply bool_decide_eq_true_2. unfold vget in *.
    rewrite (H _ _ Hr). by rewrite N2Nat.id.
Qed.

Lemma well_formed_wf s : well_formed s = true ↔ wf s.
Proof.
  unfold well_formed. rewrite !andb_true_iff, !Nat.eqb_eq, N.ltb_lt,
    !ranks_okb_spec, !index_consistent_spec, bundles_okb_spec.
  split.
  - intros H. destruct_and!. by split.
  - intros [? ? [] [] ? ? ? ?]. by split_and!.
Qed.

(** Inversion of a successful run of monadic code. *)
Ltac inv_run H :=
  repeat match type of H with
  | Some _ = Some _ => injection H as H
  | mbind _ _ = Some _ =>
      let x := fresh "x" in let E := fresh "E" in
      apply bind_Some in H; destruct H as (x & E & H)
  | (if ?b then _ else _) = Some _ =>
      let E := fresh "E" in destruct b eqn:E
  | (let '(_, _) := ?p in _) = Some _ => destruct p
  | None = Some _ => discriminate H
  end.

(** ** [removeEdge] *)

Section RemoveEdge.

(** What [removeEdge] does to an entry that passes its guard. *)
Lemma removeEdge_live s rId x y :
  wf s → rId ≠ 0 →
  vget (icf s) rId = Some x → vget (icp s) rId = Some y →
  fneq x Forbidden = true → fneq y Forbidden = true →
  ∃ s', removeEdge s rId = Some s' ∧ wf s' ∧
    icf s' = <[N.to_nat rId := Forbidden]> (icf s) ∧
    icp s' = <[N.to_nat rId := Forbidden]> (icp s) ∧
    unprocessed s' = u64_pred (unprocessed s) ∧
    edges s' = edges s ∧ edgeToBundle s' = edgeToBundle s ∧
    edgeBundles s' = edgeBundles s ∧ cout s' = cout s ∧
    forb_rank2edge s' ≡ₚ forb_rank2edge s ∧ perm_rank2edge s' ≡ₚ perm_rank2edge s.
Proof.
  intros Hwf H0 Hx Hy Hfx Hfy. pose proof Hwf as [He Hp Hf Hpm Hl2 Hr2 Hl3 Hr3].
  pose proof (vget_lt _ _ _ Hx) as Hlt.
  unfold removeEdge.
  assert ((rId =? 0) = false) as -> by (by apply N.eqb_neq).
  assert ((0 <? rId) = true) as -> by (apply N.ltb_lt; lia).
  rewrite Hx. simpl. rewrite Hfx, Hy. simpl. rewrite Hfy.
  rewrite (vset_ok (icf s)) by done. simpl.
  rewrite (vset_ok (icp s)) by lia. simpl.
  destruct (updateHeap_total (length (icf s)) (forb_rank2edge s) rId Forbidden
              (edge2forb_rank s) (<[N.to_nat rId := Forbidden]> (icf s)))
    as (fheap & fidx & -> & Hf' & Hfperm); [done|by rewrite length_insert|done|].
  simpl.
  destruct (updateHeap_total (length (icf s)) (perm_rank2edge s) rId Forbidden
              (edge2perm_rank s) (<[N.to_nat rId := Forbidden]> (icp s)))
    as (pheap & pidx & -> & Hp' & Hpperm); [done|by rewrite length_insert|done|].
  simpl. eexists. split; [done|]. split_and!; try done.
  split; simpl; rewrite ?length_insert; done.
Qed.

(** An entry that fails the guard is left alone. *)
Lemma removeEdge_dead s rId x y :
  vget (icf s) rId = Some x → vget (icp s) rId = Some y →
  fneq x Forbidden && fneq y Forbidden = false →
  removeEdge s rId = Some s.
Proof.
  intros Hx Hy Hg. unfold removeEdge.
  destruct (rId =? 0); [done|]. destruct (0 <? rId); [|done].
  rewrite Hx. simpl. destruct (fneq x Forbidden); [|done].
  rewrite Hy. simpl. simpl in Hg. by rewrite Hg.
Qed.

Lemma removeEdge_total s rId :
  wf s → (N.to_nat rId < length (icf s))%nat →
  ∃ s', removeEdge s rId = Some s' ∧ wf s'.
Proof.
  intros Hwf Hlt. destruct (decide (rId = 0)) as [->|H0]; [by exists s|].
  destruct (vget_ok (icf s) rId) as [x Hx]; [done|].
  destruct (vget_ok (icp s) rId) as [y Hy]; [rewrite (wf_icp _ Hwf); done|].
  destruct (fneq x Forbidden && fneq y Forbidden) eqn:Hg.
  - apply andb_true_iff in Hg as [Hfx Hfy].
    destruct (removeEdge_live s rId x y) as (s' & ? & ? & _); eauto.
  - exists s. split; [|done]. by eapply removeEdge_dead.
Qed.

End RemoveEdge.

(** ** Facts about [double] comparisons with zero *)

Lemma fmax_zero_not_below a : (fmax a 0 <? 0)%float = false.
Proof. unfold fmax. destruct (a <? 0)%float eqn:E; [reflexivity|exact E]. Qed.

(** A value that is not below zero is at least zero, unless it is a NaN. *)
Lemma not_below_zero_ge a :
  (a <? 0)%float = false → is_nan a = false → (0 <=? a)%float = true.
Proof.
  unfold is_nan. rewrite FloatAxioms.ltb_spec, FloatAxioms.leb_spec, FloatAxioms.eqb_spec.
  change (Prim2SF 0) with (S754_zero false).
  destruct (Prim2SF a) as [[]|[]| |[] m e]; cbn; try done.
Qed.

(** Adding to [0.0] changes nothing, except for the negative zero. *)
Lemma zero_add w : (w =? 0)%float = false → (0 + w)%float = w.
Proof.
  rewrite FloatAxioms.eqb_spec. intros H. apply Prim2SF_inj.
  rewrite add_spec. change (Prim2SF 0) with (S754_zero false).
  destruct (Prim2SF w) as [[]|[]| |[] m e] eqn:E; try done.
Qed.

(** For a negative weight, [-w] is [|w|], and the test [w >= 0] fails. *)
Lemma negative_weight w :
  (w <? 0)%float = true → (- w)%float = abs w ∧ (0 <=? w)%float = false.
Proof.
  rewrite FloatAxioms.ltb_spec, FloatAxioms.leb_spec. intros H. split.
  - apply Prim2SF_inj. rewrite opp_spec, abs_spec.
    change (Prim2SF 0) with (S754_zero false) in H.
    destruct (Prim2SF w) as [[]|[]| |[] m e]; try done.
  - change (Prim2SF 0) with (S754_zero false) in *.
    destruct (Prim2SF w) as [[]|[]| |[] m e]; try done.
Qed.

Lemma Forbidden_not_fneq : fneq Forbidden Forbidden = false.
Proof. reflexivity. Qed.

(** ** Removal is idempotent *)




(** ** Cost increases are clamped at zero *)

Section Increase.
Variable g : StaticSparseGraph.

Lemma increaseIcf_live s e w eb x :
  wf s → 0 < findIndexE g e → fneq w 0 = true →
  vget (edgeToBundle s) (findIndexE g e) = Some eb →
  vget (icf s) eb = Some x → (0 <=? x)%float = true →
  ∃ heap index,
    increaseIcf g s e w =
      Some (set_forb (set_icf s (<[N.to_nat eb := fmax (x + w) 0]> (icf s))) heap index) ∧
    heap_wf (length (icf s)) heap index ∧ heap ≡ₚ forb_rank2edge s.
Proof.
  intros Hwf Hr Hw Heb Hx Hlive. unfold increaseIcf.
  apply N.ltb_lt in Hr. rewrite Hr, Hw. simpl. rewrite Heb. simpl.
  rewrite Hx. simpl. rewrite Hlive.
  pose proof (vget_lt _ _ _ Hx) as Hlt.
  rewrite (vset_ok (icf s)) by done. simpl.
  unfold vget at 1. rewrite list_lookup_insert_eq by done. simpl.
  rewrite vset_ok by (by rewrite length_insert). simpl.
  rewrite list_insert_insert_eq.
  destruct (updateHeap_total (length (icf s)) (forb_rank2edge s) eb w
              (edge2forb_rank s) (<[N.to_nat eb := fmax (x + w) 0]> (icf s)))
    as (heap & index & -> & Hh & Hperm); [apply Hwf|by rewrite length_insert|done|].
  simpl. eauto.
Qed.

Lemma increaseIcp_live s e w eb y :
  wf s → 0 < findIndexE g e → fneq w 0 = true →
  vget (edgeToBundle s) (findIndexE g e) = Some eb →
  vget (icp s) eb = Some y → (0 <=? y)%float = true →
  ∃ heap index,
    increaseIcp g s e w =
      Some (set_perm (set_icp s (<[N.to_nat eb := fmax (y + w) 0]> (icp s))) heap index) ∧
    heap_wf (length (icf s)) heap index ∧ heap ≡ₚ perm_rank2edge s.
Proof.
  intros Hwf Hr Hw Heb Hy Hlive. unfold increaseIcp.
  apply N.ltb_lt in Hr. rewrite Hr, Hw. simpl. rewrite Heb. simpl.
  rewrite Hy. simpl. rewrite Hlive.
  pose proof (vget_lt _ _ _ Hy) as Hlt.
  rewrite (vset_ok (icp s)) by done. simpl.
  unfold vget at 1. rewrite list_lookup_insert_eq by done. simpl.
  rewrite vset_ok by (by rewrite length_insert). simpl.
  rewrite list_insert_insert_eq.
  rewrite (wf_icp _ Hwf) in Hlt.
  destruct (updateHeap_total (length (icf s)) (perm_rank2edge s) eb w
              (edge2perm_rank s) (<[N.to_nat eb := fmax (y + w) 0]> (icp s)))
    as (heap & index & -> & Hh & Hperm);
    [apply Hwf|by rewrite length_insert, (wf_icp _ Hwf)|done|].
  simpl. eauto.
Qed.

End Increase.

(** C7. On a well-formed state, for an edge of non-zero rank whose bundle [eb]
    holds a live value ([>= 0]) in the touched dimension and a delta [w]
    with [w != 0], [increaseIcf] (resp. [increaseIcp]) returns, stores
    [max (value + w) 0] in the bundle's entry and leaves every other entry
    alone.  The stored value is never below 0, and it is [>= 0] unless the
    sum is a NaN. *)
Theorem increase_clamped (g : StaticSparseGraph) (s : EdgeHeap) (e : Edge)
    (w : EdgeWeight) (eb : RankId) :
  well_formed s = true →
  0 < findIndexE g e →
  fneq w 0 = true →
  vget (edgeToBundle s) (findIndexE g e) = Some eb →
  (∀ x, vget (icf s) eb = Some x → (0 <=? x)%float = true →
     ∃ s', increaseIcf g s e w = Some s' ∧ well_formed s' = true ∧
           vget (icf s') eb = Some (fmax (x + w) 0) ∧
           (fmax (x + w) 0 <? 0)%float = false ∧
           (is_nan (x + w) = true ∨ (0 <=? fmax (x + w) 0)%float = true) ∧
           (∀ j, j ≠ eb → vget (icf s') j = vget (icf s) j) ∧
           icp s' = icp s) ∧
  (∀ y, vget (icp s) eb = Some y → (0 <=? y)%float = true →
     ∃ s', increaseIcp g s e w = Some s' ∧ well_formed s' = true ∧
           vget (icp s') eb = Some (fmax (y + w) 0) ∧
           (fmax (y + w) 0 <? 0)%float = false ∧
           (is_nan (y + w) = true ∨ (0 <=? fmax (y + w) 0)%float = true) ∧
           (∀ j, j ≠ eb → vget (icp s') j = vget (icp s) j) ∧
           icf s' = icf s).
Proof.
  intros Hwf%well_formed_wf Hr Hw Heb.
  assert (∀ a, is_nan a = true ∨ (0 <=? fmax a 0)%float = true) as Hge.
  { intros a. unfold fmax. destruct (a <? 0)%float eqn:E; [by right|].
    destruct (is_nan a) eqn:En; [by left|]. right. by apply not_below_zero_ge. }
  split.
  - intros x Hx Hlive.
    destruct (increaseIcf_live g s e w eb x) as (heap & index & Hrun & Hh & _); try done.
    pose proof (vget_lt _ _ _ Hx) as Hlt.
    eexists. split; [exact Hrun|]. split_and!; simpl.
    + apply well_formed_wf. destruct Hwf. split; simpl; rewrite ?length_insert; done.
    + unfold vget. by apply list_lookup_insert_eq.
    + apply fmax_zero_not_below.
    + apply Hge.
    + intros j Hj. unfold vget. apply list_lookup_insert_ne. lia.
    + done.
  - intros y Hy Hlive.
    destruct (increaseIcp_live g s e w eb y) as (heap & index & Hrun & Hh & _); try done.
    pose proof (vget_lt _ _ _ Hy) as Hlt.
    eexists. split; [exact Hrun|]. split_and!; simpl.
    + apply well_formed_wf. destruct Hwf. split; simpl; rewrite ?length_insert; done.
    + unfold vget. by apply list_lookup_insert_eq.
    + apply fmax_zero_not_below.
    + apply Hge.
    + intros j Hj. unfold vget. apply list_lookup_insert_ne. lia.
    + done.
Qed.

Lemma increase_clamped_witness :
  (∃ s', increaseIcf Sample.star Sample.star0 (MkEdge 0 2) (-10)%float = Some s' ∧
         vget (icf Sample.star0) 2 = Some 4%float ∧
         vget (icf s') 2 = Some 0%float) ∧
  (∃ s', increaseIcp Sample.star Sample.star0 (MkEdge 0 2) 10%float = Some s' ∧
         vget (icp Sample.star0) 2 = Some 0%float ∧
         vget (icp s') 2 = Some 10%float).
Proof.
  split.
  - destruct (increase_clamped Sample.star Sample.star0 (MkEdge 0 2) (-10)%float 2)
      as [H _]; [vm_compute; reflexivity..|].
    destruct (H 4%float) as (s' & H1 & _ & H2 & _); [vm_compute; reflexivity..|].
    exists s'. split; [exact H1|]. split; [reflexivity|exact H2].
  - destruct (increase_clamped Sample.star Sample.star0 (MkEdge 0 2) 10%float 2)
      as [_ H]; [vm_compute; reflexivity..|].
    destruct (H 0%float) as (s' & H1 & _ & H2 & _); [vm_compute; reflexivity..|].
    exists s'. split; [exact H1|]. split; [reflexivity|exact H2].
Defined.

(** ** [initInducedCosts]: the cost loops *)

Lemma foldM_app {A S} (f : S → A → option S) (s : S) (l1 l2 : list A) :
  foldM f s (l1 ++ l2) = s' ← foldM f s l1; foldM f s' l2.
Proof.
  revert s. induction l1 as [|x l1 IH]; intros s; simpl; [done|].
  destruct (f s x) as [s'|]; simpl; [apply IH|done].
Qed.

(** A loop whose every iteration returns, under an invariant, is a fold. *)
Lemma foldM_fold {A S} (I : S → Prop) (f : S → A → option S) (f' : S → A → S)
    (l : list A) :
  (∀ s x, x ∈ l → I s → f s x = Some (f' s x) ∧ I (f' s x)) →
  ∀ s, I s → foldM f s l = Some (fold_left f' l s) ∧ I (fold_left f' l s).
Proof.
  induction l as [|x l IH]; intros Hf s Hs; simpl; [done|].
  destruct (Hf s x) as [-> Hs']; [left|done|]. simpl.
  apply IH; [|done]. intros s0 y Hy. apply Hf. by right.
Qed.

Lemma set_eta (s : EdgeHeap) :
  {| unprocessed := unprocessed s; edges := edges s; icf := icf s; icp := icp s;
     forb_rank2edge := forb_rank2edge s; perm_rank2edge := perm_rank2edge s;
     edge2forb_rank := edge2forb_rank s; edge2perm_rank := edge2perm_rank s;
     edgeToBundle := edgeToBundle s; edgeBundles := edgeBundles s;
     cout := cout s |} = s.
Proof. by destruct s. Qed.

(** *** Lists of nodes and ranks *)

Lemma existsb_eqb_elem (x : N) (l : list N) : existsb (N.eqb x) l = true ↔ x ∈ l.
Proof.
  rewrite existsb_exists. split.
  - intros (y & Hy & ->%N.eqb_eq). by apply list_elem_of_In.
  - intros H. exists x. split; [by apply list_elem_of_In|apply N.eqb_refl].
Qed.

Lemma distinct_NoDup (l : list N) : distinct l = true ↔ NoDup l.
Proof.
  induction l as [|x l IH]; simpl.
  - split; [constructor|done].
  - rewrite andb_true_iff, negb_true_iff, NoDup_cons, IH.
    rewrite <- not_true_iff_false, existsb_eqb_elem. done.
Qed.

Lemma ascending_cons (x : N) (l : list N) :
  ascending (x :: l) = true → Forall (N.lt x) l ∧ ascending l = true.
Proof.
  revert x. induction l as [|y l IH]; intros x; simpl; [done|].
  intros [Hxy%N.ltb_lt Hl]%andb_true_iff. split; [|done].
  destruct (IH y Hl) as [Hy _]. constructor; [done|].
  eapply Forall_impl; [exact Hy|]. intros z Hz. simpl in Hz. lia.
Qed.

Lemma filter_agree {A} (P Q : A → Prop) `{∀ x, Decision (P x)} `{∀ x, Decision (Q x)}
    (l : list A) :
  Forall (λ x, P x ↔ Q x) l → filter P l = filter Q l.
Proof.
  induction 1 as [|x l Hx _ IH]; [done|].
  destruct (decide (P x)) as [HP|HP].
  - rewrite !filter_cons_True by tauto. by f_equal.
  - rewrite !filter_cons_False by tauto. done.
Qed.

Lemma filter_none {A} (P : A → Prop) `{∀ x, Decision (P x)} (l : list A) :
  Forall (λ x, ¬ P x) l → filter P l = [].
Proof.
  induction 1 as [|x l Hx _ IH]; [apply filter_nil|].
  by rewrite filter_cons_False.
Qed.

Lemma set_intersection_nil_l l : set_intersection [] l = [].
Proof. by destruct l. Qed.

Lemma set_intersection_nil_r l : set_intersection l [] = [].
Proof. by destruct l. Qed.

Lemma set_intersection_cons x l1 y l2 :
  set_intersection (x :: l1) (y :: l2) =
    if x <? y then set_intersection l1 (y :: l2)
    else if y <? x then set_intersection (x :: l1) l2
    else x :: set_intersection l1 l2.
Proof. reflexivity. Qed.

(** On ascending lists [std::set_intersection] yields the elements of the
    first list that occur in the second. *)
Lemma set_intersection_filter : ∀ l1 l2,
  ascending l1 = true → ascending l2 = true →
  set_intersection l1 l2 = filter (λ w, w ∈ l2) l1.
Proof.
  induction l1 as [|x l1 IH1]; intros l2 H1 H2.
  { by rewrite set_intersection_nil_l. }
  destruct (ascending_cons x l1 H1) as [Hx H1'].
  induction l2 as [|y l2 IH2].
  { rewrite set_intersection_nil_r. symmetry. apply filter_none.
    apply Forall_forall. intros z _. apply not_elem_of_nil. }
  destruct (ascending_cons y l2 H2) as [Hy H2'].
  rewrite set_intersection_cons.
  destruct (x <? y) eqn:Exy; [|destruct (y <? x) eqn:Eyx].
  - apply N.ltb_lt in Exy. rewrite IH1 by done.
    rewrite filter_cons_False; [done|].
    intros [->|Hin]%elem_of_cons; [lia|].
    rewrite Forall_forall in Hy. specialize (Hy x Hin). simpl in Hy. lia.
  - apply N.ltb_lt in Eyx. rewrite IH2 by done.
    apply filter_agree. constructor.
    + rewrite elem_of_cons. split; [auto|]. intros [->|?]; [lia|done].
    + eapply Forall_impl; [exact Hx|]. intros z Hz. simpl in Hz.
      rewrite elem_of_cons. split; [auto|]. intros [->|?]; [lia|done].
  - apply N.ltb_ge in Exy, Eyx. assert (x = y) as <- by lia.
    rewrite IH1 by done. rewrite filter_cons_True by left. f_equal.
    apply filter_agree. eapply Forall_impl; [exact Hx|]. intros z Hz. simpl in Hz.
    rewrite elem_of_cons. split; [auto|]. intros [->|?]; [lia|done].
Qed.

Section InitCosts.
Variable g : StaticSparseGraph.
Variable k : Kernel.

Lemma addTriangle_run u v r ws : ∀ s a b,
  vget (icf s) r = Some a → vget (icp s) r = Some b →
  foldM (addTriangle g k u v r) s ws =
    Some (set_icp (set_icf s (<[N.to_nat r := triangle_sum g (kIcf k) u v ws a]> (icf s)))
                  (<[N.to_nat r := triangle_sum g (kIcp k) u v ws b]> (icp s))).
Proof.
  induction ws as [|w ws IH]; intros s a b Ha Hb; simpl.
  - unfold vget in *. rewrite !list_insert_id by done. by destruct s.
  - unfold addTriangle. rewrite Ha. simpl.
    rewrite vset_ok by (by eapply vget_lt). simpl. rewrite Hb. simpl.
    rewrite vset_ok by (by eapply vget_lt). simpl.
    erewrite IH.
    + simpl. rewrite !list_insert_insert_eq. by destruct s.
    + simpl. unfold vget. apply list_lookup_insert_eq. by eapply vget_lt.
    + simpl. unfold vget. apply list_lookup_insert_eq. by eapply vget_lt.
Qed.

(** The vectors the cost loops write have the constructor's size. *)
Definition sized (n : nat) (s : EdgeHeap) : Prop :=
  length (edges s) = n ∧ length (icf s) = n ∧ length (icp s) = n.

Lemma initEdge_result_sized n s p : sized n s → sized n (initEdge_result g k s p).
Proof.
  intros (? & ? & ?). unfold initEdge_result, sized.
  destruct (ranked g p); [|done].
  destruct (plain _); simpl; rewrite ?length_insert; done.
Qed.

Lemma initEdge_run n s u v :
  sized n s →
  (ranked g (u, v) = true → (N.to_nat (rank_uv g u v) < n)%nat) →
  initEdge g k u s v = Some (initEdge_result g k s (u, v)).
Proof.
  intros (He & Hf & Hp) Hr. unfold initEdge, initEdge_result, ranked, plain in *.
  simpl in *. fold (rank_uv g u v).
  destruct (v <? u); [done|]. destruct (rank_uv g u v =? 0); [done|].
  specialize (Hr eq_refl). simpl.
  rewrite (vset_ok (edges s)) by lia. simpl.
  destruct (_ || _ || _); simpl; [done|].
  rewrite (vset_ok (icf s)) by lia. simpl.
  rewrite (vset_ok (icp s)) by lia. simpl.
  destruct (0 <=? getWeight g (rank_uv g u v))%float.
  - unfold vget at 1. rewrite list_lookup_insert_eq by lia. simpl.
    rewrite (vset_ok (<[_ := _]> (icf s))) by (rewrite length_insert; lia). simpl.
    erewrite addTriangle_run.
    + simpl. by rewrite !list_insert_insert_eq.
    + simpl. unfold vget. apply list_lookup_insert_eq. rewrite length_insert. lia.
    + simpl. unfold vget. apply list_lookup_insert_eq. lia.
  - unfold vget at 1. rewrite list_lookup_insert_eq by lia. simpl.
    rewrite (vset_ok (<[_ := _]> (icp s))) by (rewrite length_insert; lia). simpl.
    erewrite addTriangle_run.
    + simpl. by rewrite !list_insert_insert_eq.
    + simpl. unfold vget. apply list_lookup_insert_eq. lia.
    + simpl. unfold vget. apply list_lookup_insert_eq. rewrite length_insert. lia.
Qed.

Lemma initNode_run n u : ∀ vs s,
  sized n s →
  (∀ v, v ∈ vs → ranked g (u, v) = true → (N.to_nat (rank_uv g u v) < n)%nat) →
  foldM (initEdge g k u) s vs = Some (fold_left (initEdge_result g k) ((λ v, (u, v)) <$> vs) s)
  ∧ sized n (fold_left (initEdge_result g k) ((λ v, (u, v)) <$> vs) s).
Proof.
  induction vs as [|v vs IH]; intros s Hs Hr; simpl; [done|].
  rewrite (initEdge_run n) by (try done; apply Hr; left). simpl.
  apply IH; [by apply initEdge_result_sized|].
  intros v' Hv'. apply Hr. by right.
Qed.

Lemma cost_loops_run n : ∀ us s,
  sized n s →
  (∀ p, p ∈ (us ≫= λ u, (λ v, (u, v)) <$> getNonZeroNeighbours g u) →
        ranked g p = true → (N.to_nat (rank_uv g p.1 p.2) < n)%nat) →
  foldM (initNode g k) s us =
    Some (fold_left (initEdge_result g k)
                    (us ≫= λ u, (λ v, (u, v)) <$> getNonZeroNeighbours g u) s)
  ∧ sized n (fold_left (initEdge_result g k)
                    (us ≫= λ u, (λ v, (u, v)) <$> getNonZeroNeighbours g u) s).
Proof.
  induction us as [|u us IH]; intros s Hs Hr; [done|].
  change (foldM (initNode g k) s (u :: us)) with
    (s' ← foldM (initEdge g k u) s (getNonZeroNeighbours g u);
     foldM (initNode g k) s' us).
  change ((u :: us) ≫= λ u, (λ v, (u, v)) <$> getNonZeroNeighbours g u) with
    (((λ v, (u, v)) <$> getNonZeroNeighbours g u) ++
     (us ≫= λ u, (λ v, (u, v)) <$> getNonZeroNeighbours g u)) in *.
  destruct (initNode_run n u (getNonZeroNeighbours g u) s Hs) as [-> Hs1].
  { intros v Hv. apply (Hr (u, v)).
    apply elem_of_app. left. apply list_elem_of_fmap. eauto. }
  cbn [mbind option_bind]. rewrite fold_left_app. apply IH; [done|].
  intros p Hp. apply Hr. apply elem_of_app. by right.
Qed.

(** What the cost loops leave alone. *)
Lemma costs_frame L : ∀ s,
  let s' := fold_left (initEdge_result g k) L s in
  forb_rank2edge s' = forb_rank2edge s ∧ perm_rank2edge s' = perm_rank2edge s ∧
  edge2forb_rank s' = edge2forb_rank s ∧ edge2perm_rank s' = edge2perm_rank s ∧
  edgeToBundle s' = edgeToBundle s ∧ edgeBundles s' = edgeBundles s ∧
  cout s' = cout s.
Proof.
  induction L as [|p L IH]; intros s; simpl; [done|].
  specialize (IH (initEdge_result g k s p)). simpl in IH.
  destruct IH as (-> & -> & -> & -> & -> & -> & ->).
  unfold initEdge_result. destruct (ranked g p); [|done]. by destruct (plain _).
Qed.

(** [unprocessed] counts the tracked pairs. *)
Lemma costs_unprocessed L : ∀ s,
  unprocessed s < 2 ^ 64 →
  unprocessed (fold_left (initEdge_result g k) L s) =
    u64 (unprocessed s + N.of_nat (length (filter (λ p, tracked g p = true) L))).
Proof.
  induction L as [|p L IH]; intros s Hs; simpl.
  { rewrite N.add_0_r. by rewrite u64_small. }
  assert (∀ x, u64 x < 2 ^ 64) as Hu by (intros x; by apply N.mod_lt).
  unfold initEdge_result at 2.
  destruct (ranked g p) eqn:Hr; simpl.
  - destruct (plain _) eqn:Hp; simpl.
    + rewrite filter_cons_True by (unfold tracked; by rewrite Hr, Hp).
      rewrite IH by apply Hu. simpl. unfold u64.
      rewrite N.Div0.add_mod_idemp_l. f_equal. cbn [length]. lia.
    + rewrite filter_cons_False by (unfold tracked; by rewrite Hr, Hp).
      by rewrite IH.
  - rewrite filter_cons_False by (unfold tracked; by rewrite Hr).
    by rewrite IH.
Qed.

(** An entry no tracked pair is ranked at keeps its costs. *)
Lemma costs_untouched (i : nat) L : ∀ s,
  (∀ p, p ∈ L → tracked g p = true → N.to_nat (rank_uv g p.1 p.2) ≠ i) →
  icf (fold_left (initEdge_result g k) L s) !! i = icf s !! i ∧
  icp (fold_left (initEdge_result g k) L s) !! i = icp s !! i.
Proof.
  induction L as [|p L IH]; intros s Hne; simpl; [done|].
  destruct (IH (initEdge_result g k s p)) as [-> ->].
  { intros q Hq. apply Hne. by right. }
  specialize (Hne p). unfold tracked in Hne. unfold initEdge_result.
  destruct (ranked g p); [|done]. destruct (plain _); [|done]. simpl.
  rewrite !list_lookup_insert_ne; [done|by apply Hne; [left|]..].
Qed.

(** The costs the loop body computes for a tracked pair. *)
Lemma costs_step s p :
  tracked g p = true →
  (N.to_nat (rank_uv g p.1 p.2) < length (icf s))%nat →
  (N.to_nat (rank_uv g p.1 p.2) < length (icp s))%nat →
  let w_uv := getWeight g (rank_uv g p.1 p.2) in
  let w_vec := set_intersection (getNonZeroNeighbours g p.1) (getNonZeroNeighbours g p.2) in
  vget (icf (initEdge_result g k s p)) (rank_uv g p.1 p.2) =
    Some (triangle_sum g (kIcf k) p.1 p.2 w_vec
            (if (0 <=? w_uv)%float then 0 + w_uv else 0)%float) ∧
  vget (icp (initEdge_result g k s p)) (rank_uv g p.1 p.2) =
    Some (triangle_sum g (kIcp k) p.1 p.2 w_vec
            (if (0 <=? w_uv)%float then 0 else 0 + - w_uv)%float).
Proof.
  intros [Hr Hp]%andb_true_iff Hf Hc. unfold initEdge_result. rewrite Hr, Hp. simpl.
  unfold vget. by rewrite !list_lookup_insert_eq.
Qed.

(** A tracked pair whose rank no other tracked pair shares keeps the costs
    the loop body gave it. *)
Lemma costs_tracked n L p : ∀ s,
  sized n s → p ∈ L → tracked g p = true →
  NoDup ((λ p, rank_uv g p.1 p.2) <$> filter (λ p, tracked g p = true) L) →
  (N.to_nat (rank_uv g p.1 p.2) < n)%nat →
  let w_uv := getWeight g (rank_uv g p.1 p.2) in
  let w_vec := set_intersection (getNonZeroNeighbours g p.1) (getNonZeroNeighbours g p.2) in
  vget (icf (fold_left (initEdge_result g k) L s)) (rank_uv g p.1 p.2) =
    Some (triangle_sum g (kIcf k) p.1 p.2 w_vec
            (if (0 <=? w_uv)%float then 0 + w_uv else 0)%float) ∧
  vget (icp (fold_left (initEdge_result g k) L s)) (rank_uv g p.1 p.2) =
    Some (triangle_sum g (kIcp k) p.1 p.2 w_vec
            (if (0 <=? w_uv)%float then 0 else 0 + - w_uv)%float).
Proof.
  induction L as [|q L IH]; intros s Hs Hin Ht Hnd Hr; [by apply elem_of_nil in Hin|].
  cbn [fold_left]. destruct (decide (p ∈ L)) as [HL|HL].
  - apply IH; try done; [by apply initEdge_result_sized|].
    destruct (decide (tracked g q = true)).
    + rewrite filter_cons_True in Hnd by done. rewrite fmap_cons in Hnd.
      by apply NoDup_cons in Hnd as [_ ?].
    + by rewrite filter_cons_False in Hnd.
  - apply elem_of_cons in Hin as [<-|?]; [|done].
    rewrite filter_cons_True in Hnd by done. rewrite fmap_cons in Hnd.
    apply NoDup_cons in Hnd as [Hfresh _].
    destruct (costs_untouched (N.to_nat (rank_uv g p.1 p.2)) L (initEdge_result g k s p))
      as [Hf Hp].
    { intros q Hq Htq Heq. apply Hfresh. apply list_elem_of_fmap.
      exists q. split; [lia|]. by apply list_elem_of_filter. }
    unfold vget. rewrite Hf, Hp. destruct Hs as (? & ? & ?).
    apply costs_step; [done|lia..].
Qed.

End InitCosts.

(** ** [initInducedCosts]: the heaps and the bundles *)

(** A loop whose every iteration returns and keeps an invariant returns. *)
Lemma foldM_inv {A S} (I : S → Prop) (f : S → A → option S) (l : list A) :
  (∀ s x, x ∈ l → I s → ∃ s', f s x = Some s' ∧ I s') →
  ∀ s, I s → ∃ s', foldM f s l = Some s' ∧ I s'.
Proof.
  induction l as [|x l IH]; intros Hf s Hs; simpl; [eauto|].
  destruct (Hf s x) as (s1 & -> & Hs1); [left|done|]. simpl.
  apply IH; [|done]. intros s0 y Hy. apply Hf. by right.
Qed.

Lemma insert_desc_perm x l : insert_desc x l ≡ₚ x :: l.
Proof.
  induction l as [|y l IH]; simpl; [done|].
  destruct (x.2 <? y.2)%float; [|done]. rewrite IH. apply Permutation_swap.
Qed.

Lemma sort_desc_perm l : sort_desc l ≡ₚ l.
Proof.
  induction l as [|x l IH]; simpl; [done|].
  unfold sort_desc in *. simpl. rewrite insert_desc_perm. by f_equiv.
Qed.

(** The sorted array holds the same ranks. *)
Lemma sort_by_score_run score l :
  ranks_ok (length score) l →
  ∃ l', sort_by_score score l = Some l' ∧ l' ≡ₚ l.
Proof.
  intros Hl. unfold sort_by_score.
  destruct (mapM (λ a, x ← vget score a; Some (a, x)) l) as [keyed|] eqn:E.
  - simpl. eexists. split; [done|]. rewrite sort_desc_perm.
    apply mapM_Some_1 in E. clear Hl.
    induction E as [|a p l keyed Hp _ IH]; [done|].
    rewrite fmap_cons. inv_run Hp. subst p. simpl. by f_equiv.
  - exfalso. apply mapM_None_1 in E. apply Exists_exists in E as (a & Ha & Hnone).
    unfold ranks_ok in Hl. rewrite Forall_forall in Hl.
    destruct (vget_ok score a) as [x Hx]; [by apply Hl|].
    by rewrite Hx in Hnone.
Qed.

Section InitRest.
Variable g : StaticSparseGraph.

Lemma nanSweep_run s l :
  (∀ i, i ∈ l → (N.to_nat (findIndex g i) < length (icf s))%nat
               ∧ (N.to_nat (findIndex g i) < length (icp s))%nat) →
  ∃ s', nanSweep g s l = Some s' ∧ (s' = s ∨ ∃ msg, s' = print s msg).
Proof.
  induction l as [|i l IH]; intros Hr; simpl; [eauto|].
  destruct (Hr i) as [Hf Hp]; [left|].
  destruct (vget_ok (icf s) (findIndex g i) Hf) as [x ->]. simpl.
  destruct (is_nan x); [eauto|].
  destruct (vget_ok (icp s) (findIndex g i) Hp) as [y ->]. simpl.
  destruct (is_nan y); [eauto|].
  apply IH. intros j Hj. apply Hr. by right.
Qed.

Lemma initIndex_step s i a b :
  vget (forb_rank2edge s) i = Some a → vget (perm_rank2edge s) i = Some b →
  (N.to_nat a < length (edge2forb_rank s))%nat →
  (N.to_nat b < length (edge2perm_rank s))%nat →
  initIndex s i =
    Some (set_perm (set_forb s (forb_rank2edge s) (<[N.to_nat a := i]> (edge2forb_rank s)))
                   (perm_rank2edge s) (<[N.to_nat b := i]> (edge2perm_rank s))).
Proof.
  intros Ha Hb La Lb. unfold initIndex. rewrite Ha. simpl.
  rewrite (vset_ok (edge2forb_rank s)) by done. simpl. rewrite Hb. simpl.
  by rewrite (vset_ok (edge2perm_rank s)).
Qed.

(** The loop of lines 100-103 records, for every slot of [l], the slot of the
    rank it holds, and rewrites nothing but the two reverse indices. *)
Lemma initIndex_loop n fheap pheap :
  length fheap = n → length pheap = n →
  ranks_ok n fheap → ranks_ok n pheap → NoDup fheap → NoDup pheap →
  ∀ l s,
    forb_rank2edge s = fheap → perm_rank2edge s = pheap →
    ranks_ok n l →
    length (edge2forb_rank s) = n → length (edge2perm_rank s) = n →
    ranks_ok n (edge2forb_rank s) → ranks_ok n (edge2perm_rank s) →
    ∃ fidx pidx,
      foldM initIndex s l = Some (set_perm (set_forb s fheap fidx) pheap pidx) ∧
      length fidx = n ∧ length pidx = n ∧ ranks_ok n fidx ∧ ranks_ok n pidx ∧
      (∀ i r, i ∈ l → vget fheap i = Some r → vget fidx r = Some i) ∧
      (∀ i r, i ∈ l → vget pheap i = Some r → vget pidx r = Some i) ∧
      (∀ r, (∀ i, i ∈ l → vget fheap i ≠ Some r) →
            vget fidx r = vget (edge2forb_rank s) r) ∧
      (∀ r, (∀ i, i ∈ l → vget pheap i ≠ Some r) →
            vget pidx r = vget (edge2perm_rank s) r).
Proof.
  intros Hfl Hpl Hf Hp Hfnd Hpnd.
  induction l as [|i l IH]; intros s Hsf Hsp Hl Lf Lp Rf Rp.
  { exists (edge2forb_rank s), (edge2perm_rank s). simpl. subst fheap pheap.
    split; [by destruct s|]. split_and!; try done.
    all: by intros i r ?%elem_of_nil. }
  apply Forall_cons in Hl as [Hi Hl].
  destruct (vget_Forall _ fheap i Hf) as (a & Ha & Han); [lia|].
  destruct (vget_Forall _ pheap i Hp) as (b & Hb & Hbn); [lia|].
  cbn [foldM]. rewrite (initIndex_step s i a b) by (subst; done || lia).
  cbn [mbind option_bind].
  destruct (IH (set_perm (set_forb s (forb_rank2edge s)
                                     (<[N.to_nat a := i]> (edge2forb_rank s)))
                         (perm_rank2edge s) (<[N.to_nat b := i]> (edge2perm_rank s))))
    as (fidx & pidx & Hrun & Lf' & Lp' & Rf' & Rp' & Hfin & Hpin & Hfout & Hpout);
    try done; simpl; rewrite ?length_insert; try done.
  { by apply Forall_insert. }
  { by apply Forall_insert. }
  simpl in *. exists fidx, pidx. rewrite Hrun. split; [by subst|].
  split_and!; try done.
  - intros j r [->|Hj]%elem_of_cons Hr; [|by eapply Hfin].
    destruct (decide (i ∈ l)) as [?|Hil]; [by eapply Hfin|].
    assert (r = a) as -> by congruence.
    rewrite Hfout.
    + unfold vget. apply list_lookup_insert_eq. lia.
    + intros j Hj Hja. unfold vget in *.
      assert (N.to_nat j = N.to_nat i) by (by eapply (NoDup_lookup fheap)).
      assert (j = i) as -> by lia. done.
  - intros j r [->|Hj]%elem_of_cons Hr; [|by eapply Hpin].
    destruct (decide (i ∈ l)) as [?|Hil]; [by eapply Hpin|].
    assert (r = b) as -> by congruence.
    rewrite Hpout.
    + unfold vget. apply list_lookup_insert_eq. lia.
    + intros j Hj Hjb. unfold vget in *.
      assert (N.to_nat j = N.to_nat i) by (by eapply (NoDup_lookup pheap)).
      assert (j = i) as -> by lia. done.
  - intros r Hr. rewrite Hfout.
    + unfold vget. apply list_lookup_insert_ne. intros Heq.
      apply (Hr i); [left|]. assert (a = r) as <- by lia. done.
    + intros j Hj. apply Hr. by right.
  - intros r Hr. rewrite Hpout.
    + unfold vget. apply list_lookup_insert_ne. intros Heq.
      apply (Hr i); [left|]. assert (b = r) as <- by lia. done.
    + intros j Hj. apply Hr. by right.
Qed.

Lemma initBundle_step s x m :
  (N.to_nat x < length (edgeToBundle s))%nat →
  vget (edgeBundles s) x = Some m →
  initBundle s x = Some (set_bundles s (<[N.to_nat x := x]> (edgeToBundle s))
                                     (<[N.to_nat x := m ++ [x]]> (edgeBundles s))).
Proof.
  intros Hx Hm. unfold initBundle. rewrite vset_ok by done. simpl. rewrite Hm. simpl.
  rewrite vset_ok by (by eapply vget_lt). done.
Qed.

(** The loop of lines 106-109 makes every rank of [l] its own bundle. *)
Lemma initBundle_loop n : ∀ l s,
  NoDup l → ranks_ok n l →
  length (edgeToBundle s) = n → length (edgeBundles s) = n →
  ∃ e2b bs,
    foldM initBundle s l = Some (set_bundles s e2b bs) ∧
    length e2b = n ∧ length bs = n ∧
    (∀ id, id ∈ l →
       vget e2b id = Some id ∧
       vget bs id = (λ m, m ++ [id]) <$> vget (edgeBundles s) id) ∧
    (∀ i : nat, N.of_nat i ∉ l →
       e2b !! i = edgeToBundle s !! i ∧ bs !! i = edgeBundles s !! i).
Proof.
  induction l as [|x l IH]; intros s Hnd Hl He Hb.
  { exists (edgeToBundle s), (edgeBundles s). simpl. split; [by destruct s|].
    split_and!; try done. by intros id ?%elem_of_nil. }
  apply NoDup_cons in Hnd as [Hx Hnd]. apply Forall_cons in Hl as [Hxn Hl].
  destruct (vget_ok (edgeBundles s) x) as [m Hm]; [lia|].
  cbn [foldM]. rewrite (initBundle_step s x m) by (done || lia). cbn [mbind option_bind].
  destruct (IH (set_bundles s (<[N.to_nat x := x]> (edgeToBundle s))
                            (<[N.to_nat x := m ++ [x]]> (edgeBundles s))))
    as (e2b & bs & Hrun & Hle & Hlb & Hin & Hout); try done.
  { simpl. by rewrite length_insert. }
  { simpl. by rewrite length_insert. }
  simpl in *. exists e2b, bs. split; [exact Hrun|]. split_and!; try done.
  - intros id [->|Hid]%elem_of_cons.
    + unfold vget in *.
      destruct (Hout (N.to_nat x)) as [-> ->]; [by rewrite N2Nat.id|].
      rewrite Hm. rewrite !list_lookup_insert_eq by lia. done.
    + destruct (Hin id Hid) as [-> ->]. split; [done|].
      unfold vget. rewrite list_lookup_insert_ne; [done|].
      intros Heq. apply Hx. assert (x = id) as -> by lia. done.
  - intros i Hi. apply not_elem_of_cons in Hi as [Hne Hi].
    destruct (Hout i Hi) as [-> ->].
    rewrite !list_lookup_insert_ne by lia. done.
Qed.

End InitRest.

(** ** [initInducedCosts] as a whole *)

Section InitRun.
Variable g : StaticSparseGraph.
Variable k : Kernel.

Lemma graph_ok_spec :
  graph_ok g = true →
  1 + numEdges g < 2 ^ 63 ∧
  (∀ p, p ∈ pairs g → ranked g p = true → rank_uv g p.1 p.2 ≤ numEdges g) ∧
  (∀ i, i < 1 + numEdges g → findIndex g i ≤ numEdges g).
Proof.
  unfold graph_ok. rewrite !andb_true_iff, N.ltb_lt, !forallb_forall.
  intros [[H1 H2] H3]. split_and!; [done|..].
  - intros p Hp Hr. apply N.leb_le, H2, list_elem_of_In, list_elem_of_filter. done.
  - intros i Hi. by apply N.leb_le, H3, list_elem_of_In, elem_of_upto.
Qed.

Lemma new_sized : sized (N.to_nat (1 + numEdges g)) (EdgeHeap_new g).
Proof. unfold sized. simpl. by rewrite !length_replicate. Qed.

Lemma nanSweep_frame s l s' :
  nanSweep g s l = Some s' →
  unprocessed s' = unprocessed s ∧ edges s' = edges s ∧ icf s' = icf s ∧
  icp s' = icp s ∧ forb_rank2edge s' = forb_rank2edge s ∧
  perm_rank2edge s' = perm_rank2edge s ∧ edge2forb_rank s' = edge2forb_rank s ∧
  edge2perm_rank s' = edge2perm_rank s ∧ edgeToBundle s' = edgeToBundle s ∧
  edgeBundles s' = edgeBundles s ∧
  (cout s' = cout s ∨ ∃ msg, cout s' = cout s ++ [msg]).
Proof.
  induction l as [|i l IH]; simpl; intros H.
  - injection H as <-. split_and!; auto.
  - inv_run H; [subst s'; simpl; split_and!; eauto..|]. by apply IH.
Qed.

Lemma bundles_closed (n : N) (e2b : list RankId) (bs : list (list RankId)) :
  length e2b = N.to_nat n → length bs = N.to_nat n →
  (∀ id, id ∈ upto n →
     vget e2b id = Some id ∧
     vget bs id = (λ m, m ++ [id]) <$> vget (replicate (N.to_nat n) []) id) →
  e2b = upto n ∧ bs = (λ id, [id]) <$> upto n.
Proof.
  intros He Hb Hin. split; apply list_eq; intros i.
  - destruct (decide (i < N.to_nat n)%nat) as [Hi|Hi].
    + rewrite lookup_upto by done.
      destruct (Hin (N.of_nat i)) as [H _]; [apply elem_of_upto; lia|].
      unfold vget in H. by rewrite Nat2N.id in H.
    + rewrite !lookup_ge_None_2; [done|rewrite length_upto; lia|lia].
  - destruct (decide (i < N.to_nat n)%nat) as [Hi|Hi].
    + rewrite list_lookup_fmap, lookup_upto by done.
      destruct (Hin (N.of_nat i)) as [_ H]; [apply elem_of_upto; lia|].
      unfold vget in H. rewrite Nat2N.id in H. rewrite H.
      by rewrite lookup_replicate_2.
    + rewrite !lookup_ge_None_2; [done|rewrite length_fmap, length_upto; lia|lia].
Qed.

(** On a graph whose ranks stay within [numEdges], [initInducedCosts] returns
    a well-formed state: the costs are those of the two cost loops, each heap
    array holds every rank from 0 to [numEdges] once, and every rank is
    its own one-element bundle. *)
Lemma init_run :
  graph_ok g = true →
  ∃ s, initInducedCosts g k (EdgeHeap_new g) = Some s ∧ wf s ∧
    unprocessed s = unprocessed (costs_result g k (EdgeHeap_new g)) ∧
    edges s = edges (costs_result g k (EdgeHeap_new g)) ∧
    icf s = icf (costs_result g k (EdgeHeap_new g)) ∧
    icp s = icp (costs_result g k (EdgeHeap_new g)) ∧
    length (icf s) = N.to_nat (1 + numEdges g) ∧
    forb_rank2edge s ≡ₚ upto (1 + numEdges g) ∧
    perm_rank2edge s ≡ₚ upto (1 + numEdges g) ∧
    edgeToBundle s = upto (1 + numEdges g) ∧
    edgeBundles s = (λ id, [id]) <$> upto (1 + numEdges g) ∧
    (cout s = [] ∨ ∃ msg, cout s = [msg]) ∧
    sort_by_score (icf s) (upto (1 + numEdges g)) = Some (forb_rank2edge s) ∧
    sort_by_score (icp s) (upto (1 + numEdges g)) = Some (perm_rank2edge s) ∧
    ∃ s2, nanSweep g (costs_result g k (EdgeHeap_new g)) (upto (1 + numEdges g)) = Some s2 ∧
          cout s = cout s2.
Proof.
  intros (Hsmall & Hpairs & Hids)%graph_ok_spec.
  set (n := N.to_nat (1 + numEdges g)).
  unfold initInducedCosts.
  destruct (cost_loops_run g k n (upto (numNodes g)) (EdgeHeap_new g))
    as [Hrun (Hse & Hsf & Hsp)]; [apply new_sized|..].
  { intros p Hp Hr. specialize (Hpairs p Hp Hr). lia. }
  rewrite Hrun. cbn [mbind option_bind].
  fold (pairs g) in *. fold (costs_result g k (EdgeHeap_new g)) in *.
  set (s1 := costs_result g k (EdgeHeap_new g)) in *.
  destruct (costs_frame g k (pairs g) (EdgeHeap_new g))
    as (Hf1 & Hp1 & Hfi1 & Hpi1 & He2b1 & Hbs1 & Hc1).
  fold (costs_result g k (EdgeHeap_new g)) in *. fold s1 in Hf1, Hp1, Hfi1, Hpi1, He2b1, Hbs1, Hc1.
  simpl in Hf1, Hp1, Hfi1, Hpi1, He2b1, Hbs1, Hc1.
  assert (vsize (icf s1) = 1 + numEdges g) as Hvs by (unfold vsize; lia).
  rewrite Hvs.
  destruct (nanSweep_run g s1 (upto (1 + numEdges g))) as (s2 & Hsweep & _).
  { intros i Hi%elem_of_upto. specialize (Hids i Hi). lia. }
  rewrite Hsweep. cbn [mbind option_bind].
  destruct (nanSweep_frame _ _ _ Hsweep)
    as (Hu2 & He2 & Hf2 & Hp2 & Hfh2 & Hph2 & Hfi2 & Hpi2 & He2b2 & Hbs2 & Hc2).
  assert (vsize (icf s2) = 1 + numEdges g) as Hvs2 by (rewrite Hf2; done).
  rewrite Hvs2. cbn [icf icp forb_rank2edge perm_rank2edge edge2forb_rank
                     edge2perm_rank set_perm set_forb].
  rewrite Hfh2, Hph2, Hf1, Hp1. cbn [app].
  destruct (sort_by_score_run (icf s2) (upto (1 + numEdges g)))
    as (fheap & Hfsort & Hfperm).
  { rewrite Hf2, Hsf. apply ranks_ok_upto. }
  destruct (sort_by_score_run (icp s2) (upto (1 + numEdges g)))
    as (pheap & Hpsort & Hpperm).
  { rewrite Hp2, Hsp. apply ranks_ok_upto. }
  rewrite Hfsort, Hpsort.
  cbn [mbind option_bind].
  set (s3 := set_perm _ pheap _).
  assert (length fheap = n) as Hfl by (rewrite Hfperm; apply length_upto).
  assert (length pheap = n) as Hpl by (rewrite Hpperm; apply length_upto).
  assert (ranks_ok n fheap) as Hfr.
  { unfold ranks_ok. rewrite Hfperm. apply ranks_ok_upto. }
  assert (ranks_ok n pheap) as Hpr.
  { unfold ranks_ok. rewrite Hpperm. apply ranks_ok_upto. }
  assert (NoDup fheap) as Hfnd by (rewrite Hfperm; apply NoDup_upto).
  assert (NoDup pheap) as Hpnd by (rewrite Hpperm; apply NoDup_upto).
  destruct (initIndex_loop n fheap pheap Hfl Hpl Hfr Hpr Hfnd Hpnd
              (upto (1 + numEdges g)) s3)
    as (fidx & pidx & -> & Hfil & Hpil & Hfir & Hpir & Hfc & Hpc & _); try done.
  { apply ranks_ok_upto. }
  { subst s3. simpl. by rewrite Hfi2, Hfi1, length_replicate. }
  { subst s3. simpl. by rewrite Hpi2, Hpi1, length_replicate. }
  { subst s3. simpl. rewrite Hfi2, Hfi1. apply Forall_replicate. lia. }
  { subst s3. simpl. rewrite Hpi2, Hpi1. apply Forall_replicate. lia. }
  assert (consistent fheap fidx) as Hfcons.
  { intros i r Hi. apply (Hfc (N.of_nat i)).
    - apply elem_of_upto. apply lookup_lt_Some in Hi. lia.
    - unfold vget. by rewrite Nat2N.id. }
  assert (consistent pheap pidx) as Hpcons.
  { intros i r Hi. apply (Hpc (N.of_nat i)).
    - apply elem_of_upto. apply lookup_lt_Some in Hi. lia.
    - unfold vget. by rewrite Nat2N.id. }
  cbn [mbind option_bind].
  set (s5 := set_perm _ pheap pidx).
  destruct (initBundle_loop n (upto (1 + numEdges g)) s5)
    as (e2b & bs & -> & Hel & Hbl & Hin & _).
  { apply NoDup_upto. }
  { apply ranks_ok_upto. }
  { subst s5 s3. simpl. by rewrite He2b2, He2b1, length_replicate. }
  { subst s5 s3. simpl. by rewrite Hbs2, Hbs1, length_replicate. }
  destruct (bundles_closed (1 + numEdges g) e2b bs) as [-> ->]; [done..| |].
  { intros id Hid. destruct (Hin id Hid) as [H1 H2]. split; [done|].
    rewrite H2. subst s5 s3. simpl. by rewrite Hbs2, Hbs1. }
  eexists. split; [done|]. try subst s5. try subst s3. simpl.
  split_and!; try done.
  - split; simpl;
      rewrite ?Hf2, ?Hp2, ?He2, ?Hsf, ?Hsp, ?Hse, ?length_fmap, ?length_upto;
      try done.
    all: try (split; try done; unfold n; lia).
    all: try apply ranks_ok_upto.
    apply Forall_fmap, Forall_forall. intros id Hid%elem_of_upto.
    simpl. constructor; [lia|constructor].
  - by rewrite Hf2.
  - rewrite Hc1 in Hc2. simpl in Hc2. destruct Hc2 as [->|[msg ->]]; eauto.
  - by exists s2.
Qed.

End InitRun.

(** ** The induced costs after initialization *)

Section InitClaims.
Variable g : StaticSparseGraph.
Variable k : Kernel.

Lemma listed_pairs u v : listed g u v = true → (u, v) ∈ pairs g.
Proof.
  unfold listed, pairs. intros [Hu%N.ltb_lt Hv%existsb_eqb_elem]%andb_true_iff.
  apply list_elem_of_bind. exists u. split; [|by apply elem_of_upto].
  apply list_elem_of_fmap. eauto.
Qed.

Lemma neighbours_ascending_common u v :
  neighbours_ascending g = true → (u, v) ∈ pairs g →
  set_intersection (getNonZeroNeighbours g u) (getNonZeroNeighbours g v) = common g u v.
Proof.
  unfold neighbours_ascending. rewrite forallb_forall. intros H Hp.
  apply list_elem_of_In, H in Hp. apply andb_true_iff in Hp as [Hu Hv].
  by apply set_intersection_filter.
Qed.

(** C8. After [initInducedCosts] on a graph whose adapter keeps ranks within
    [numEdges], lists neighbours in ascending order and gives tracked pairs
    distinct ranks, every tracked edge [(u, v)] (listed, [u <= v], non-zero
    rank, plain non-zero weight [w_uv]) has
    - [icf] = the direct term ([w_uv] when [w_uv >= 0], nothing otherwise)
      plus the kernel's forbid contributions, summed from left to right
      over the common non-zero-weight neighbours of [u] and [v];
    - [icp] = the direct term ([|w_uv|] when [w_uv < 0], nothing otherwise)
      plus the kernel's permanent contributions over the same nodes;
    and [unprocessed] is the number of tracked pairs. *)
Theorem init_costs (u v : NodeId) :
  graph_ok g = true →
  neighbours_ascending g = true →
  ranks_distinct g = true →
  listed g u v = true →
  tracked g (u, v) = true →
  let w_uv := getWeight g (rank_uv g u v) in
  ∃ s, initInducedCosts g k (EdgeHeap_new g) = Some s ∧
    vget (icf s) (rank_uv g u v) = Some (forbid_cost g k u v) ∧
    vget (icp s) (rank_uv g u v) = Some (perm_cost g k u v) ∧
    ((0 <=? w_uv)%float = true →
       forbid_cost g k u v = triangle_sum g (kIcf k) u v (common g u v) w_uv ∧
       perm_cost g k u v = triangle_sum g (kIcp k) u v (common g u v) 0) ∧
    ((w_uv <? 0)%float = true →
       forbid_cost g k u v = triangle_sum g (kIcf k) u v (common g u v) 0 ∧
       perm_cost g k u v = triangle_sum g (kIcp k) u v (common g u v) (abs w_uv)) ∧
    unprocessed s =
      u64 (N.of_nat (length (filter (λ p, tracked g p = true) (pairs g)))).
Proof.
  intros Hok Hasc Hdist Hlisted Htracked w_uv.
  pose proof (listed_pairs u v Hlisted) as Hin.
  destruct (init_run g k Hok)
    as (s & Hrun & Hwf & Hun & _ & Hicf & Hicp & Hlen & _).
  destruct (graph_ok_spec g Hok) as (_ & Hpairs & _).
  assert (ranked g (u, v) = true) as Hranked.
  { unfold tracked in Htracked. by apply andb_true_iff in Htracked as [? _]. }
  assert ((w_uv =? 0)%float = false) as Hnz.
  { unfold tracked, plain in Htracked. fold w_uv in Htracked.
    apply andb_true_iff in Htracked as [_ Hp]. apply negb_true_iff in Hp.
    by apply orb_false_iff in Hp as [[? _]%orb_false_iff _]. }
  destruct (costs_tracked g k (N.to_nat (1 + numEdges g)) (pairs g) (u, v) (EdgeHeap_new g))
    as [Hf Hp]; try done.
  { apply new_sized. }
  { by apply distinct_NoDup. }
  { specialize (Hpairs (u, v) Hin Hranked). simpl in *. lia. }
  simpl in Hf, Hp. rewrite neighbours_ascending_common in Hf, Hp by done.
  exists s. split; [done|]. unfold costs_result in *. rewrite Hicf, Hicp.
  split_and!; try done.
  - intros Hge. unfold forbid_cost, perm_cost. fold w_uv. rewrite Hge.
    by rewrite zero_add.
  - intros [Habs Hlt]%negative_weight. unfold forbid_cost, perm_cost. fold w_uv.
    rewrite Hlt, Habs. rewrite zero_add; [done|].
    rewrite <- Habs. clear -Hnz. revert Hnz.
    rewrite !FloatAxioms.eqb_spec, opp_spec.
    change (Prim2SF 0) with (S754_zero false).
    by destruct (Prim2SF w_uv) as [[]|[]| |[] m e].
  - rewrite Hun, costs_unprocessed by done. done.
Qed.

End InitClaims.

Lemma init_costs_witness :
  ∃ s, initInducedCosts Sample.scenario Sample.wce (EdgeHeap_new Sample.scenario) = Some s ∧
       vget (icf s) 1 = Some 3%float ∧ vget (icp s) 1 = Some 1%float ∧
       unprocessed s = 4.
Proof.
  destruct (init_costs Sample.scenario Sample.wce 0 1)
    as (s & Hrun & Hf & Hp & _ & _ & Hu); [vm_compute; reflexivity..|].
  exists s. split; [exact Hrun|]. split; [exact Hf|]. split; [exact Hp|exact Hu].
Defined.

(** ** Edges that initialization skips *)

Section Skipped.
Variable g : StaticSparseGraph.
Variable k : Kernel.

(** C10. A listed pair [(u, v)] that reaches the weight test (its rank [r]
    is not 0) with a weight that is 0, [Forbidden] or [Permanent] is
    skipped: after [initInducedCosts] both cost entries of [r] still hold
    the [Forbidden] sentinel of the constructor, the pair is not among the
    pairs [unprocessed] counts, and the entry answers like a removed one:
    [removeEdge] and the two increase operations leave the state as it is
    and the cost look-ups return the sentinel. *)
Theorem init_skips_special (u v : NodeId) :
  graph_ok g = true →
  listed g u v = true →
  ranked g (u, v) = true →
  plain (getWeight g (rank_uv g u v)) = false →
  ∃ s, initInducedCosts g k (EdgeHeap_new g) = Some s ∧
    vget (icf s) (rank_uv g u v) = Some Forbidden ∧
    vget (icp s) (rank_uv g u v) = Some Forbidden ∧
    unprocessed s =
      u64 (N.of_nat (length (filter (λ p, tracked g p = true) (pairs g)))) ∧
    ((u, v) ∉ filter (λ p, tracked g p = true) (pairs g)) ∧
    removable s (rank_uv g u v) = false ∧
    removeEdgeE g s (MkEdge u v) = Some s ∧
    (∀ w, increaseIcf g s (MkEdge u v) w = Some s) ∧
    (∀ w, increaseIcp g s (MkEdge u v) w = Some s) ∧
    getIcf g s (MkEdge u v) = Some (Forbidden, s) ∧
    getIcp g s (MkEdge u v) = Some (Forbidden, s).
Proof.
  intros Hok Hlisted Hranked Hspecial.
  pose proof (listed_pairs g u v Hlisted) as Hin.
  destruct (init_run g k Hok)
    as (s & Hrun & Hwf & Hun & _ & Hicf & Hicp & Hlen & _ & _ & He2b & _).
  destruct (graph_ok_spec g Hok) as (_ & Hpairs & _).
  specialize (Hpairs (u, v) Hin Hranked). simpl in Hpairs.
  set (r := rank_uv g u v) in *.
  assert (r ≠ 0) as Hr0.
  { unfold ranked in Hranked. apply andb_true_iff in Hranked as [_ H].
    by apply negb_true_iff, N.eqb_neq in H. }
  destruct (costs_untouched g k (N.to_nat r) (pairs g) (EdgeHeap_new g)) as [Hf Hp].
  { intros p _ Hp Heq. unfold tracked in Hp. apply andb_true_iff in Hp as [_ Hp].
    assert (rank_uv g p.1 p.2 = r) as Heq' by lia.
    rewrite Heq' in Hp. congruence. }
  assert (vget (icf s) r = Some Forbidden) as Hgf.
  { unfold vget, costs_result in *. rewrite Hicf, Hf. simpl.
    apply lookup_replicate_2. lia. }
  assert (vget (icp s) r = Some Forbidden) as Hgp.
  { unfold vget, costs_result in *. rewrite Hicp, Hp. simpl.
    apply lookup_replicate_2. lia. }
  assert (vget (edgeToBundle s) r = Some r) as Hb.
  { unfold vget. rewrite He2b, lookup_upto by lia. by rewrite N2Nat.id. }
  assert (findIndexE g (MkEdge u v) = r) as Hfi by done.
  exists s. split_and!; try done.
  - rewrite Hun. unfold costs_result. by rewrite costs_unprocessed.
  - intros [Ht _]%list_elem_of_filter. unfold tracked in Ht. simpl in Ht.
    fold r in Ht. rewrite Hspecial in Ht. by rewrite andb_false_r in Ht.
  - unfold removable. by rewrite Hgf, Hgp, andb_false_r.
  - unfold removeEdgeE. rewrite Hfi. by eapply removeEdge_dead.
  - intros w. unfold increaseIcf. rewrite Hfi.
    destruct (_ && _); [|done]. rewrite Hb. simpl. by rewrite Hgf.
  - intros w. unfold increaseIcp. rewrite Hfi.
    destruct (_ && _); [|done]. rewrite Hb. simpl. by rewrite Hgp.
  - unfold getIcf. rewrite Hfi. apply N.eqb_neq in Hr0. rewrite Hr0, Hb. simpl.
    by rewrite Hgf.
  - unfold getIcp. rewrite Hfi. apply N.eqb_neq in Hr0. rewrite Hr0, Hb. simpl.
    by rewrite Hgp.
Qed.

End Skipped.

Lemma init_skips_special_witness :
  ∃ s, initInducedCosts Sample.decided Sample.wce (EdgeHeap_new Sample.decided) = Some s ∧
       getWeight Sample.decided (rank_uv Sample.decided 1 2) = Forbidden ∧
       vget (icf s) 2 = Some Forbidden ∧ vget (icp s) 2 = Some Forbidden ∧
       unprocessed s = 1 ∧
       removeEdgeE Sample.decided s (MkEdge 1 2) = Some s.
Proof.
  destruct (init_skips_special Sample.decided Sample.wce 1 2)
    as (s & Hrun & Hf & Hp & Hu & _ & _ & Hrm & _); [vm_compute; reflexivity..|].
  exists s. split; [exact Hrun|]. split; [reflexivity|]. split; [exact Hf|].
  split; [exact Hp|]. split; [exact Hu|exact Hrm].
Defined.

(** ** [mergeEdges] *)

(** What [removeEdge] leaves alone, whenever it returns. *)
Lemma removeEdge_frame s rId s' :
  removeEdge s rId = Some s' →
  (∀ j, j ≠ rId → vget (icf s') j = vget (icf s) j ∧ vget (icp s') j = vget (icp s) j) ∧
  edges s' = edges s ∧ edgeToBundle s' = edgeToBundle s ∧
  edgeBundles s' = edgeBundles s ∧ cout s' = cout s.
Proof.
  unfold removeEdge. intros H. inv_run H; try (subst s'; done).
  subst s'. simpl.
  match goal with H : vset (icf s) _ _ = _ |- _ => rename H into Hf end.
  match goal with H : vset (icp s) _ _ = _ |- _ => rename H into Hp end.
  split; [|done]. intros j Hj. split.
  - by eapply vget_vset_ne.
  - by eapply vget_vset_ne.
Qed.

Section Merge.

Lemma moveMember_step to s x mt :
  (N.to_nat x < length (edgeToBundle s))%nat →
  vget (edgeBundles s) to = Some mt →
  moveMember to s x =
    Some (set_bundles s (<[N.to_nat x := to]> (edgeToBundle s))
                        (<[N.to_nat to := mt ++ [x]]> (edgeBundles s))).
Proof.
  intros Hx Hm. unfold moveMember. rewrite Hm. simpl.
  rewrite (vset_ok (edgeBundles s)) by (by eapply vget_lt). simpl.
  by rewrite (vset_ok (edgeToBundle s)).
Qed.

Lemma moveMembers_run n to : ∀ l s mt,
  ranks_ok n l → (N.to_nat to < n)%nat →
  length (edgeToBundle s) = n → ranks_ok n (edgeToBundle s) →
  vget (edgeBundles s) to = Some mt →
  ∃ e2b,
    foldM (moveMember to) s l =
      Some (set_bundles s e2b (<[N.to_nat to := mt ++ l]> (edgeBundles s))) ∧
    length e2b = n ∧ ranks_ok n e2b ∧
    (∀ m, m ∈ l → vget e2b m = Some to) ∧
    (∀ m, m ∉ l → vget e2b m = vget (edgeToBundle s) m).
Proof.
  induction l as [|x l IH]; intros s mt Hl Hto He Her Hm.
  { exists (edgeToBundle s). simpl. rewrite app_nil_r.
    unfold vget in Hm. rewrite list_insert_id by done.
    split; [by destruct s|]. split_and!; try done. by intros m ?%elem_of_nil. }
  apply Forall_cons in Hl as [Hx Hl].
  cbn [foldM]. rewrite (moveMember_step to s x mt) by (done || lia).
  cbn [mbind option_bind].
  destruct (IH (set_bundles s (<[N.to_nat x := to]> (edgeToBundle s))
                            (<[N.to_nat to := mt ++ [x]]> (edgeBundles s)))
               (mt ++ [x]))
    as (e2b & Hrun & Hlen & Hok & Hin & Hout); try done.
  { simpl. by rewrite length_insert. }
  { simpl. by apply Forall_insert. }
  { simpl. unfold vget. apply list_lookup_insert_eq. by eapply vget_lt. }
  simpl in *. exists e2b. rewrite Hrun.
  rewrite list_insert_insert_eq, <- app_assoc. split; [done|].
  split_and!; try done.
  - intros m [->|Hm']%elem_of_cons; [|by apply Hin].
    destruct (decide (x ∈ l)) as [?|Hnl]; [by apply Hin|].
    rewrite (Hout x Hnl). unfold vget. apply list_lookup_insert_eq. lia.
  - intros m [Hne Hnl]%not_elem_of_cons. rewrite (Hout m Hnl).
    unfold vget. apply list_lookup_insert_ne. lia.
Qed.

(** The first part of [absorb], up to the call of [removeEdge]. *)
Lemma absorb_run s to from mf mt x y a b :
  wf s → to ≠ from →
  vget (edgeBundles s) from = Some mf → vget (edgeBundles s) to = Some mt →
  vget (icf s) from = Some x → vget (icp s) from = Some y →
  vget (icf s) to = Some a → vget (icp s) to = Some b →
  ∃ e2b,
    absorb s to from = removeEdge (merged_state s to from mf mt x y a b e2b) from ∧
    wf (merged_state s to from mf mt x y a b e2b) ∧
    (∀ m, m ∈ mf → vget e2b m = Some to) ∧
    (∀ m, m ∉ mf → vget e2b m = vget (edgeToBundle s) m).
Proof.
  intros Hwf Hne Hmf Hmt Hx Hy Ha Hb.
  pose proof Hwf as [He Hp Hf Hpm Hl2 Hr2 Hl3 Hr3].
  pose proof (vget_lt _ _ _ Hx) as Hfrom. pose proof (vget_lt _ _ _ Ha) as Hto.
  assert (ranks_ok (length (icf s)) mf) as Hmfok.
  { eapply Forall_lookup_1; [exact Hr3|exact Hmf]. }
  assert (ranks_ok (length (icf s)) mt) as Hmtok.
  { eapply Forall_lookup_1; [exact Hr3|exact Hmt]. }
  destruct (moveMembers_run (length (icf s)) to mf s mt)
    as (e2b & Hrun & Hlen & Hok & Hin & Hout); try done.
  exists e2b. split; [|split; [|done]].
  - assert (∀ c : list string, c ++ [] = c) as Hnil by apply app_nil_r.
    unfold absorb. rewrite Hmf. cbn [mbind option_bind]. rewrite Hrun.
    cbn [mbind option_bind]. cbn [edgeBundles set_bundles].
    rewrite vset_ok by (rewrite length_insert; lia).
    cbn [mbind option_bind]. cbn [icf icp edgeToBundle set_bundles].
    rewrite Hx. cbn [mbind option_bind]. unfold merged_state, merge_reports.
    destruct (x <? 0)%float.
    + cbn [mbind option_bind icp print set_bundles]. rewrite Hy.
      cbn [mbind option_bind].
      destruct (y <? 0)%float.
      * f_equal. unfold print, set_bundles. simpl. by rewrite <- app_assoc.
      * cbn [icp print set_bundles]. rewrite Hb. cbn [mbind option_bind].
        rewrite vset_ok by (by eapply vget_lt). simpl. by rewrite ?Hnil.
    + cbn [icf set_bundles]. rewrite Ha. cbn [mbind option_bind].
      rewrite vset_ok by done.
      cbn [mbind option_bind icp set_icf set_bundles]. rewrite Hy.
      cbn [mbind option_bind].
      destruct (y <? 0)%float.
      * simpl. done.
      * cbn [icp set_icf set_bundles]. rewrite Hb. cbn [mbind option_bind].
        rewrite vset_ok by (by eapply vget_lt). simpl. by rewrite ?Hnil.
  - unfold merged_state. split; simpl.
    all: repeat match goal with |- context [if ?c then _ else _] => destruct c end.
    all: rewrite ?length_insert; try done.
    all: apply Forall_insert; [apply Forall_insert|]; try done.
    all: try apply Forall_app; try done; constructor.
Qed.

(** A merge that proceeds is the hand-over followed by [removeEdge]. *)
Lemma mergeEdges_run g s e1 e2 to from :
  wf s → merge_proceeds g s e1 e2 = Some (to, from) →
  ∃ mf mt x y a b e2b,
    vget (edgeBundles s) from = Some mf ∧ vget (edgeBundles s) to = Some mt ∧
    vget (icf s) from = Some x ∧ vget (icp s) from = Some y ∧
    vget (icf s) to = Some a ∧ vget (icp s) to = Some b ∧
    to ≠ from ∧
    mergeEdges g s e1 e2 = removeEdge (merged_state s to from mf mt x y a b e2b) from ∧
    wf (merged_state s to from mf mt x y a b e2b) ∧
    (∀ m, m ∈ mf → vget e2b m = Some to) ∧
    (∀ m, m ∉ mf → vget e2b m = vget (edgeToBundle s) m).
Proof.
  intros Hwf Hp. unfold merge_proceeds in Hp. unfold mergeEdges.
  destruct (N.land _ _ =? 0); [done|].
  destruct (vget (edgeToBundle s) (findIndexE g e1)) as [eb1|] eqn:E1; [|done].
  destruct (vget (edgeToBundle s) (findIndexE g e2)) as [eb2|] eqn:E2; [|done].
  cbn [mbind option_bind] in *.
  destruct (eb1 =? eb2) eqn:Ene; [done|]. apply N.eqb_neq in Ene.
  unfold merge_roles in Hp.
  destruct (vget (edgeBundles s) eb1) as [m1|] eqn:B1; [|done].
  destruct (vget (edgeBundles s) eb2) as [m2|] eqn:B2; [|done].
  cbn [mbind option_bind fmap option_fmap option_map] in *.
  pose proof (vget_lt _ _ _ B1) as L1. pose proof (vget_lt _ _ _ B2) as L2.
  pose proof Hwf as [He Hpl _ _ _ _ Hl3 _].
  destruct (vget_ok (icf s) eb1) as [x1 X1]; [lia|].
  destruct (vget_ok (icf s) eb2) as [x2 X2]; [lia|].
  destruct (vget_ok (icp s) eb1) as [y1 Y1]; [lia|].
  destruct (vget_ok (icp s) eb2) as [y2 Y2]; [lia|].
  destruct (length m2 <? length m1)%nat; injection Hp as <- <-.
  - destruct (absorb_run s eb1 eb2 m2 m1 x2 y2 x1 y1) as (e2b & ? & ? & ? & ?);
      try done.
    exists m2, m1, x2, y2, x1, y1, e2b. by split_and!.
  - destruct (absorb_run s eb2 eb1 m1 m2 x1 y1 x2 y2) as (e2b & ? & ? & ? & ?);
      try done.
    exists m1, m2, x1, y1, x2, y2, e2b. by split_and!.
Qed.

End Merge.

(** C9 (amended). A merge that proceeds on a well-formed state returns, and
    tests the absorbed bundle's entries only: when the absorbed [icf] (resp.
    [icp]) is negative it writes "Merged edge has negative icf" (resp.
    "icp") and leaves the survivor's [icf] (resp. [icp]) as it was, so the
    sentinel of a removed absorbed entry is never added to the survivor;
    otherwise it adds the absorbed value to the survivor's.  Nothing else is
    written, whatever the survivor's own entries hold. *)
Theorem merge_checks_absorbed (g : StaticSparseGraph) (s : EdgeHeap) (e1 e2 : Edge)
    (to from : RankId) (x y a b : EdgeWeight) :
  well_formed s = true →
  merge_proceeds g s e1 e2 = Some (to, from) →
  vget (icf s) from = Some x → vget (icp s) from = Some y →
  vget (icf s) to = Some a → vget (icp s) to = Some b →
  ∃ s', mergeEdges g s e1 e2 = Some s' ∧ well_formed s' = true ∧
    cout s' = cout s ++ merge_reports x y ∧
    vget (icf s') to = Some (if (x <? 0)%float then a else (a + x)%float) ∧
    vget (icp s') to = Some (if (y <? 0)%float then b else (b + y)%float).
Proof.
  intros Hwf%well_formed_wf Hp Hx Hy Ha Hb.
  destruct (mergeEdges_run g s e1 e2 to from Hwf Hp)
    as (mf & mt & x' & y' & a' & b' & e2b & _ & _ & Hx' & Hy' & Ha' & Hb' & Hne &
        Hrun & Hwfm & _).
  assert (x' = x) as -> by congruence. assert (y' = y) as -> by congruence.
  assert (a' = a) as -> by congruence. assert (b' = b) as -> by congruence.
  destruct (removeEdge_total (merged_state s to from mf mt x y a b e2b) from Hwfm)
    as (s' & Hrm & Hwf').
  { simpl. destruct (x <? 0)%float; rewrite ?length_insert;
      exact (vget_lt _ _ _ Hx). }
  destruct (removeEdge_frame _ _ _ Hrm) as (Hicf & _ & _ & _ & Hcout).
  destruct (Hicf to Hne) as [Hf Hp'].
  exists s'. rewrite Hrun. split; [done|]. split; [by apply well_formed_wf|].
  split; [done|]. rewrite Hf, Hp'. simpl. split.
  - destruct (x <? 0)%float; [done|]. unfold vget.
    apply list_lookup_insert_eq. exact (vget_lt _ _ _ Ha).
  - destruct (y <? 0)%float; [done|]. unfold vget.
    apply list_lookup_insert_eq. exact (vget_lt _ _ _ Hb).
Qed.

Lemma merge_checks_absorbed_witness :
  ∃ s', mergeEdges Sample.star Sample.star_less2 (MkEdge 0 2) (MkEdge 0 3) = Some s' ∧
        cout s' = ["Merged edge has negative icf"; "Merged edge has negative icp"] ∧
        vget (icf Sample.star_less2) 3 = Some 3%float ∧
        vget (icf s') 3 = Some 3%float.
Proof.
  destruct (merge_checks_absorbed Sample.star Sample.star_less2 (MkEdge 0 2) (MkEdge 0 3)
              3 2 Forbidden Forbidden 3%float 0%float)
    as (s' & Hrun & _ & Hc & Hf & _); [vm_compute; reflexivity..|].
  exists s'. split; [exact Hrun|]. split; [exact Hc|]. split; [reflexivity|exact Hf].
Defined.

(** C9 as stated fails: a merge whose survivor is already removed proceeds
    without any report.  Here the removed edge (0,3) absorbs the live edge
    (0,1). *)
Lemma merge_survivor_unchecked :
  ¬ (∀ (s s' : EdgeHeap) (e1 e2 : Edge) (to from : RankId),
       well_formed s = true →
       merge_proceeds Sample.star s e1 e2 = Some (to, from) →
       vget (icf s) to = Some Forbidden ∨ vget (icf s) from = Some Forbidden →
       mergeEdges Sample.star s e1 e2 = Some s' →
       cout s' ≠ cout s).
Proof.
  intros H.
  apply (H Sample.star_less3 Sample.star_less3_merged (MkEdge 0 1) (MkEdge 0 3) 3 1);
    try (vm_compute; reflexivity).
  left. vm_compute. reflexivity.
Qed.

(** ** Defects of [mergeEdges] and [removeEdge] *)

Lemma star0_reached :
  initInducedCosts Sample.star Sample.wce (EdgeHeap_new Sample.star) = Some Sample.star0.
Proof. vm_compute. reflexivity. Qed.

(** C1 (defect). The guard of line 195 tests [r1 & r2] bit by bit: the edges
    (0,1) and (0,2) of the star have the non-zero ranks 1 and 2, which share
    no bit, and their bundles are distinct and live, yet [mergeEdges]
    returns without merging anything. *)
Theorem mergeEdges_bitwise_guard :
  findIndexE Sample.star (MkEdge 0 1) = 1 ∧
  findIndexE Sample.star (MkEdge 0 2) = 2 ∧
  vget (edgeToBundle Sample.star0) 1 = Some 1 ∧
  vget (edgeToBundle Sample.star0) 2 = Some 2 ∧
  vget (icf Sample.star0) 1 = Some 5%float ∧ vget (icp Sample.star0) 1 = Some 0%float ∧
  vget (icf Sample.star0) 2 = Some 4%float ∧ vget (icp Sample.star0) 2 = Some 0%float ∧
  mergeEdges Sample.star Sample.star0 (MkEdge 0 1) (MkEdge 0 2) = Some Sample.star0.
Proof. vm_compute. by repeat split. Qed.

(** C2 (defect). [mergeEdges] adds the absorbed cost to the survivor without
    re-heapifying the survivor: on the star, whose forbid heap is ordered
    after initialization, merging the edges (0,2) and (0,3) leaves the
    survivor's value 7 below the top's value 5, so the heap order is broken
    and the max-query still answers the edge (0,1).  The reverse index
    stays consistent. *)
Theorem mergeEdges_breaks_heap_order :
  heap_ordered (icf Sample.star0) (forb_rank2edge Sample.star0) = true ∧
  mergeEdges Sample.star Sample.star0 (MkEdge 0 2) (MkEdge 0 3) = Some Sample.star_merged ∧
  heap_ordered (icf Sample.star_merged) (forb_rank2edge Sample.star_merged) = false ∧
  slot_value (icf Sample.star_merged) (forb_rank2edge Sample.star_merged) 0 = Some 5%float ∧
  slot_value (icf Sample.star_merged) (forb_rank2edge Sample.star_merged) 2 = Some 7%float ∧
  getMaxIcfEdge Sample.star_merged = Some (MkEdge 0 1) ∧
  index_consistent (forb_rank2edge Sample.star_merged)
                   (edge2forb_rank Sample.star_merged) = true.
Proof. vm_compute. by repeat split. Qed.

(** C5 (defect). [removeEdge(Edge)] acts on the rank's own table entry, not
    on the bundle that owns the rank: once the edge (0,2) has been merged
    into the bundle 3, removing it changes nothing, although the bundle is
    live. *)
Theorem removeEdge_ignores_bundle :
  findIndexE Sample.star (MkEdge 0 2) = 2 ∧
  vget (edgeToBundle Sample.star_merged) 2 = Some 3 ∧
  vget (icf Sample.star_merged) 3 = Some 7%float ∧
  vget (icp Sample.star_merged) 3 = Some 0%float ∧
  removeEdgeE Sample.star Sample.star_merged (MkEdge 0 2) = Some Sample.star_merged.
Proof. vm_compute. by repeat split. Qed.

(** ** The max-queries *)

(** C3 (amended). On a well-formed, non-empty state both max-queries return:
    they answer [InvalidEdge] when the heap holds at most the placeholder
    (size [<= 1]) and when the value at the heap top is negative ([< 0]);
    otherwise, a top value of exactly 0 included, they answer the edge
    stored for the rank at heap slot 0. *)
Theorem getMax_negative_top (s : EdgeHeap) :
  well_formed s = true →
  0 < vsize (icf s) →
  ∃ fi pi xf xp ef ep,
    vget (forb_rank2edge s) 0 = Some fi ∧ vget (icf s) fi = Some xf ∧
    vget (edges s) fi = Some ef ∧
    vget (perm_rank2edge s) 0 = Some pi ∧ vget (icp s) pi = Some xp ∧
    vget (edges s) pi = Some ep ∧
    getMaxIcfEdge s =
      Some (if (vsize (forb_rank2edge s) <=? 1) || (xf <? 0)%float
            then InvalidEdge else ef) ∧
    getMaxIcpEdge s =
      Some (if (vsize (perm_rank2edge s) <=? 1) || (xp <? 0)%float
            then InvalidEdge else ep).
Proof.
  intros [He Hp [_ Hfl _ Hfr _] [_ Hpl _ Hpr _] _ _ _ _]%well_formed_wf Hn.
  unfold vsize in Hn.
  destruct (vget_Forall _ (forb_rank2edge s) 0 Hfr) as (fi & Hfi & Hfin); [lia|].
  destruct (vget_Forall _ (perm_rank2edge s) 0 Hpr) as (pi & Hpi & Hpin); [lia|].
  destruct (vget_ok (icf s) fi) as [xf Hxf]; [lia|].
  destruct (vget_ok (icp s) pi) as [xp Hxp]; [lia|].
  destruct (vget_ok (edges s) fi) as [ef Hef]; [lia|].
  destruct (vget_ok (edges s) pi) as [ep Hep]; [lia|].
  exists fi, pi, xf, xp, ef, ep. split_and!; try done.
  - unfold getMaxIcfEdge. rewrite Hfi. simpl.
    destruct (vsize (forb_rank2edge s) <=? 1); [done|]. rewrite Hxf. simpl.
    by destruct (xf <? 0)%float.
  - unfold getMaxIcpEdge. rewrite Hpi. simpl.
    destruct (vsize (perm_rank2edge s) <=? 1); [done|]. rewrite Hxp. simpl.
    by destruct (xp <? 0)%float.
Qed.

Lemma getMax_negative_top_witness :
  getMaxIcfEdge Sample.absent0 = Some (MkEdge 0 1) ∧
  getMaxIcpEdge Sample.absent0 = Some (MkEdge 0 1) ∧
  getMaxIcfEdge Sample.decided0 = Some (MkEdge 0 1) ∧
  getMaxIcfEdge Sample.star_less3_merged = Some (MkEdge 0 2).
Proof.
  split; [|split; [|split]].
  - destruct (getMax_negative_top Sample.absent0)
      as (fi & pi & xf & xp & ef & ep & Hfi & Hxf & Hef & _ & _ & _ & Hf & _);
      [vm_compute; reflexivity..|].
    vm_compute in Hfi. injection Hfi as <-.
    vm_compute in Hxf. injection Hxf as <-.
    vm_compute in Hef. injection Hef as <-. exact Hf.
  - destruct (getMax_negative_top Sample.absent0)
      as (fi & pi & xf & xp & ef & ep & _ & _ & _ & Hpi & Hxp & Hep & _ & Hp);
      [vm_compute; reflexivity..|].
    vm_compute in Hpi. injection Hpi as <-.
    vm_compute in Hxp. injection Hxp as <-.
    vm_compute in Hep. injection Hep as <-. exact Hp.
  - destruct (getMax_negative_top Sample.decided0)
      as (fi & pi & xf & xp & ef & ep & Hfi & Hxf & Hef & _ & _ & _ & Hf & _);
      [vm_compute; reflexivity..|].
    vm_compute in Hfi. injection Hfi as <-.
    vm_compute in Hxf. injection Hxf as <-.
    vm_compute in Hef. injection Hef as <-. exact Hf.
  - destruct (getMax_negative_top Sample.star_less3_merged)
      as (fi & pi & xf & xp & ef & ep & Hfi & Hxf & Hef & _ & _ & _ & Hf & _);
      [vm_compute; reflexivity..|].
    vm_compute in Hfi. injection Hfi as <-.
    vm_compute in Hxf. injection Hxf as <-.
    vm_compute in Hef. injection Hef as <-. exact Hf.
Defined.

(** C3 as stated fails at a top value of exactly 0: the one edge of the
    graph [absent] has [icf = 0], and the query answers that edge. *)
Lemma getMax_zero_top :
  ¬ (∀ (s : EdgeHeap) (ei : RankId) (x : EdgeWeight),
       well_formed s = true →
       vget (forb_rank2edge s) 0 = Some ei →
       vget (icf s) ei = Some x →
       (x <=? 0)%float = true →
       getMaxIcfEdge s = Some InvalidEdge).
Proof.
  intros H.
  assert (getMaxIcfEdge Sample.absent0 = Some InvalidEdge) as Habs
    by (apply (H Sample.absent0 1 0%float); vm_compute; reflexivity).
  vm_compute in Habs. discriminate Habs.
Qed.

(** ** Every reachable state is well formed and keeps rank 0 in reserve *)

Section Invariant.
Variable g : StaticSparseGraph.

Lemma increaseIcf_cases s e w s' :
  wf s → increaseIcf g s e w = Some s' →
  s' = s ∨
  ∃ eb x heap index,
    0 < findIndexE g e ∧ vget (edgeToBundle s) (findIndexE g e) = Some eb ∧
    vget (icf s) eb = Some x ∧
    s' = set_forb (set_icf s (<[N.to_nat eb := fmax (x + w) 0]> (icf s))) heap index ∧
    heap_wf (length (icf s)) heap index ∧ heap ≡ₚ forb_rank2edge s.
Proof.
  intros Hwf Hrun. pose proof Hrun as Hrun'. unfold increaseIcf in Hrun.
  destruct (0 <? findIndexE g e) eqn:Hr; simpl in Hrun; [|left; congruence].
  destruct (fneq w 0) eqn:Hw; simpl in Hrun; [|left; congruence].
  destruct (vget (edgeToBundle s) (findIndexE g e)) as [eb|] eqn:Heb; [|done].
  simpl in Hrun. destruct (vget (icf s) eb) as [x|] eqn:Hx; [|done].
  simpl in Hrun. destruct (0 <=? x)%float eqn:Hlive; [|left; congruence].
  apply N.ltb_lt in Hr.
  destruct (increaseIcf_live g s e w eb x) as (heap & index & Hrun2 & Hh & Hperm);
    try done.
  right. exists eb, x, heap, index. split_and!; try done. congruence.
Qed.

Lemma increaseIcp_cases s e w s' :
  wf s → increaseIcp g s e w = Some s' →
  s' = s ∨
  ∃ eb y heap index,
    0 < findIndexE g e ∧ vget (edgeToBundle s) (findIndexE g e) = Some eb ∧
    vget (icp s) eb = Some y ∧
    s' = set_perm (set_icp s (<[N.to_nat eb := fmax (y + w) 0]> (icp s))) heap index ∧
    heap_wf (length (icf s)) heap index ∧ heap ≡ₚ perm_rank2edge s.
Proof.
  intros Hwf Hrun. pose proof Hrun as Hrun'. unfold increaseIcp in Hrun.
  destruct (0 <? findIndexE g e) eqn:Hr; simpl in Hrun; [|left; congruence].
  destruct (fneq w 0) eqn:Hw; simpl in Hrun; [|left; congruence].
  destruct (vget (edgeToBundle s) (findIndexE g e)) as [eb|] eqn:Heb; [|done].
  simpl in Hrun. destruct (vget (icp s) eb) as [y|] eqn:Hy; [|done].
  simpl in Hrun. destruct (0 <=? y)%float eqn:Hlive; [|left; congruence].
  apply N.ltb_lt in Hr.
  destruct (increaseIcp_live g s e w eb y) as (heap & index & Hrun2 & Hh & Hperm);
    try done.
  right. exists eb, y, heap, index. split_and!; try done. congruence.
Qed.

Lemma removeEdge_cases s rId s' :
  wf s → removeEdge s rId = Some s' →
  s' = s ∨
  (rId ≠ 0 ∧ wf s' ∧
   icf s' = <[N.to_nat rId := Forbidden]> (icf s) ∧
   icp s' = <[N.to_nat rId := Forbidden]> (icp s) ∧
   edgeToBundle s' = edgeToBundle s ∧ edgeBundles s' = edgeBundles s ∧
   forb_rank2edge s' ≡ₚ forb_rank2edge s ∧ perm_rank2edge s' ≡ₚ perm_rank2edge s).
Proof.
  intros Hwf Hrun. pose proof Hrun as Hrun'. unfold removeEdge in Hrun.
  destruct (rId =? 0) eqn:H0; [left; congruence|]. apply N.eqb_neq in H0.
  destruct (0 <? rId); simpl in Hrun; [|left; congruence].
  destruct (vget (icf s) rId) as [x|] eqn:Hx; [|done]. simpl in Hrun.
  destruct (fneq x Forbidden) eqn:Hfx; simpl in Hrun; [|left; congruence].
  destruct (vget (icp s) rId) as [y|] eqn:Hy; [|done]. simpl in Hrun.
  destruct (fneq y Forbidden) eqn:Hfy; simpl in Hrun; [|left; congruence].
  destruct (removeEdge_live s rId x y)
    as (s2 & Hrun2 & Hwf2 & Hf & Hp & _ & _ & He & Hb & _ & Hfp & Hpp); try done.
  right. assert (s' = s2) as -> by congruence. by split_and!.
Qed.

Lemma merge_cases s e1 e2 s' :
  mergeEdges g s e1 e2 = Some s' →
  s' = s ∨ ∃ to from, merge_proceeds g s e1 e2 = Some (to, from).
Proof.
  unfold mergeEdges, merge_proceeds, merge_roles. intros Hrun.
  destruct (N.land _ _ =? 0); [left; congruence|].
  destruct (vget (edgeToBundle s) (findIndexE g e1)) as [eb1|]; [|done].
  destruct (vget (edgeToBundle s) (findIndexE g e2)) as [eb2|]; [|done].
  simpl in *. destruct (eb1 =? eb2); [left; congruence|].
  destruct (vget (edgeBundles s) eb1) as [m1|]; [|done].
  destruct (vget (edgeBundles s) eb2) as [m2|]; [|done].
  simpl. right. destruct (length m2 <? length m1)%nat; eauto.
Qed.

(** Both roles of a merge are the bundles of edges of non-zero rank. *)
Lemma merge_proceeds_ranks s e1 e2 to from :
  merge_proceeds g s e1 e2 = Some (to, from) →
  ∃ r r', r ≠ 0 ∧ r' ≠ 0 ∧
    vget (edgeToBundle s) r = Some to ∧ vget (edgeToBundle s) r' = Some from.
Proof.
  unfold merge_proceeds, merge_roles. intros Hp.
  destruct (N.land _ _ =? 0) eqn:Hland; [done|]. apply N.eqb_neq in Hland.
  assert (findIndexE g e1 ≠ 0 ∧ findIndexE g e2 ≠ 0) as [H1 H2].
  { split; intros H0; rewrite H0 in Hland; apply Hland;
      [apply N.land_0_l|apply N.land_0_r]. }
  destruct (vget (edgeToBundle s) (findIndexE g e1)) as [eb1|] eqn:E1; [|done].
  destruct (vget (edgeToBundle s) (findIndexE g e2)) as [eb2|] eqn:E2; [|done].
  simpl in Hp. destruct (eb1 =? eb2); [done|].
  destruct (vget (edgeBundles s) eb1) as [m1|]; [|done].
  destruct (vget (edgeBundles s) eb2) as [m2|]; [|done].
  simpl in Hp. destruct (length m2 <? length m1)%nat; injection Hp as <- <-; eauto 10.
Qed.

Lemma reserved_removeEdge s rId s' :
  wf s → rank0_reserved s → removeEdge s rId = Some s' →
  wf s' ∧ rank0_reserved s' ∧
  forb_rank2edge s' ≡ₚ forb_rank2edge s ∧ perm_rank2edge s' ≡ₚ perm_rank2edge s.
Proof.
  intros Hwf [H1 H2 H3 H4 H5 H6 H7 H8] Hrun.
  destruct (removeEdge_cases s rId s' Hwf Hrun)
    as [->|(H0 & Hwf' & Hf & Hp & He & Hb & Hfp & Hpp)]; [done|].
  split; [done|]. split; [|done].
  split; rewrite ?Hf, ?Hp, ?He, ?Hb, ?Hfp, ?Hpp; try done.
  - unfold vget in *. rewrite list_lookup_insert_ne by lia. done.
  - unfold vget in *. rewrite list_lookup_insert_ne by lia. done.
Qed.

Lemma reserved_step s s' :
  wf s → rank0_reserved s → step g s s' →
  wf s' ∧ rank0_reserved s' ∧
  forb_rank2edge s' ≡ₚ forb_rank2edge s ∧ perm_rank2edge s' ≡ₚ perm_rank2edge s.
Proof.
  intros Hwf Hres Hstep. pose proof Hres as [H1 H2 H3 H4 H5 H6 H7 H8].
  destruct Hstep as [e w s' Hrun|e w s' Hrun|e1 e2 s' Hrun|e s' Hrun].
  - destruct (increaseIcf_cases s e w s' Hwf Hrun)
      as [->|(eb & x & heap & index & Hr & Heb & Hx & -> & Hh & Hperm)]; [done|].
    assert (eb ≠ 0) as Hne.
    { intros ->. apply (H5 (findIndexE g e)); [lia|done]. }
    split; [|split; [|done]].
    + destruct Hwf. split; simpl; rewrite ?length_insert; done.
    + split; simpl; try done.
      * unfold vget in *. rewrite list_lookup_insert_ne by lia. done.
      * by rewrite Hperm.
  - destruct (increaseIcp_cases s e w s' Hwf Hrun)
      as [->|(eb & y & heap & index & Hr & Heb & Hy & -> & Hh & Hperm)]; [done|].
    assert (eb ≠ 0) as Hne.
    { intros ->. apply (H5 (findIndexE g e)); [lia|done]. }
    split; [|split; [|done]].
    + destruct Hwf. split; simpl; rewrite ?length_insert; done.
    + split; simpl; try done.
      * unfold vget in *. rewrite list_lookup_insert_ne by lia. done.
      * by rewrite Hperm.
  - destruct (merge_cases s e1 e2 s' Hrun) as [->|(to & from & Hp)]; [done|].
    destruct (merge_proceeds_ranks s e1 e2 to from Hp)
      as (r & r' & Hr & Hr' & Hto & Hfrom).
    assert (to ≠ 0) as Hto0 by (intros ->; by apply (H5 r)).
    assert (from ≠ 0) as Hfrom0 by (intros ->; by apply (H5 r')).
    destruct (mergeEdges_run g s e1 e2 to from Hwf Hp)
      as (mf & mt & x & y & a & b & e2b & Hmf & Hmt & Hx & Hy & Ha & Hb & Hne &
          Hrun2 & Hwfm & Hin & Hout).
    rewrite Hrun2 in Hrun.
    apply (reserved_removeEdge _ from s' Hwfm); [|done].
    assert (0 ∉ mf) as Hnmf by (by apply (H6 from)).
    assert (0 ∉ mt) as Hnmt by (by apply (H6 to)).
    split; simpl; try done.
    + destruct (x <? 0)%float; [done|].
      unfold vget in *. rewrite list_lookup_insert_ne by lia. done.
    + destruct (y <? 0)%float; [done|].
      unfold vget in *. rewrite list_lookup_insert_ne by lia. done.
    + by rewrite (Hout 0 Hnmf).
    + unfold vget in *. rewrite !list_lookup_insert_ne by lia. done.
    + intros q Hq. destruct (decide (q ∈ mf)) as [Hqm|Hqm].
      * rewrite (Hin q Hqm). congruence.
      * rewrite (Hout q Hqm). by apply H5.
    + intros c m Hc. unfold vget.
      destruct (decide (c = from)) as [->|Hcf].
      { rewrite list_lookup_insert_eq.
        - intros [= <-]. apply not_elem_of_nil.
        - rewrite length_insert. by eapply vget_lt. }
      rewrite list_lookup_insert_ne by lia.
      destruct (decide (c = to)) as [->|Hct].
      { rewrite list_lookup_insert_eq by (by eapply vget_lt).
        intros [= <-]. by apply not_elem_of_app. }
      rewrite list_lookup_insert_ne by lia. by apply H6.
  - by eapply reserved_removeEdge.
Qed.

End Invariant.

Section Reserved.
Variable g : StaticSparseGraph.
Variable k : Kernel.

Lemma reserved_init s :
  graph_ok g = true → initInducedCosts g k (EdgeHeap_new g) = Some s →
  wf s ∧ rank0_reserved s.
Proof.
  intros Hok Hrun.
  destruct (init_run g k Hok)
    as (s0 & Hrun0 & Hwf & _ & _ & Hicf & Hicp & Hlen & Hfp & Hpp & He2b & Hbs & _).
  assert (s0 = s) as -> by congruence. split; [done|].
  destruct (costs_untouched g k 0 (pairs g) (EdgeHeap_new g)) as [Hf Hp].
  { intros p _ Ht. unfold tracked, ranked in Ht.
    apply andb_true_iff in Ht as [[_ Ht]%andb_true_iff _].
    apply negb_true_iff, N.eqb_neq in Ht. lia. }
  assert (0 < 1 + numEdges g) as Hpos by lia.
  split.
  - unfold vget, costs_result in *. change (N.to_nat 0) with 0%nat.
    rewrite Hicf, Hf. simpl. apply lookup_replicate_2. lia.
  - unfold vget, costs_result in *. change (N.to_nat 0) with 0%nat.
    rewrite Hicp, Hp. simpl. apply lookup_replicate_2. lia.
  - unfold vget. rewrite He2b. apply lookup_upto. lia.
  - unfold vget. rewrite Hbs, list_lookup_fmap, lookup_upto by lia. done.
  - intros r Hr. unfold vget. rewrite He2b.
    destruct (decide (N.to_nat r < N.to_nat (1 + numEdges g))%nat).
    + rewrite lookup_upto by done. intros [= H]. lia.
    + rewrite lookup_ge_None_2; [done|]. rewrite length_upto. lia.
  - intros b m Hb. unfold vget. rewrite Hbs, list_lookup_fmap.
    destruct (decide (N.to_nat b < N.to_nat (1 + numEdges g))%nat).
    + rewrite lookup_upto by done. intros [= <-].
      apply not_elem_of_cons. split; [lia|apply not_elem_of_nil].
    + rewrite lookup_ge_None_2; [done|]. rewrite length_upto. lia.
  - rewrite Hfp. by apply elem_of_upto.
  - rewrite Hpp. by apply elem_of_upto.
Qed.

(** Every reachable state is well formed, keeps rank 0 in reserve, and holds
    every rank from 0 to [numEdges] once in each heap array. *)
Lemma reachable_invariant s :
  graph_ok g = true → reachable g k s →
  wf s ∧ rank0_reserved s ∧
  forb_rank2edge s ≡ₚ upto (1 + numEdges g) ∧
  perm_rank2edge s ≡ₚ upto (1 + numEdges g).
Proof.
  intros Hok Hreach.
  induction Hreach as [s Hrun|s s' _ (Hwf & Hres & Hfp & Hpp) Hstep].
  - destruct (reserved_init s Hok Hrun) as [Hwf Hres].
    destruct (init_run g k Hok) as (s0 & Hrun0 & _ & _ & _ & _ & _ & _ & Hfp & Hpp & _).
    assert (s0 = s) as -> by congruence. done.
  - destruct (reserved_step g s s' Hwf Hres Hstep) as (? & ? & Hf' & Hp').
    split_and!; try done; [by rewrite Hf'|by rewrite Hp'].
Qed.

(** C4 (amended). On a graph whose ranks stay within [numEdges],
    [initInducedCosts] returns, and in every state reachable from it through
    the mutators rank 0 is never given a cost value ([icf[0]] and [icp[0]]
    hold the [Forbidden] sentinel) and is bundled with no other rank.  Rank 0
    is, however, its own one-element bundle ([edgeToBundle[0] = 0],
    [edgeBundles[0] = [0]]) and keeps one slot in each heap, as the
    placeholder the max-queries expect.  Every reachable state is well
    formed. *)
Theorem rank0_placeholder :
  graph_ok g = true →
  (∃ s0, initInducedCosts g k (EdgeHeap_new g) = Some s0) ∧
  ∀ s, reachable g k s → well_formed s = true ∧ rank0_reserved s.
Proof.
  intros Hok. split.
  - destruct (init_run g k Hok) as (s0 & Hrun & _). eauto.
  - intros s Hreach. rewrite well_formed_wf.
    destruct (reachable_invariant s Hok Hreach) as (? & ? & _). done.
Qed.

(** The part of C2 that holds at all times: in every reachable state each
    heap array holds every rank from 0 to [numEdges] exactly once, and each
    reverse index is the inverse of its array
    ([position_index[heap_array[i]] == i] for every slot [i]). *)
Theorem reverse_index_inverse :
  graph_ok g = true →
  ∀ s, reachable g k s →
    index_consistent (forb_rank2edge s) (edge2forb_rank s) = true ∧
    index_consistent (perm_rank2edge s) (edge2perm_rank s) = true ∧
    forb_rank2edge s ≡ₚ upto (1 + numEdges g) ∧
    perm_rank2edge s ≡ₚ upto (1 + numEdges g).
Proof.
  intros Hok s Hreach.
  destruct (reachable_invariant s Hok Hreach) as ([_ _ Hf Hp _ _ _ _] & _ & ? & ?).
  rewrite !index_consistent_spec. split_and!; try done; [apply Hf|apply Hp].
Qed.

End Reserved.

Lemma rank0_placeholder_witness :
  vget (icf Sample.star_merged) 0 = Some Forbidden ∧
  vget (edgeToBundle Sample.star_merged) 0 = Some 0 ∧
  vget (edgeBundles Sample.star_merged) 0 = Some [0] ∧
  0 ∈ forb_rank2edge Sample.star_merged.
Proof.
  destruct (rank0_placeholder Sample.star Sample.wce) as [_ H];
    [vm_compute; reflexivity|].
  destruct (H Sample.star_merged) as [_ [H1 _ H3 H4 _ _ H7 _]].
  { apply reach_step with Sample.star0.
    - apply reach_init. vm_compute. reflexivity.
    - apply step_mergeEdges with (MkEdge 0 2) (MkEdge 0 3). vm_compute. reflexivity. }
  split; [exact H1|]. split; [exact H3|]. split; [exact H4|exact H7].
Defined.

(** C4 as stated fails: after [initInducedCosts] rank 0 is in both heap
    arrays and in a bundle's member list. *)
Lemma rank0_in_heaps_and_bundles :
  ¬ (∀ (g : StaticSparseGraph) (k : Kernel) (s : EdgeHeap),
       initInducedCosts g k (EdgeHeap_new g) = Some s →
       (0 ∉ forb_rank2edge s) ∧ (0 ∉ perm_rank2edge s) ∧
       Forall (λ members, 0 ∉ members) (edgeBundles s)).
Proof.
  intros H. destruct (H Sample.star Sample.wce Sample.star0) as (Hf & _ & _).
  { vm_compute. reflexivity. }
  apply Hf. vm_compute. do 3 right. left.
Qed.

(** ** What the two defective paths do when the defect is not met *)

(** A merge that proceeds between two live bundles does what C1 describes:
    the members of the smaller bundle (on a tie, the first edge's) move to
    the other one, whose [icf] and [icp] become the sums of the two bundles'
    values; nothing is reported. *)
Theorem merge_sums_live (g : StaticSparseGraph) (s : EdgeHeap) (e1 e2 : Edge)
    (to from : RankId) (mf mt : list RankId) (x y a b : EdgeWeight) :
  well_formed s = true →
  merge_proceeds g s e1 e2 = Some (to, from) →
  vget (edgeBundles s) from = Some mf → vget (edgeBundles s) to = Some mt →
  vget (icf s) from = Some x → vget (icp s) from = Some y →
  vget (icf s) to = Some a → vget (icp s) to = Some b →
  (x <? 0)%float = false → (y <? 0)%float = false →
  ∃ s', mergeEdges g s e1 e2 = Some s' ∧ well_formed s' = true ∧
    (length mf ≤ length mt)%nat ∧
    vget (edgeBundles s') to = Some (mt ++ mf) ∧
    vget (edgeBundles s') from = Some [] ∧
    (∀ m, m ∈ mf → vget (edgeToBundle s') m = Some to) ∧
    (∀ m, m ∉ mf → vget (edgeToBundle s') m = vget (edgeToBundle s) m) ∧
    vget (icf s') to = Some (a + x)%float ∧
    vget (icp s') to = Some (b + y)%float ∧
    cout s' = cout s.
Proof.
  intros Hwf%well_formed_wf Hp Hmf Hmt Hx Hy Ha Hb Hxl Hyl.
  destruct (mergeEdges_run g s e1 e2 to from Hwf Hp)
    as (mf' & mt' & x' & y' & a' & b' & e2b & Hmf' & Hmt' & Hx' & Hy' & Ha' & Hb' &
        Hne & Hrun & Hwfm & Hin & Hout).
  assert (mf' = mf) as -> by congruence. assert (mt' = mt) as -> by congruence.
  assert (x' = x) as -> by congruence. assert (y' = y) as -> by congruence.
  assert (a' = a) as -> by congruence. assert (b' = b) as -> by congruence.
  destruct (removeEdge_total (merged_state s to from mf mt x y a b e2b) from Hwfm)
    as (s' & Hrm & Hwf').
  { simpl. rewrite Hxl, length_insert. exact (vget_lt _ _ _ Hx). }
  destruct (removeEdge_frame _ _ _ Hrm) as (Hicf & _ & He2b & Hbs & Hcout).
  destruct (Hicf to Hne) as [Hf Hp'].
  exists s'. rewrite Hrun. split; [done|]. split; [by apply well_formed_wf|].
  rewrite Hbs, He2b, Hf, Hp', Hcout. simpl. rewrite Hxl, Hyl.
  pose proof (vget_lt _ _ _ Hmf) as Lf. pose proof (vget_lt _ _ _ Hmt) as Lt.
  split_and!; try done.
  - unfold merge_proceeds, merge_roles in Hp.
    destruct (N.land _ _ =? 0); [done|].
    destruct (vget (edgeToBundle s) (findIndexE g e1)) as [eb1|]; [|done].
    destruct (vget (edgeToBundle s) (findIndexE g e2)) as [eb2|]; [|done].
    simpl in Hp. destruct (eb1 =? eb2); [done|].
    destruct (vget (edgeBundles s) eb1) as [m1|] eqn:B1; [|done].
    destruct (vget (edgeBundles s) eb2) as [m2|] eqn:B2; [|done].
    simpl in Hp. destruct (length m2 <? length m1)%nat eqn:Hlt;
      injection Hp as <- <-.
    + apply Nat.ltb_lt in Hlt. assert (m2 = mf) as -> by congruence.
      assert (m1 = mt) as -> by congruence. lia.
    + apply Nat.ltb_ge in Hlt. assert (m1 = mf) as -> by congruence.
      assert (m2 = mt) as -> by congruence. lia.
  - unfold vget. rewrite list_lookup_insert_ne by lia.
    by apply list_lookup_insert_eq.
  - unfold vget. apply list_lookup_insert_eq. by rewrite length_insert.
  - unfold vget. apply list_lookup_insert_eq. exact (vget_lt _ _ _ Ha).
  - unfold vget. apply list_lookup_insert_eq. exact (vget_lt _ _ _ Hb).
  - unfold merge_reports. rewrite Hxl, Hyl. apply app_nil_r.
Qed.

Lemma merge_sums_live_witness :
  ∃ s', mergeEdges Sample.star Sample.star0 (MkEdge 0 2) (MkEdge 0 3) = Some s' ∧
        vget (edgeBundles s') 3 = Some [3; 2] ∧
        vget (edgeToBundle s') 2 = Some 3 ∧
        vget (icf s') 3 = Some 7%float.
Proof.
  destruct (merge_sums_live Sample.star Sample.star0 (MkEdge 0 2) (MkEdge 0 3)
              3 2 [2] [3] 4%float 0%float 3%float 0%float)
    as (s' & Hrun & _ & _ & Hb & _ & He & _ & Hf & _); [vm_compute; reflexivity..|].
  exists s'. split; [exact Hrun|]. split; [exact Hb|]. split; [|exact Hf].
  apply He. left.
Defined.

(** Two edges that already share a bundle: the call changes nothing. *)
Theorem merge_same_bundle (g : StaticSparseGraph) (s : EdgeHeap) (e1 e2 : Edge)
    (eb : RankId) :
  vget (edgeToBundle s) (findIndexE g e1) = Some eb →
  vget (edgeToBundle s) (findIndexE g e2) = Some eb →
  mergeEdges g s e1 e2 = Some s.
Proof.
  intros H1 H2. unfold mergeEdges. destruct (N.land _ _ =? 0); [done|].
  rewrite H1, H2. simpl. by rewrite N.eqb_refl.
Qed.

Lemma merge_same_bundle_witness :
  mergeEdges Sample.star Sample.star_merged (MkEdge 0 2) (MkEdge 0 3)
  = Some Sample.star_merged.
Proof.
  apply (merge_same_bundle Sample.star Sample.star_merged _ _ 3);
    vm_compute; reflexivity.
Defined.



Lemma reverse_index_inverse_witness :
  index_consistent (forb_rank2edge Sample.star_less3_merged)
                   (edge2forb_rank Sample.star_less3_merged) = true ∧
  forb_rank2edge Sample.star_less3_merged ≡ₚ [0; 1; 2; 3].
Proof.
  destruct (reverse_index_inverse Sample.star Sample.wce) with (s := Sample.star_less3_merged)
    as (H1 & _ & H2 & _); [vm_compute; reflexivity| |].
  - apply reach_step with Sample.star_less3.
    + apply reach_step with Sample.star0.
      * apply reach_init. vm_compute. reflexivity.
      * apply step_removeEdge with (MkEdge 0 3). vm_compute. reflexivity.
    + apply step_mergeEdges with (MkEdge 0 1) (MkEdge 0 3). vm_compute. reflexivity.
  - split; [exact H1|exact H2].
Defined.

(** ** The max-heap order *)









Lemma SFleb_trans x y z : SFleb x y = true → SFleb y z = true → SFleb x z = true.
Proof.
  unfold SFleb, SFcompare.
  destruct x as [[]|[]| |[] mx ex], y as [[]|[]| |[] my ey], z as [[]|[]| |[] mz ez];
    try done.
  - rewrite !Pos.compare_cont_spec. simpl.
    destruct (Z.compare_spec ex ey), (Z.compare_spec ey ez), (Z.compare_spec ex ez);
      try done; try lia; subst.
    all: destruct (Pos.compare_spec mx my), (Pos.compare_spec my mz), (Pos.compare_spec mx mz);
      simpl; try done; try lia.
  - rewrite !Pos.compare_cont_spec. simpl.
    destruct (Z.compare_spec ex ey), (Z.compare_spec ey ez), (Z.compare_spec ex ez);
      try done; try lia; subst.
    all: destruct (Pos.compare_spec mx my), (Pos.compare_spec my mz), (Pos.compare_spec mx mz);
      simpl; try done; try lia.
Qed.

Lemma fle_trans a b c : fle a b → fle b c → fle a c.
Proof. unfold fle. rewrite !FloatAxioms.leb_spec. apply SFleb_trans. Qed.

Lemma fle_refl a : is_nan a = false → fle a a.
Proof.
  unfold fle, is_nan. rewrite FloatAxioms.leb_spec, FloatAxioms.eqb_spec.
  unfold SFleb, SFeqb. by destruct (SFcompare _ _) as [[]|].
Qed.

Lemma flt_fle a b : (a <? b)%float = true → fle a b.
Proof.
  unfold fle. rewrite FloatAxioms.leb_spec, FloatAxioms.ltb_spec.
  unfold SFleb, SFltb. by destruct (SFcompare _ _) as [[]|].
Qed.

Lemma SFcompare_swap x y :
  SFcompare y x = match SFcompare x y with Some c => Some (CompOpp c) | None => None end.
Proof.
  unfold SFcompare.
  destruct x as [[]|[]| |[] mx ex], y as [[]|[]| |[] my ey]; try done.
  - rewrite !Pos.compare_cont_spec. simpl. rewrite (Z.compare_antisym ex ey), (Pos.compare_antisym mx my).
    destruct (ex ?= ey)%Z; simpl; try done. by destruct (mx ?= my)%positive.
  - rewrite !Pos.compare_cont_spec. simpl. rewrite (Z.compare_antisym ex ey), (Pos.compare_antisym mx my).
    destruct (ex ?= ey)%Z; simpl; try done. by destruct (mx ?= my)%positive.
Qed.

Lemma nlt_fle a b :
  (a <? b)%float = false → is_nan a = false → is_nan b = false → fle b a.
Proof.
  unfold fle, is_nan. rewrite FloatAxioms.leb_spec, FloatAxioms.ltb_spec, !FloatAxioms.eqb_spec.
  unfold SFleb, SFltb, SFeqb. rewrite (SFcompare_swap (Prim2SF a) (Prim2SF b)).
  destruct (SFcompare (Prim2SF a) (Prim2SF b)) as [[]|] eqn:E; try done.
  intros _. 
  destruct (Prim2SF a) as [[]|[]| |[] mx ex], (Prim2SF b) as [[]|[]| |[] my ey]; try done.
Qed.

Lemma parent_child pos : 0 < pos → child_of pos ((pos - 1) / 2).
Proof.
  intros Hp. unfold child_of.
  pose proof (N.div_mod' (pos - 1) 2) as Hd.
  assert (2 ≠ 0) as H2 by lia.
  pose proof (N.mod_lt (pos - 1) 2 H2) as Hm.
  set (q := (pos - 1) / 2) in *. set (r := (pos - 1) mod 2) in *. lia.
Qed.

Lemma vsize_insert {A} (l : list A) i x : vsize (<[i := x]> l) = vsize l.
Proof. unfold vsize. by rewrite length_insert. Qed.

Section SiftOrder.
Variable score : list float.
Hypothesis Hnonan : nonan score.

Lemma slot_value_sv heap i r x :
  vget heap i = Some r → vget score r = Some x → sv score heap i = x ∧ is_nan x = false.
Proof.
  intros Hr Hx. unfold sv, slot_value. rewrite Hr. simpl. rewrite Hx. split; [done|].
  unfold nonan in Hnonan. rewrite Forall_lookup in Hnonan. by eapply Hnonan.
Qed.

(** values of the slots after a swap *)
Lemma sv_swap heap (pos child : N) a b i :
  pos ≠ child → vget heap pos = Some b → vget heap child = Some a →
  sv score (<[N.to_nat child := b]> (<[N.to_nat pos := a]> heap)) i =
    if decide (i = child) then sv score heap pos
    else if decide (i = pos) then sv score heap child
    else sv score heap i.
Proof.
  intros Hne Hb Ha. unfold sv, slot_value, vget in *.
  pose proof (lookup_lt_Some _ _ _ Hb). pose proof (lookup_lt_Some _ _ _ Ha).
  destruct (decide (i = child)) as [->|Hic].
  { rewrite list_lookup_insert_eq by (by rewrite length_insert). by rewrite Hb. }
  rewrite list_lookup_insert_ne by lia.
  destruct (decide (i = pos)) as [->|Hip].
  { rewrite list_lookup_insert_eq by done. by rewrite Ha. }
  by rewrite list_lookup_insert_ne by lia.
Qed.


Lemma siftUp_ordered fuel : ∀ heap index pos parent heap' index',
  siftUp fuel score heap index pos parent = Some (heap', index') →
  (0 < pos → parent = (pos - 1) / 2) →
  vsize heap < 2 ^ 63 → pos < vsize heap →
  up_inv score heap pos →
  ordered score heap'.
Proof.
  induction fuel as [|fuel IH]; intros heap index pos parent heap' index' Hrun Hpar Hsmall Hpos [Hinv Hgp].
  - cbn [siftUp] in Hrun.
    destruct (0 <? pos) eqn:Hp.
    + apply N.ltb_lt in Hp. specialize (Hpar Hp).
      destruct (vget heap parent) as [hp|] eqn:Ehp; [|done]. simpl in Hrun.
      destruct (vget score hp) as [sp|] eqn:Esp; [|done]. simpl in Hrun.
      destruct (vget heap pos) as [hq|] eqn:Ehq; [|done]. simpl in Hrun.
      destruct (vget score hq) as [sq|] eqn:Esq; [|done]. simpl in Hrun.
      destruct (sp <? sq)%float eqn:Hlt; [done|]. injection Hrun as <- <-.
      destruct (slot_value_sv _ _ _ _ Ehp Esp) as [Hsp Hnp].
      destruct (slot_value_sv _ _ _ _ Ehq Esq) as [Hsq Hnq].
      intros i c Hc Hcn. destruct (decide (c = pos)) as [->|Hcp]; [|by apply Hinv].
      pose proof (parent_child pos Hp) as Hpc.
      assert (i = parent) as -> by (unfold child_of in *; lia).
      rewrite Hsp, Hsq. by apply nlt_fle.
    + simpl in Hrun. injection Hrun as <- <-. apply N.ltb_ge in Hp.
      intros i c Hc Hcn. apply Hinv; [done..|]. unfold child_of in Hc. lia.
  - cbn [siftUp] in Hrun.
    destruct (0 <? pos) eqn:Hp.
    2:{ simpl in Hrun. injection Hrun as <- <-. apply N.ltb_ge in Hp.
        intros i c Hc Hcn. apply Hinv; [done..|]. unfold child_of in Hc. lia. }
    apply N.ltb_lt in Hp. specialize (Hpar Hp).
    destruct (vget heap parent) as [hp|] eqn:Ehp; [|done]. simpl in Hrun.
    destruct (vget score hp) as [sp|] eqn:Esp; [|done]. simpl in Hrun.
    destruct (vget heap pos) as [hq|] eqn:Ehq; [|done]. simpl in Hrun.
    destruct (vget score hq) as [sq|] eqn:Esq; [|done]. simpl in Hrun.
    destruct (slot_value_sv _ _ _ _ Ehp Esp) as [Hsp Hnp].
    destruct (slot_value_sv _ _ _ _ Ehq Esq) as [Hsq Hnq].
    pose proof (parent_child pos Hp) as Hpc. rewrite <- Hpar in Hpc.
    assert (parent < pos) as Hlt' by (unfold child_of in Hpc; lia).
    destruct (sp <? sq)%float eqn:Hlt.
    2:{ injection Hrun as <- <-.
        intros i c Hc Hcn. destruct (decide (c = pos)) as [->|Hcp]; [|by apply Hinv].
        assert (i = parent) as -> by (unfold child_of in *; lia).
        rewrite Hsp, Hsq. by apply nlt_fle. }
    rewrite (vswap_eq heap pos parent hq hp) in Hrun by done.
    cbn [mbind option_bind] in Hrun.
    set (heap1 := <[N.to_nat parent := hq]> (<[N.to_nat pos := hp]> heap)) in *.
    destruct (vget heap1 pos) as [a|] eqn:Ea; [|by simpl in Hrun].
    cbn [mbind option_bind] in Hrun.
    destruct (vset index a pos) as [index1|] eqn:Ei1; [|by simpl in Hrun].
    cbn [mbind option_bind] in Hrun.
    destruct (vget heap1 parent) as [b|] eqn:Eb; [|by simpl in Hrun].
    cbn [mbind option_bind] in Hrun.
    destruct (vset index1 b parent) as [index2|] eqn:Ei2; [|by simpl in Hrun].
    cbn [mbind option_bind] in Hrun.
    assert (pos ≠ parent) as Hne by lia.
    eapply IH; [exact Hrun|..].
    + intros Hp0. rewrite u64_pred_pos; [done|done|].
      assert (2 ^ 63 < 2 ^ 64) by done. lia.
    + unfold heap1. by rewrite !vsize_insert.
    + unfold heap1. rewrite !vsize_insert. lia.
    + unfold heap1. split.
      * intros i c Hc Hcn Hcne. rewrite !vsize_insert in Hcn.
        rewrite !(sv_swap heap pos parent hp hq) by done.
        destruct (decide (c = parent)) as [->|Hc1]; [done|].
        destruct (decide (c = pos)) as [->|Hc2].
        { assert (i = parent) as -> by (unfold child_of in *; lia).
          rewrite decide_True by done. rewrite Hsp, Hsq. by apply flt_fle. }
        destruct (decide (i = parent)) as [->|Hi1].
        { apply fle_trans with (sv score heap parent); [by apply Hinv|].
          rewrite Hsp, Hsq. by apply flt_fle. }
        destruct (decide (i = pos)) as [->|Hi2].
        { by apply (Hgp parent c). }
        by apply Hinv.
      * intros i c Hci Hcc Hcn. rewrite !vsize_insert in Hcn.
        rewrite !(sv_swap heap pos parent hp hq) by done.
        assert (i ≠ parent) by (unfold child_of in *; lia).
        assert (i ≠ pos) by (unfold child_of in *; lia).
        rewrite (decide_False (P := i = parent)), (decide_False (P := i = pos)) by done.
        destruct (decide (c = parent)) as [->|Hc1]; [unfold child_of in *; lia|].
        destruct (decide (c = pos)) as [->|Hc2].
        { apply Hinv; [done|lia|lia]. }
        apply fle_trans with (sv score heap parent); [by apply Hinv|].
        apply Hinv; [done|lia|lia].
Qed.



(** What a successful evaluation of one side of the loop condition tells. *)
Lemma read_cond heap (p c : N) (b : bool) :
  (if c <? vsize heap then
     hp ← vget heap p; sp ← vget score hp; hc ← vget heap c; sc ← vget score hc;
     Some (sp <? sc)%float
   else Some false) = Some b →
  (b = true → c < vsize heap) ∧
  (c < vsize heap →
     ∃ hp hc, vget heap p = Some hp ∧ vget heap c = Some hc ∧
       b = (sv score heap p <? sv score heap c)%float ∧
       is_nan (sv score heap p) = false ∧ is_nan (sv score heap c) = false).
Proof.
  destruct (c <? vsize heap) eqn:E.
  - apply N.ltb_lt in E. intros H.
    destruct (vget heap p) as [hp|] eqn:Ehp; [|done]. simpl in H.
    destruct (vget score hp) as [sp|] eqn:Esp; [|done]. simpl in H.
    destruct (vget heap c) as [hc|] eqn:Ehc; [|done]. simpl in H.
    destruct (vget score hc) as [sc|] eqn:Esc; [|done]. simpl in H.
    injection H as <-.
    destruct (slot_value_sv _ _ _ _ Ehp Esp) as [-> ?].
    destruct (slot_value_sv _ _ _ _ Ehc Esc) as [-> ?].
    split; [done|]. intros _. by exists hp, hc.
  - apply N.ltb_ge in E. intros [= <-]. split; [done|lia].
Qed.

Lemma siftDown_ordered fuel : ∀ heap index pos l r heap' index',
  siftDown fuel score heap index pos l r = Some (heap', index') →
  l = 2 * pos + 1 → r = 2 * pos + 2 →
  vsize heap < 2 ^ 63 → pos < vsize heap →
  down_inv score heap pos →
  ordered score heap'.
Proof.
  induction fuel as [|fuel IH];
    intros heap index pos l r heap' index' Hrun Hl Hr Hsmall Hpos [Hinv Hgp].
  all: cbn [siftDown] in Hrun.
  all: match type of Hrun with (?c ≫= _) = _ => destruct c as [cl|] eqn:Ecl; [|done] end.
  all: cbn [mbind option_bind] in Hrun.
  all: match type of Hrun with (?c ≫= _) = _ => destruct c as [cr|] eqn:Ecr; [|done] end.
  all: cbn [mbind option_bind] in Hrun.
  all: destruct (read_cond _ _ _ _ Ecl) as [Hclt Hcl].
  all: destruct (read_cond _ _ _ _ Ecr) as [Hcrt Hcr].
  all: destruct (cl || cr) eqn:Hc; [|
    injection Hrun as <- <-; apply orb_false_iff in Hc as [-> ->];
    intros i c Hci Hcn; destruct (decide (i = pos)) as [->|Hip]; [|by apply Hinv];
    assert (c = l ∨ c = r) as [->| ->] by (unfold child_of in Hci; lia);
    [ destruct (Hcl Hcn) as (? & ? & _ & _ & Hb & ? & ?)
    | destruct (Hcr Hcn) as (? & ? & _ & _ & Hb & ? & ?) ];
    by apply nlt_fle ].
  - done.
  - match type of Hrun with (?c ≫= _) = _ => destruct c as [right|] eqn:Eright; [|done] end.
    cbn [mbind option_bind] in Hrun.
    destruct (read_cond _ _ _ _ Eright) as [Hrt Hrr].
    assert (l < vsize heap) as Hln.
    { destruct cl; [by apply Hclt|]. simpl in Hc. specialize (Hcrt Hc). lia. }
    destruct (Hcl Hln) as (hp & hl & Ehp & Ehl & Hbl & Hnp & Hnl).
    set (child := if right then r else l) in *.
    assert (child_of child pos ∧ child < vsize heap ∧ pos ≠ child ∧
            fle (sv score heap pos) (sv score heap child) ∧
            (∀ c, child_of c pos → c < vsize heap → c ≠ child →
                  fle (sv score heap c) (sv score heap child)) ∧
            ∃ hc, vget heap child = Some hc)
      as (Hchild & Hcn & Hne & Hpc & Hsib & hc & Ehc).
    { unfold child. destruct right.
      - specialize (Hrt eq_refl). destruct (Hrr Hrt) as (? & hr & _ & Ehr & Hlr & _ & Hnr).
        destruct (Hcr Hrt) as (_ & _ & _ & _ & Hbr & _ & _).
        split_and!; [unfold child_of; lia|done|lia| | |by exists hr].
        + destruct cr; [by apply flt_fle|]. destruct cl; [|done].
          apply fle_trans with (sv score heap l); by apply flt_fle.
        + intros c Hcc Hc' Hcr'.
          assert (c = l) as -> by (unfold child_of in Hcc; lia). by apply flt_fle.
      - split_and!; [unfold child_of; lia|done|lia| | |by exists hl].
        + destruct cl; [by apply flt_fle|]. simpl in Hc. subst cr.
          specialize (Hcrt eq_refl). destruct (Hcr Hcrt) as (_ & _ & _ & _ & Hbr & _ & Hnr).
          destruct (Hrr Hcrt) as (_ & _ & _ & _ & Hlr & _ & _).
          apply fle_trans with (sv score heap r); [by apply flt_fle|by apply nlt_fle].
        + intros c Hcc Hc' Hcl'.
          assert (c = r) as -> by (unfold child_of in Hcc; lia).
          destruct (Hrr Hc') as (_ & _ & _ & _ & Hlr & _ & Hnr). by apply nlt_fle. }
    clearbody child. clear Hclt Hcl Hcrt Hcr Hrt Hrr Ecl Ecr Eright Hc.
    rewrite (vswap_eq heap pos child hp hc) in Hrun by done.
    cbn [mbind option_bind] in Hrun.
    set (heap1 := <[N.to_nat child := hp]> (<[N.to_nat pos := hc]> heap)) in *.
    destruct (vget heap1 pos) as [a|] eqn:Ea; [|by simpl in Hrun].
    cbn [mbind option_bind] in Hrun.
    destruct (vset index a pos) as [index1|] eqn:Ei1; [|by simpl in Hrun].
    cbn [mbind option_bind] in Hrun.
    destruct (vget heap1 child) as [b|] eqn:Eb; [|by simpl in Hrun].
    cbn [mbind option_bind] in Hrun.
    destruct (vset index1 b child) as [index2|] eqn:Ei2; [|by simpl in Hrun].
    cbn [mbind option_bind] in Hrun.
    assert (2 ^ 63 + 2 ^ 63 = 2 ^ 64) as H64 by done.
    eapply IH; [exact Hrun|..].
    + apply u64_small. lia.
    + apply u64_small. lia.
    + unfold heap1. by rewrite !vsize_insert.
    + unfold heap1. by rewrite !vsize_insert.
    + unfold heap1. split.
      * intros i c Hci Hc' Hic. rewrite !vsize_insert in Hc'.
        rewrite !(sv_swap heap pos child hc hp) by done.
        destruct (decide (i = child)) as [->|_]; [done|].
        destruct (decide (c = child)) as [->|Hc1].
        { assert (i = pos) as -> by (unfold child_of in *; lia).
          by rewrite decide_True. }
        destruct (decide (c = pos)) as [->|Hc2].
        { assert (i ≠ pos) by (unfold child_of in *; lia).
          rewrite decide_False by done. by apply (Hgp i child). }
        destruct (decide (i = pos)) as [->|Hi2]; [by apply Hsib|by apply Hinv].
      * intros i c Hci Hcc Hc'. rewrite !vsize_insert in Hc'.
        rewrite !(sv_swap heap pos child hc hp) by done.
        assert (i = pos) as -> by (unfold child_of in *; lia).
        rewrite (decide_False (P := pos = child)), (decide_True (P := pos = pos)) by done.
        assert (c ≠ child) by (unfold child_of in *; lia).
        assert (c ≠ pos) by (unfold child_of in *; lia).
        rewrite (decide_False (P := c = child)), (decide_False (P := c = pos)) by done.
        apply Hinv; [done|done|lia].
Qed.

End SiftOrder.

Lemma heap_ordered_spec score heap :
  ranks_ok (length score) heap →
  heap_ordered score heap = true ↔ ordered score heap.
Proof.
  intros Hr. unfold heap_ordered, ordered. rewrite forallb_forall.
  assert (∀ i, i < vsize heap → ∃ x, slot_value score heap i = Some x) as Hval.
  { intros i Hi. unfold slot_value, vsize in *.
    destruct (vget_Forall _ heap i Hr) as (r & -> & Hrn); [lia|]. simpl.
    by apply vget_ok. }
  split.
  - intros H i c Hci Hcn.
    assert (i < vsize heap) as Hin by (unfold child_of in Hci; lia).
    specialize (H i). rewrite andb_true_iff in H.
    destruct H as [H1 H2]; [by apply list_elem_of_In, elem_of_upto|].
    destruct (Hval i Hin) as [p Hp]. destruct (Hval c Hcn) as [q Hq].
    unfold fle, sv. rewrite Hp, Hq. simpl.
    unfold slot_ordered in *. destruct Hci as [-> | ->].
    + by rewrite Hp, Hq in H1.
    + by rewrite Hp, Hq in H2.
  - intros H i Hi%list_elem_of_In%elem_of_upto.
    assert (∀ c, child_of c i → slot_ordered score heap i c = true) as Hc.
    { intros c Hci. unfold slot_ordered.
      destruct (slot_value score heap i) as [p|] eqn:Hp; [|done].
      destruct (slot_value score heap c) as [q|] eqn:Hq; [|done].
      assert (c < vsize heap) as Hcn.
      { unfold slot_value in Hq. destruct (vget heap c) eqn:E; [|done].
        apply vget_lt in E. unfold vsize. lia. }
      specialize (H i c Hci Hcn). unfold fle, sv in H. by rewrite Hp, Hq in H. }
    rewrite !Hc; [done|by right|by left].
Qed.

(** In a well-formed heap, [index[e]] is the slot that holds [e]. *)
Lemma heap_holds n heap index e :
  heap_wf n heap index → (N.to_nat e < n)%nat →
  ∃ pos, vget index e = Some pos ∧ vget heap pos = Some e ∧ (N.to_nat pos < n)%nat ∧
         ∀ i, vget heap i = Some e → i = pos.
Proof.
  intros [Hs Hl Hil Hh Hi Hc] He.
  assert (NoDup heap) as Hnd.
  { apply NoDup_alt. intros i j x Hix Hjx.
    apply Hc in Hix, Hjx. rewrite Hix in Hjx. injection Hjx. lia. }
  assert (heap ≡ₚ upto (N.of_nat n)) as Hperm.
  { apply submseteq_length_Permutation.
    - apply NoDup_submseteq; [done|]. intros x Hx. apply elem_of_upto.
      unfold ranks_ok in Hh. rewrite Forall_forall in Hh. specialize (Hh x Hx). lia.
    - rewrite length_upto. lia. }
  assert (e ∈ heap) as Hin by (rewrite Hperm; apply elem_of_upto; lia).
  apply list_elem_of_lookup in Hin as [i Hi'].
  exists (N.of_nat i). unfold vget. rewrite Nat2N.id.
  split_and!; [by apply Hc|done|apply lookup_lt_Some in Hi'; lia|].
  intros j Hj. apply Hc in Hj, Hi'. rewrite Hj in Hi'. injection Hi'. lia.
Qed.

(** The slot values after the score of rank [e], held at slot [pos], changes. *)
Lemma sv_update score heap (e pos : N) v i :
  vget heap pos = Some e → (∀ j, vget heap j = Some e → j = pos) →
  (N.to_nat e < length score)%nat →
  sv (<[N.to_nat e := v]> score) heap i =
    if decide (i = pos) then v else sv score heap i.
Proof.
  intros Hpos Huniq He. unfold sv, slot_value.
  destruct (decide (i = pos)) as [->|Hne].
  - rewrite Hpos. simpl. unfold vget. by rewrite list_lookup_insert_eq.
  - destruct (vget heap i) as [r|] eqn:Hr; [|done]. simpl.
    unfold vget. rewrite list_lookup_insert_ne; [done|].
    intros Heq. apply Hne, Huniq. rewrite Hr. f_equal. lia.
Qed.

Lemma nonan_insert score i v : nonan score → is_nan v = false → nonan (<[i := v]> score).
Proof. intros H Hv. by apply Forall_insert. Qed.

Lemma nonan_sv score heap i : nonan score → is_nan (sv score heap i) = false.
Proof.
  intros H. unfold sv, slot_value. destruct (vget heap i) as [r|]; [|done]. simpl.
  destruct (vget score r) as [x|] eqn:E; [|done]. simpl.
  unfold nonan in H. rewrite Forall_lookup in H. by apply (H _ _ E).
Qed.

(** [updateHeap] restores the heap order after the score of one entry moved
    in the direction [change] announces. *)
Lemma updateHeap_ordered n heap index score e v old change heap' index' :
  heap_wf n heap index → length score = n → nonan score → is_nan v = false →
  ordered score heap →
  vget score e = Some old →
  (if (0 <? change)%float then fle old v else fle v old) →
  updateHeap heap e change index (<[N.to_nat e := v]> score) = Some (heap', index') →
  ordered (<[N.to_nat e := v]> score) heap'.
Proof.
  intros Hwf Hlen Hnan Hv Hord Hold Hdir Hrun.
  assert (N.to_nat e < n)%nat as He by (apply vget_lt in Hold; lia).
  destruct (heap_holds n heap index e Hwf He) as (pos & Hidx & Hpos & Hposn & Huniq).
  pose proof Hwf as [Hs Hl Hil Hh Hi Hc].
  assert (∀ i, sv (<[N.to_nat e := v]> score) heap i =
               if decide (i = pos) then v else sv score heap i) as Hsv.
  { intros i. apply sv_update; [done|done|lia]. }
  assert (sv score heap pos = old) as Hsvpos.
  { unfold sv, slot_value. rewrite Hpos. simpl. by rewrite Hold. }
  assert (nonan (<[N.to_nat e := v]> score)) as Hnan' by by apply nonan_insert.
  unfold updateHeap in Hrun. rewrite Hidx in Hrun. simpl in Hrun.
  destruct (0 <? change)%float.
  - eapply (siftUp_ordered _ Hnan'); [exact Hrun| | | |].
    + intros Hp. rewrite u64_pred_pos; [done|done|].
      assert (2 ^ 63 < 2 ^ 64) by done. lia.
    + unfold vsize. lia.
    + unfold vsize. lia.
    + split.
      * intros i c Hci Hcn Hne. rewrite !Hsv.
        destruct (decide (c = pos)); [done|].
        destruct (decide (i = pos)) as [->|].
        -- eapply fle_trans; [|exact Hdir]. rewrite <- Hsvpos. by apply Hord.
        -- by apply Hord.
      * intros i c Hpi Hcp Hcn. rewrite !Hsv.
        assert (c ≠ pos) by (unfold child_of in *; lia).
        assert (i ≠ pos) by (unfold child_of in *; lia).
        rewrite !decide_False by done.
        eapply fle_trans; [by apply (Hord pos c)|].
        apply Hord; [done|]. unfold vsize. lia.
  - eapply (siftDown_ordered _ Hnan'); [exact Hrun| | | | |].
    + rewrite u64_small; [done|]. assert (2 ^ 63 < 2 ^ 64) by done. lia.
    + rewrite u64_small; [done|]. assert (2 ^ 63 < 2 ^ 64) by done. lia.
    + unfold vsize. lia.
    + unfold vsize. lia.
    + split.
      * intros i c Hci Hcn Hne. rewrite !Hsv.
        rewrite (decide_False (P := i = pos)) by done.
        destruct (decide (c = pos)) as [->|].
        -- eapply fle_trans; [exact Hdir|]. rewrite <- Hsvpos. by apply Hord.
        -- by apply Hord.
      * intros i c Hpi Hcp Hcn. rewrite !Hsv.
        assert (c ≠ pos) by (unfold child_of in *; lia).
        assert (i ≠ pos) by (unfold child_of in *; lia).
        rewrite !decide_False by done.
        eapply fle_trans; [by apply (Hord pos c)|].
        apply Hord; [done|]. unfold vsize. lia.
Qed.


Lemma nonanb_spec score : nonanb score = true ↔ nonan score.
Proof.
  unfold nonanb, nonan. rewrite forallb_forall, Forall_forall.
  split; intros H x Hx.
  - apply list_elem_of_In, H in Hx. by destruct (is_nan x).
  - apply list_elem_of_In, H in Hx. by rewrite Hx.
Qed.

Lemma Forbidden_least x : is_nan x = false → fle Forbidden x.
Proof.
  unfold fle, is_nan. rewrite FloatAxioms.leb_spec, FloatAxioms.eqb_spec.
  change (Prim2SF Forbidden) with (S754_infinity true).
  by destruct (Prim2SF x) as [[]|[]| |[] m e].
Qed.

Lemma nonan_lookup score (e : N) x : nonan score → vget score e = Some x → is_nan x = false.
Proof. unfold nonan. rewrite Forall_lookup. intros H E. by apply (H _ _ E). Qed.

Lemma removeEdge_ordered s rId s' :
  wf s → nonan (icf s) → nonan (icp s) →
  ordered (icf s) (forb_rank2edge s) → ordered (icp s) (perm_rank2edge s) →
  removeEdge s rId = Some s' →
  ordered (icf s') (forb_rank2edge s') ∧ ordered (icp s') (perm_rank2edge s') ∧
  nonan (icf s') ∧ nonan (icp s').
Proof.
  intros Hwf Hnf Hnp Hof Hop Hrun. pose proof Hwf as [He Hp Hf Hpm Hl2 Hr2 Hl3 Hr3].
  unfold removeEdge in Hrun.
  destruct (rId =? 0) eqn:H0; [by assert (s' = s) as -> by congruence|].
  destruct (0 <? rId); simpl in Hrun; [|by assert (s' = s) as -> by congruence].
  destruct (vget (icf s) rId) as [x|] eqn:Hx; [|done]. simpl in Hrun.
  destruct (fneq x Forbidden) eqn:Hfx; simpl in Hrun;
    [|by assert (s' = s) as -> by congruence].
  destruct (vget (icp s) rId) as [y|] eqn:Hy; [|done]. simpl in Hrun.
  destruct (fneq y Forbidden) eqn:Hfy; simpl in Hrun;
    [|by assert (s' = s) as -> by congruence].
  pose proof (vget_lt _ _ _ Hx) as Hlt.
  rewrite (vset_ok (icf s)) in Hrun by done. simpl in Hrun.
  rewrite (vset_ok (icp s)) in Hrun by lia. simpl in Hrun.
  destruct (updateHeap (forb_rank2edge s) rId Forbidden (edge2forb_rank s) _)
    as [[fheap fidx]|] eqn:Ef; [|done]. simpl in Hrun.
  destruct (updateHeap (perm_rank2edge s) rId Forbidden (edge2perm_rank s) _)
    as [[pheap pidx]|] eqn:Ep; [|done]. simpl in Hrun.
  injection Hrun as <-. simpl. split_and!.
  - apply (updateHeap_ordered (length (icf s)) (forb_rank2edge s) (edge2forb_rank s)
             (icf s) rId Forbidden x Forbidden fheap fidx); try done.
    assert ((0 <? Forbidden)%float = false) as -> by reflexivity.
    apply Forbidden_least. exact (nonan_lookup _ _ _ Hnf Hx).
  - apply (updateHeap_ordered (length (icf s)) (perm_rank2edge s) (edge2perm_rank s)
             (icp s) rId Forbidden y Forbidden pheap pidx); try done.
    assert ((0 <? Forbidden)%float = false) as -> by reflexivity.
    apply Forbidden_least. exact (nonan_lookup _ _ _ Hnp Hy).
  - by apply nonan_insert.
  - by apply nonan_insert.
Qed.


Lemma fle_not_lt a b : fle a b → (b <? a)%float = false.
Proof.
  unfold fle. rewrite FloatAxioms.leb_spec, FloatAxioms.ltb_spec.
  unfold SFleb, SFltb. rewrite (SFcompare_swap (Prim2SF a) (Prim2SF b)).
  by destruct (SFcompare (Prim2SF a) (Prim2SF b)) as [[]|].
Qed.

Lemma fle_nonan_l a b : fle a b → is_nan a = false.
Proof.
  unfold fle, is_nan. rewrite FloatAxioms.leb_spec, FloatAxioms.eqb_spec.
  unfold SFleb, SFeqb.
  destruct (Prim2SF a) as [[]|[]| |[] mx ex], (Prim2SF b) as [[]|[]| |[] my ey]; try done.
  all: simpl; rewrite Z.compare_refl, Pos.compare_cont_refl; done.
Qed.

Lemma fle_nonan_r a b : fle a b → is_nan b = false.
Proof.
  unfold fle, is_nan. rewrite FloatAxioms.leb_spec, FloatAxioms.eqb_spec.
  unfold SFleb, SFeqb.
  destruct (Prim2SF a) as [[]|[]| |[] mx ex], (Prim2SF b) as [[]|[]| |[] my ey]; try done.
  all: simpl; rewrite Z.compare_refl, Pos.compare_cont_refl; done.
Qed.

(** The clamped sum lies on the side of the old value that the sign of [w]
    announces, when the rounded sum does. *)
Lemma clamp_direction x w :
  (0 <=? x)%float = true → moves_toward x w = true →
  is_nan (fmax (x + w) 0) = false ∧
  if (0 <? w)%float then fle x (fmax (x + w) 0) else fle (fmax (x + w) 0) x.
Proof.
  intros Hx Hm. unfold moves_toward in Hm. unfold fmax.
  destruct (0 <? w)%float.
  - assert (fle 0 (x + w)) as H0 by (by eapply fle_trans).
    rewrite (fle_not_lt _ _ H0). split; [by eapply fle_nonan_r|done].
  - destruct (x + w <? 0)%float; [done|].
    split; [by eapply fle_nonan_l|done].
Qed.


Section IncreaseOrder.
Variable g : StaticSparseGraph.

Lemma increaseIcf_ordered s e w s' :
  wf s → nonan (icf s) → ordered (icf s) (forb_rank2edge s) →
  increase_monotone (icf s) s (findIndexE g e) w = true →
  increaseIcf g s e w = Some s' →
  ordered (icf s') (forb_rank2edge s') ∧ nonan (icf s').
Proof.
  intros Hwf Hnan Hord Hmono Hrun. unfold increaseIcf in Hrun.
  destruct (0 <? findIndexE g e) eqn:Hr; simpl in Hrun;
    [|by assert (s' = s) as -> by congruence].
  destruct (fneq w 0) eqn:Hw; simpl in Hrun; [|by assert (s' = s) as -> by congruence].
  unfold increase_monotone in Hmono.
  destruct (vget (edgeToBundle s) (findIndexE g e)) as [eb|] eqn:Heb; [|done].
  simpl in Hrun, Hmono. destruct (vget (icf s) eb) as [x|] eqn:Hx; [|done].
  simpl in Hrun. destruct (0 <=? x)%float eqn:Hlive;
    [|by assert (s' = s) as -> by congruence].
  pose proof (vget_lt _ _ _ Hx) as Hlt.
  rewrite (vset_ok (icf s)) in Hrun by done. simpl in Hrun.
  unfold vget at 1 in Hrun. rewrite list_lookup_insert_eq in Hrun by done.
  simpl in Hrun. rewrite vset_ok in Hrun by (by rewrite length_insert).
  simpl in Hrun. rewrite list_insert_insert_eq in Hrun.
  destruct (updateHeap (forb_rank2edge s) eb w (edge2forb_rank s) _)
    as [[heap index]|] eqn:Eh; [|done]. simpl in Hrun.
  injection Hrun as <-. simpl.
  destruct (clamp_direction x w Hlive Hmono) as [Hv Hdir].
  split; [|by apply nonan_insert].
  apply (updateHeap_ordered (length (icf s)) (forb_rank2edge s) (edge2forb_rank s)
           (icf s) eb (fmax (x + w) 0) x w heap index); try done.
  apply Hwf.
Qed.

Lemma increaseIcp_ordered s e w s' :
  wf s → nonan (icp s) → ordered (icp s) (perm_rank2edge s) →
  increase_monotone (icp s) s (findIndexE g e) w = true →
  increaseIcp g s e w = Some s' →
  ordered (icp s') (perm_rank2edge s') ∧ nonan (icp s').
Proof.
  intros Hwf Hnan Hord Hmono Hrun. unfold increaseIcp in Hrun.
  destruct (0 <? findIndexE g e) eqn:Hr; simpl in Hrun;
    [|by assert (s' = s) as -> by congruence].
  destruct (fneq w 0) eqn:Hw; simpl in Hrun; [|by assert (s' = s) as -> by congruence].
  unfold increase_monotone in Hmono.
  destruct (vget (edgeToBundle s) (findIndexE g e)) as [eb|] eqn:Heb; [|done].
  simpl in Hrun, Hmono. destruct (vget (icp s) eb) as [x|] eqn:Hx; [|done].
  simpl in Hrun. destruct (0 <=? x)%float eqn:Hlive;
    [|by assert (s' = s) as -> by congruence].
  pose proof (vget_lt _ _ _ Hx) as Hlt.
  rewrite (vset_ok (icp s)) in Hrun by done. simpl in Hrun.
  unfold vget at 1 in Hrun. rewrite list_lookup_insert_eq in Hrun by done.
  simpl in Hrun. rewrite vset_ok in Hrun by (by rewrite length_insert).
  simpl in Hrun. rewrite list_insert_insert_eq in Hrun.
  destruct (updateHeap (perm_rank2edge s) eb w (edge2perm_rank s) _)
    as [[heap index]|] eqn:Eh; [|done]. simpl in Hrun.
  injection Hrun as <-. simpl.
  destruct (clamp_direction x w Hlive Hmono) as [Hv Hdir].
  split; [|by apply nonan_insert].
  apply (updateHeap_ordered (length (icf s)) (perm_rank2edge s) (edge2perm_rank s)
           (icp s) eb (fmax (x + w) 0) x w heap index); try done.
  - apply Hwf.
  - apply Hwf.
Qed.

End IncreaseOrder.

(** *** The sorted arrays are heaps *)


Lemma insert_desc_sorted x l :
  is_nan x.2 = false → Forall (λ p, is_nan p.2 = false) l →
  StronglySorted key_ge l → StronglySorted key_ge (insert_desc x l).
Proof.
  intros Hx Hl Hs. induction Hs as [|y l Hs IH Hy]; simpl.
  - by repeat constructor.
  - apply Forall_cons in Hl as [Hyn Hl].
    destruct (x.2 <? y.2)%float eqn:E.
    + constructor; [by apply IH|].
      rewrite insert_desc_perm. constructor; [|done].
      by apply flt_fle.
    + assert (key_ge x y) as Hxy by (by apply nlt_fle).
      constructor; [by constructor|]. constructor; [done|].
      eapply Forall_impl; [exact Hy|]. intros z Hz.
      unfold key_ge in *. by eapply fle_trans.
Qed.

Lemma sort_desc_sorted l :
  Forall (λ p, is_nan p.2 = false) l → StronglySorted key_ge (sort_desc l).
Proof.
  induction l as [|x l IH]; intros Hl; [constructor|].
  apply Forall_cons in Hl as [Hx Hl]. unfold sort_desc in *. simpl.
  apply insert_desc_sorted; [done| |by apply IH].
  fold (sort_desc l). by rewrite sort_desc_perm.
Qed.

Lemma StronglySorted_lookup {A} (R : A → A → Prop) l i j x y :
  StronglySorted R l → (i < j)%nat → l !! i = Some x → l !! j = Some y → R x y.
Proof.
  intros Hs. revert i j. induction Hs as [|a l Hs IH Ha]; intros i j Hij Hi Hj; [done|].
  destruct j as [|j]; [lia|]. simpl in Hj. destruct i as [|i].
  - simpl in Hi. injection Hi as ->. rewrite Forall_forall in Ha.
    apply Ha. by eapply list_elem_of_lookup_2.
  - simpl in Hi. apply (IH i j); [lia|done..].
Qed.

(** Sorting by descending score establishes the heap order, when no score is
    a NaN. *)
Lemma sort_by_score_ordered score l l' :
  nonan score → sort_by_score score l = Some l' → ordered score l'.
Proof.
  intros Hnan Hrun. unfold sort_by_score in Hrun.
  destruct (mapM (λ a, x ← vget score a; Some (a, x)) l) as [keyed|] eqn:E; [|done].
  simpl in Hrun. injection Hrun as <-.
  apply mapM_Some_1 in E.
  assert (Forall (λ p, vget score p.1 = Some p.2) keyed) as Hkeys.
  { clear -E. induction E as [|a p l keyed Hp _ IH]; [done|].
    constructor; [|done]. destruct (vget score a) eqn:Ha; [|done].
    simpl in Hp. injection Hp as <-. done. }
  assert (Forall (λ p, vget score p.1 = Some p.2) (sort_desc keyed)) as Hkeys'
    by (by rewrite sort_desc_perm).
  assert (StronglySorted key_ge (sort_desc keyed)) as Hs.
  { apply sort_desc_sorted. eapply Forall_impl; [exact Hkeys|].
    intros p Hp. simpl in Hp. exact (nonan_lookup _ _ _ Hnan Hp). }
  assert (∀ i p, sort_desc keyed !! i = Some p →
                 sv score (sort_desc keyed).*1 (N.of_nat i) = p.2) as Hsv.
  { intros i p Hi. unfold sv, slot_value.
    assert (vget (sort_desc keyed).*1 (N.of_nat i) = Some p.1) as ->.
    { unfold vget. by rewrite Nat2N.id, list_lookup_fmap, Hi. }
    simpl. rewrite Forall_lookup in Hkeys'. by rewrite (Hkeys' _ _ Hi). }
  intros i c Hci Hcn. unfold vsize in Hcn. rewrite length_fmap in Hcn.
  destruct (lookup_lt_is_Some_2 (sort_desc keyed) (N.to_nat c)) as [q Hq]; [lia|].
  destruct (lookup_lt_is_Some_2 (sort_desc keyed) (N.to_nat i)) as [p Hp].
  { unfold child_of in Hci. lia. }
  rewrite <- (N2Nat.id i), <- (N2Nat.id c).
  rewrite (Hsv _ _ Hp), (Hsv _ _ Hq).
  apply (StronglySorted_lookup key_ge _ (N.to_nat i) (N.to_nat c) p q Hs); [|done..].
  unfold child_of in Hci. lia.
Qed.

(** The slot at the root holds a maximal score. *)
Lemma ordered_root score heap i :
  nonan score → ordered score heap → i < vsize heap →
  fle (sv score heap i) (sv score heap 0).
Proof.
  intros Hnan Hord. induction i as [i IH] using (well_founded_induction N.lt_wf_0).
  intros Hi. destruct (decide (i = 0)) as [->|Hne].
  - apply fle_refl. by apply nonan_sv.
  - assert (0 < i) as Hpos by lia.
    pose proof (parent_child i Hpos) as Hpc.
    assert ((i - 1) / 2 < i) as Hlt by (unfold child_of in Hpc; lia).
    eapply fle_trans; [by apply (Hord _ _ Hpc)|]. apply IH; [done|lia].
Qed.

Lemma top_is_maximum n heap index score r x :
  heap_wf n heap index → length score = n → nonan score → ordered score heap →
  vget score r = Some x →
  ∃ top m, vget heap 0 = Some top ∧ vget score top = Some m ∧ fle x m.
Proof.
  intros Hwf Hlen Hnan Hord Hx.
  assert (N.to_nat r < n)%nat as Hr by (apply vget_lt in Hx; lia).
  destruct (heap_holds n heap index r Hwf Hr) as (pos & _ & Hpos & Hposn & _).
  pose proof Hwf as [Hs Hl Hil Hh Hi Hc].
  destruct (vget_Forall _ heap 0 Hh) as (top & Htop & Htopn); [lia|].
  destruct (vget_ok score top) as [m Hm]; [lia|].
  exists top, m. split_and!; [done..|].
  assert (sv score heap pos = x) as <-.
  { unfold sv, slot_value. rewrite Hpos. simpl. by rewrite Hx. }
  assert (sv score heap 0 = m) as <-.
  { unfold sv, slot_value. rewrite Htop. simpl. by rewrite Hm. }
  apply ordered_root; [done..|]. unfold vsize. lia.
Qed.

Section OrderTotal.
Variable g : StaticSparseGraph.

Lemma increaseIcf_returns s e w :
  wf s → (N.to_nat (findIndexE g e) < length (icf s))%nat →
  ∃ s', increaseIcf g s e w = Some s' ∧ wf s'.
Proof.
  intros Hwf Hr. pose proof Hwf as [He Hp Hf Hpm Hl2 Hr2 Hl3 Hr3].
  destruct (vget_Forall _ (edgeToBundle s) (findIndexE g e) Hr2) as (eb & Heb & Hebn);
    [lia|].
  destruct (vget_ok (icf s) eb) as [x Hx]; [done|].
  destruct ((0 <? findIndexE g e) && fneq w 0 && (0 <=? x)%float) eqn:Hg.
  - apply andb_true_iff in Hg as [[Hpos%N.ltb_lt Hw]%andb_true_iff Hlive].
    destruct (increaseIcf_live g s e w eb x) as (heap & index & Hrun & Hh & _); try done.
    eexists. split; [exact Hrun|]. split; simpl; rewrite ?length_insert; done.
  - exists s. split; [|done]. unfold increaseIcf.
    destruct (0 <? findIndexE g e); [|done]. destruct (fneq w 0); [|done].
    simpl in *. rewrite Heb. simpl. rewrite Hx. simpl. by rewrite Hg.
Qed.

Lemma increaseIcp_returns s e w :
  wf s → (N.to_nat (findIndexE g e) < length (icf s))%nat →
  ∃ s', increaseIcp g s e w = Some s' ∧ wf s'.
Proof.
  intros Hwf Hr. pose proof Hwf as [He Hp Hf Hpm Hl2 Hr2 Hl3 Hr3].
  destruct (vget_Forall _ (edgeToBundle s) (findIndexE g e) Hr2) as (eb & Heb & Hebn);
    [lia|].
  destruct (vget_ok (icp s) eb) as [x Hx]; [lia|].
  destruct ((0 <? findIndexE g e) && fneq w 0 && (0 <=? x)%float) eqn:Hg.
  - apply andb_true_iff in Hg as [[Hpos%N.ltb_lt Hw]%andb_true_iff Hlive].
    destruct (increaseIcp_live g s e w eb x) as (heap & index & Hrun & Hh & _); try done.
    eexists. split; [exact Hrun|]. split; simpl; rewrite ?length_insert; done.
  - exists s. split; [|done]. unfold increaseIcp.
    destruct (0 <? findIndexE g e); [|done]. destruct (fneq w 0); [|done].
    simpl in *. rewrite Heb. simpl. rewrite Hx. simpl. by rewrite Hg.
Qed.

End OrderTotal.

Lemma wf_forb_ranks s : wf s → ranks_ok (length (icf s)) (forb_rank2edge s).
Proof. intros Hwf. apply Hwf. Qed.

Lemma wf_perm_ranks s : wf s → ranks_ok (length (icp s)) (perm_rank2edge s).
Proof. intros Hwf. rewrite (wf_icp _ Hwf). apply Hwf. Qed.

(** X5. [removeEdge] keeps both heaps in max-heap order: on a well-formed
    state without NaN costs whose two heaps are ordered, the call with a
    rank inside the tables returns a well-formed state, again without NaN,
    whose two heaps are ordered. *)
Theorem removeEdge_keeps_heap_order (s : EdgeHeap) (rId : RankId) :
  well_formed s = true →
  nonanb (icf s) = true → nonanb (icp s) = true →
  heap_ordered (icf s) (forb_rank2edge s) = true →
  heap_ordered (icp s) (perm_rank2edge s) = true →
  rId < vsize (icf s) →
  ∃ s', removeEdge s rId = Some s' ∧ well_formed s' = true ∧
        nonanb (icf s') = true ∧ nonanb (icp s') = true ∧
        heap_ordered (icf s') (forb_rank2edge s') = true ∧
        heap_ordered (icp s') (perm_rank2edge s') = true.
Proof.
  intros Hwf%well_formed_wf Hnf%nonanb_spec Hnp%nonanb_spec Hof Hop Hr.
  destruct (removeEdge_total s rId Hwf) as (s' & Hrun & Hwf');
    [unfold vsize in Hr; lia|].
  apply heap_ordered_spec in Hof; [|by apply wf_forb_ranks].
  apply heap_ordered_spec in Hop; [|by apply wf_perm_ranks].
  destruct (removeEdge_ordered s rId s' Hwf Hnf Hnp Hof Hop Hrun)
    as (Hof' & Hop' & Hnf' & Hnp').
  exists s'. split; [done|]. split; [by apply well_formed_wf|].
  split; [by apply nonanb_spec|]. split; [by apply nonanb_spec|]. split.
  - apply heap_ordered_spec; [by apply wf_forb_ranks|done].
  - apply heap_ordered_spec; [by apply wf_perm_ranks|done].
Qed.

Lemma removeEdge_keeps_heap_order_witness :
  ∃ s', removeEdge Sample.scenario0 2 = Some s' ∧
        heap_ordered (icf s') (forb_rank2edge s') = true ∧
        heap_ordered (icp s') (perm_rank2edge s') = true.
Proof.
  destruct (removeEdge_keeps_heap_order Sample.scenario0 2)
    as (s' & Hrun & _ & _ & _ & Hf & Hp); [vm_compute; reflexivity..|].
  exists s'. split; [exact Hrun|]. split; [exact Hf|exact Hp].
Defined.

(** X6. [increaseIcf] keeps the icf heap in max-heap order, provided the
    rounded sum moves in the direction of the sign of [w]
    ([increase_monotone]): on a well-formed state without NaN in [icf]
    whose icf heap is ordered, the call returns a well-formed state,
    again without NaN in [icf], whose icf heap is ordered. *)
Theorem increaseIcf_keeps_heap_order (g : StaticSparseGraph) (s : EdgeHeap)
    (e : Edge) (w : EdgeWeight) :
  well_formed s = true →
  nonanb (icf s) = true →
  heap_ordered (icf s) (forb_rank2edge s) = true →
  findIndexE g e < vsize (icf s) →
  increase_monotone (icf s) s (findIndexE g e) w = true →
  ∃ s', increaseIcf g s e w = Some s' ∧ well_formed s' = true ∧
        nonanb (icf s') = true ∧
        heap_ordered (icf s') (forb_rank2edge s') = true.
Proof.
  intros Hwf%well_formed_wf Hnf%nonanb_spec Hof Hr Hmono.
  destruct (increaseIcf_returns g s e w Hwf) as (s' & Hrun & Hwf');
    [unfold vsize in Hr; lia|].
  apply heap_ordered_spec in Hof; [|by apply wf_forb_ranks].
  destruct (increaseIcf_ordered g s e w s' Hwf Hnf Hof Hmono Hrun) as (Hof' & Hnf').
  exists s'. split; [done|]. split; [by apply well_formed_wf|].
  split; [by apply nonanb_spec|].
  apply heap_ordered_spec; [by apply wf_forb_ranks|done].
Qed.

Lemma increaseIcf_keeps_heap_order_witness :
  ∃ s', increaseIcf Sample.star Sample.star0 (MkEdge 0 3) 10%float = Some s' ∧
        vget (forb_rank2edge Sample.star0) 0 = Some 1 ∧
        vget (forb_rank2edge s') 0 = Some 3 ∧
        heap_ordered (icf s') (forb_rank2edge s') = true.
Proof.
  destruct (increaseIcf_keeps_heap_order Sample.star Sample.star0 (MkEdge 0 3) 10%float)
    as (s' & Hrun & _ & _ & Hf); [vm_compute; reflexivity..|].
  exists s'. split; [exact Hrun|]. split; [reflexivity|]. split; [|exact Hf].
  vm_compute in Hrun. injection Hrun as <-. reflexivity.
Defined.

(** X7. [increaseIcp] keeps the icp heap in max-heap order, under the same
    proviso on the rounded sum. *)
Theorem increaseIcp_keeps_heap_order (g : StaticSparseGraph) (s : EdgeHeap)
    (e : Edge) (w : EdgeWeight) :
  well_formed s = true →
  nonanb (icp s) = true →
  heap_ordered (icp s) (perm_rank2edge s) = true →
  findIndexE g e < vsize (icf s) →
  increase_monotone (icp s) s (findIndexE g e) w = true →
  ∃ s', increaseIcp g s e w = Some s' ∧ well_formed s' = true ∧
        nonanb (icp s') = true ∧
        heap_ordered (icp s') (perm_rank2edge s') = true.
Proof.
  intros Hwf%well_formed_wf Hnp%nonanb_spec Hop Hr Hmono.
  destruct (increaseIcp_returns g s e w Hwf) as (s' & Hrun & Hwf');
    [unfold vsize in Hr; lia|].
  apply heap_ordered_spec in Hop; [|by apply wf_perm_ranks].
  destruct (increaseIcp_ordered g s e w s' Hwf Hnp Hop Hmono Hrun) as (Hop' & Hnp').
  exists s'. split; [done|]. split; [by apply well_formed_wf|].
  split; [by apply nonanb_spec|].
  apply heap_ordered_spec; [by apply wf_perm_ranks|done].
Qed.

Lemma increaseIcp_keeps_heap_order_witness :
  ∃ s', increaseIcp Sample.star Sample.star0 (MkEdge 0 3) 10%float = Some s' ∧
        vget (perm_rank2edge s') 0 = Some 3 ∧
        heap_ordered (icp s') (perm_rank2edge s') = true.
Proof.
  destruct (increaseIcp_keeps_heap_order Sample.star Sample.star0 (MkEdge 0 3) 10%float)
    as (s' & Hrun & _ & _ & Hp); [vm_compute; reflexivity..|].
  exists s'. split; [exact Hrun|]. split; [|exact Hp].
  vm_compute in Hrun. injection Hrun as <-. reflexivity.
Defined.

(** X8. After [initInducedCosts] both heaps are in max-heap order, when the
    cost loops produced no NaN: the call returns, and in the state it
    returns every slot of either heap is at least each of its children. *)
Theorem init_heap_ordered (g : StaticSparseGraph) (k : Kernel) :
  graph_ok g = true →
  nonanb (icf (costs_result g k (EdgeHeap_new g))) = true →
  nonanb (icp (costs_result g k (EdgeHeap_new g))) = true →
  ∃ s, initInducedCosts g k (EdgeHeap_new g) = Some s ∧
       heap_ordered (icf s) (forb_rank2edge s) = true ∧
       heap_ordered (icp s) (perm_rank2edge s) = true.
Proof.
  intros Hok Hnf%nonanb_spec Hnp%nonanb_spec.
  destruct (init_run g k Hok)
    as (s & Hrun & Hwf & _ & _ & Hicf & Hicp & _ & _ & _ & _ & _ & _ & Hfs & Hps & _).
  rewrite <- Hicf in Hnf. rewrite <- Hicp in Hnp.
  exists s. split; [done|]. split.
  - apply heap_ordered_spec; [by apply wf_forb_ranks|].
    by eapply sort_by_score_ordered.
  - apply heap_ordered_spec; [by apply wf_perm_ranks|].
    by eapply sort_by_score_ordered.
Qed.

Lemma init_heap_ordered_witness :
  ∃ s, initInducedCosts Sample.scenario Sample.wce (EdgeHeap_new Sample.scenario) = Some s ∧
       heap_ordered (icf s) (forb_rank2edge s) = true ∧
       heap_ordered (icp s) (perm_rank2edge s) = true.
Proof.
  apply (init_heap_ordered Sample.scenario Sample.wce); vm_compute; reflexivity.
Defined.

(** X9. In a heap-ordered state the top of the icf heap is a maximum: on a
    well-formed state without NaN in [icf] whose icf heap is ordered, the
    entry of the rank at slot 0 is at least the entry of every rank, and
    [getMaxIcfEdge] answers from that rank. *)
Theorem heap_top_is_maximum (s : EdgeHeap) (r : RankId) (x : EdgeWeight) :
  well_formed s = true →
  nonanb (icf s) = true →
  heap_ordered (icf s) (forb_rank2edge s) = true →
  vget (icf s) r = Some x →
  ∃ top m, vget (forb_rank2edge s) 0 = Some top ∧ vget (icf s) top = Some m ∧
           (x <=? m)%float = true ∧
           getMaxIcfEdge s =
             (if vsize (forb_rank2edge s) <=? 1 then Some InvalidEdge
              else if (m <? 0)%float then Some InvalidEdge
              else vget (edges s) top).
Proof.
  intros Hwf%well_formed_wf Hnf%nonanb_spec Hof Hx.
  apply heap_ordered_spec in Hof; [|by apply wf_forb_ranks].
  destruct (top_is_maximum (length (icf s)) (forb_rank2edge s) (edge2forb_rank s)
              (icf s) r x) as (top & m & Htop & Hm & Hle); try done; [apply Hwf|].
  exists top, m. split_and!; try done.
  unfold getMaxIcfEdge. rewrite Htop. simpl. by rewrite Hm.
Qed.

Lemma heap_top_is_maximum_witness :
  ∃ top m, vget (forb_rank2edge Sample.scenario0) 0 = Some top ∧
           vget (icf Sample.scenario0) top = Some m ∧
           (1 <=? m)%float = true.
Proof.
  destruct (heap_top_is_maximum Sample.scenario0 4 1%float)
    as (top & m & Htop & Hm & Hle & _); [vm_compute; reflexivity..|].
  exists top, m. split; [exact Htop|]. split; [exact Hm|exact Hle].
Defined.

(** ** Bundles, safety and corner cases *)

Lemma agree_same_bundles s s' :
  edgeToBundle s' = edgeToBundle s → edgeBundles s' = edgeBundles s →
  bundles_agree s → bundles_agree s'.
Proof. intros He Hb [H1 H2 H3]. split; rewrite ?He, ?Hb; done. Qed.

Lemma agree_merged s to from mf mt x y a b e2b :
  bundles_agree s → to ≠ from →
  vget (edgeBundles s) from = Some mf → vget (edgeBundles s) to = Some mt →
  (∀ m, m ∈ mf → vget e2b m = Some to) →
  (∀ m, m ∉ mf → vget e2b m = vget (edgeToBundle s) m) →
  bundles_agree (merged_state s to from mf mt x y a b e2b).
Proof.
  intros [Hmem Hown Hnd] Hne Hmf Hmt Hin Hout.
  pose proof (vget_lt _ _ _ Hmf) as Lf. pose proof (vget_lt _ _ _ Hmt) as Lt.
  assert (∀ c, vget (<[N.to_nat from := []]> (<[N.to_nat to := mt ++ mf]> (edgeBundles s))) c =
               if decide (c = from) then Some []
               else if decide (c = to) then Some (mt ++ mf)
               else vget (edgeBundles s) c) as Hbs.
  { intros c. unfold vget. destruct (decide (c = from)) as [->|Hcf].
    - apply list_lookup_insert_eq. by rewrite length_insert.
    - rewrite list_lookup_insert_ne by lia. destruct (decide (c = to)) as [->|Hct].
      + by apply list_lookup_insert_eq.
      + by rewrite list_lookup_insert_ne by lia. }
  assert (∀ r, r ∈ mt → r ∉ mf) as Hdisj.
  { intros r Hr Hr'. apply (Hown _ _ _ Hmt) in Hr. apply (Hown _ _ _ Hmf) in Hr'.
    congruence. }
  split; cbn [merged_state edgeToBundle edgeBundles].
  - intros r c Hr. rewrite Hbs. destruct (decide (r ∈ mf)) as [Hrm|Hrm].
    + rewrite (Hin r Hrm) in Hr. injection Hr as <-.
      rewrite decide_False, decide_True by done.
      eexists. split; [done|]. apply elem_of_app. by right.
    + rewrite (Hout r Hrm) in Hr. destruct (Hmem r c Hr) as (m & Hm & Hrin).
      assert (c ≠ from) as Hcf by (intros ->; congruence).
      rewrite decide_False by done. destruct (decide (c = to)) as [->|Hct].
      * eexists. split; [done|]. apply elem_of_app. left. congruence.
      * eauto.
  - intros c m r Hm Hr. rewrite Hbs in Hm.
    destruct (decide (c = from)) as [->|Hcf].
    { injection Hm as <-. by apply elem_of_nil in Hr. }
    destruct (decide (c = to)) as [->|Hct].
    + injection Hm as <-. apply elem_of_app in Hr as [Hr|Hr].
      * rewrite Hout by (by apply Hdisj). by apply (Hown _ _ _ Hmt).
      * by apply Hin.
    + rewrite Hout; [by apply (Hown _ _ _ Hm)|].
      intros Hr'. apply (Hown _ _ _ Hmf) in Hr'. apply (Hown _ _ _ Hm) in Hr. congruence.
  - intros c m Hm. rewrite Hbs in Hm.
    destruct (decide (c = from)) as [->|Hcf].
    { injection Hm as <-. constructor. }
    destruct (decide (c = to)) as [->|Hct]; [|by eapply Hnd].
    injection Hm as <-. apply NoDup_app.
    split; [by eapply Hnd|]. split; [exact Hdisj|by eapply Hnd].
Qed.

Section Agree.
Variable g : StaticSparseGraph.
Variable k : Kernel.

Lemma agree_step s s' :
  wf s → bundles_agree s → step g s s' → bundles_agree s'.
Proof.
  intros Hwf Hag Hstep.
  destruct Hstep as [e w s' Hrun|e w s' Hrun|e1 e2 s' Hrun|e s' Hrun].
  - destruct (increaseIcf_cases g s e w s' Hwf Hrun)
      as [->|(eb & x & heap & index & _ & _ & _ & -> & _)]; [done|].
    by apply (agree_same_bundles s).
  - destruct (increaseIcp_cases g s e w s' Hwf Hrun)
      as [->|(eb & x & heap & index & _ & _ & _ & -> & _)]; [done|].
    by apply (agree_same_bundles s).
  - destruct (merge_cases g s e1 e2 s' Hrun) as [->|(to & from & Hp)]; [done|].
    destruct (mergeEdges_run g s e1 e2 to from Hwf Hp)
      as (mf & mt & x & y & a & b & e2b & Hmf & Hmt & _ & _ & _ & _ & Hne & Heq & Hwf' &
          Hin & Hout).
    rewrite Heq in Hrun.
    pose proof (agree_merged s to from mf mt x y a b e2b Hag Hne Hmf Hmt Hin Hout) as Hag'.
    destruct (removeEdge_cases _ _ _ Hwf' Hrun)
      as [->|(_ & _ & _ & _ & He & Hb & _)]; [done|].
    by apply (agree_same_bundles (merged_state s to from mf mt x y a b e2b)).
  - unfold removeEdgeE in Hrun.
    destruct (removeEdge_cases _ _ _ Hwf Hrun)
      as [->|(_ & _ & _ & _ & He & Hb & _)]; [done|].
    by apply (agree_same_bundles s).
Qed.

Lemma agree_init s :
  graph_ok g = true → initInducedCosts g k (EdgeHeap_new g) = Some s → bundles_agree s.
Proof.
  intros Hok Hrun.
  destruct (init_run g k Hok)
    as (s0 & Hrun0 & Hwf & _ & _ & _ & _ & Hlen & _ & _ & He2b & Hbs & _).
  assert (s0 = s) as -> by congruence.
  assert (∀ r b, vget (edgeToBundle s) r = Some b → r = b ∧ r < 1 + numEdges g) as He.
  { intros r b Hr. rewrite He2b in Hr. pose proof (vget_lt _ _ _ Hr) as Hlt.
    rewrite length_upto in Hlt. unfold vget in Hr.
    rewrite lookup_upto in Hr by done. injection Hr as <-. lia. }
  assert (∀ b m, vget (edgeBundles s) b = Some m → m = [b] ∧ b < 1 + numEdges g) as Hb.
  { intros b m Hm. rewrite Hbs in Hm. pose proof (vget_lt _ _ _ Hm) as Hlt.
    rewrite length_fmap, length_upto in Hlt. unfold vget in Hm.
    rewrite list_lookup_fmap, lookup_upto in Hm by done. simpl in Hm.
    injection Hm as <-. rewrite N2Nat.id. split; [done|lia]. }
  split.
  - intros r b Hr. destruct (He r b Hr) as [<- Hlt].
    destruct (vget_ok (edgeBundles s) r) as [m Hm].
    { rewrite Hbs, length_fmap, length_upto. lia. }
    exists m. split; [done|]. destruct (Hb r m Hm) as [-> _]. by left.
  - intros b m r Hm Hr. destruct (Hb b m Hm) as [-> Hlt].
    apply list_elem_of_singleton in Hr as ->.
    destruct (vget_ok (edgeToBundle s) b) as [c Hc].
    { rewrite He2b, length_upto. lia. }
    destruct (He b c Hc) as [<- _]. done.
  - intros b m Hm. destruct (Hb b m Hm) as [-> _]. apply NoDup_singleton.
Qed.

Lemma reachable_agree s :
  graph_ok g = true → reachable g k s → bundles_agree s.
Proof.
  intros Hok Hreach. induction Hreach as [s Hrun|s s' Hreach IH Hstep].
  - by apply agree_init.
  - destruct (reachable_invariant g k s Hok Hreach) as (Hwf & _).
    by eapply agree_step.
Qed.

End Agree.

Section Safety.
Variable g : StaticSparseGraph.
Variable k : Kernel.

Lemma reachable_sizes s :
  graph_ok g = true → reachable g k s →
  wf s ∧ length (icf s) = N.to_nat (1 + numEdges g).
Proof.
  intros Hok Hreach. destruct (reachable_invariant g k s Hok Hreach) as (Hwf & _ & Hfp & _).
  split; [done|]. rewrite <- (hw_heap_len _ _ _ (wf_forb _ Hwf)), Hfp. apply length_upto.
Qed.

(** The two roles of a merge that proceeds are the bundles of the two edges. *)
Lemma merge_proceeds_bundles s e1 e2 to from :
  merge_proceeds g s e1 e2 = Some (to, from) →
  N.land (findIndexE g e1) (findIndexE g e2) ≠ 0 ∧ to ≠ from ∧
  ∃ eb1 eb2, vget (edgeToBundle s) (findIndexE g e1) = Some eb1 ∧
             vget (edgeToBundle s) (findIndexE g e2) = Some eb2 ∧
             (to = eb1 ∧ from = eb2 ∨ to = eb2 ∧ from = eb1).
Proof.
  unfold merge_proceeds, merge_roles. intros Hp.
  destruct (N.land _ _ =? 0) eqn:Hland; [done|]. apply N.eqb_neq in Hland.
  destruct (vget (edgeToBundle s) (findIndexE g e1)) as [eb1|] eqn:E1; [|done].
  destruct (vget (edgeToBundle s) (findIndexE g e2)) as [eb2|] eqn:E2; [|done].
  simpl in Hp. destruct (eb1 =? eb2) eqn:Hne; [done|]. apply N.eqb_neq in Hne.
  destruct (vget (edgeBundles s) eb1) as [m1|]; [|done].
  destruct (vget (edgeBundles s) eb2) as [m2|]; [|done].
  simpl in Hp. split; [done|].
  destruct (length m2 <? length m1)%nat; injection Hp as <- <-.
  - split; [done|]. exists eb1, eb2. eauto.
  - split; [done|]. exists eb1, eb2. eauto.
Qed.

Lemma mergeEdges_returns s e1 e2 :
  wf s →
  (N.to_nat (findIndexE g e1) < length (icf s))%nat →
  (N.to_nat (findIndexE g e2) < length (icf s))%nat →
  ∃ s', mergeEdges g s e1 e2 = Some s' ∧ wf s'.
Proof.
  intros Hwf H1 H2. pose proof Hwf as [He Hp Hf Hpm Hl2 Hr2 Hl3 Hr3].
  destruct (merge_proceeds g s e1 e2) as [[to from]|] eqn:Hpr.
  - destruct (mergeEdges_run g s e1 e2 to from Hwf Hpr)
      as (mf & mt & x & y & a & b & e2b & _ & _ & Hx & _ & _ & _ & _ & -> & Hwf' & _).
    apply removeEdge_total; [done|]. apply vget_lt in Hx. simpl.
    destruct (x <? 0)%float; simpl; rewrite ?length_insert; done.
  - exists s. split; [|done]. unfold merge_proceeds, merge_roles in Hpr.
    unfold mergeEdges. destruct (N.land _ _ =? 0); [done|].
    destruct (vget_Forall _ (edgeToBundle s) (findIndexE g e1) Hr2) as (eb1 & E1 & L1);
      [lia|].
    destruct (vget_Forall _ (edgeToBundle s) (findIndexE g e2) Hr2) as (eb2 & E2 & L2);
      [lia|].
    rewrite E1, E2 in *. simpl in *. destruct (eb1 =? eb2); [done|].
    destruct (vget_ok (edgeBundles s) eb1) as [m1 B1]; [lia|].
    destruct (vget_ok (edgeBundles s) eb2) as [m2 B2]; [lia|].
    rewrite B1, B2 in Hpr. done.
Qed.

Lemma getIcf_returns s e :
  wf s → (N.to_nat (findIndexE g e) < length (icf s))%nat →
  ∃ eb x, vget (edgeToBundle s) (findIndexE g e) = Some eb ∧ vget (icf s) eb = Some x ∧
    getIcf g s e =
      Some (x, if findIndexE g e =? 0 then print s "getIcf on edge with rank 0" else s).
Proof.
  intros Hwf Hr. pose proof Hwf as [He Hp Hf Hpm Hl2 Hr2 Hl3 Hr3].
  destruct (vget_Forall _ (edgeToBundle s) (findIndexE g e) Hr2) as (eb & Heb & Hebn);
    [lia|].
  destruct (vget_ok (icf s) eb) as [x Hx]; [done|].
  exists eb, x. split_and!; [done..|]. unfold getIcf.
  destruct (findIndexE g e =? 0); simpl; rewrite Heb; simpl; by rewrite Hx.
Qed.

Lemma getIcp_returns s e :
  wf s → (N.to_nat (findIndexE g e) < length (icf s))%nat →
  ∃ eb y, vget (edgeToBundle s) (findIndexE g e) = Some eb ∧ vget (icp s) eb = Some y ∧
    getIcp g s e =
      Some (y, if findIndexE g e =? 0 then print s "getIcf on edge with rank 0" else s).
Proof.
  intros Hwf Hr. pose proof Hwf as [He Hp Hf Hpm Hl2 Hr2 Hl3 Hr3].
  destruct (vget_Forall _ (edgeToBundle s) (findIndexE g e) Hr2) as (eb & Heb & Hebn);
    [lia|].
  destruct (vget_ok (icp s) eb) as [y Hy]; [lia|].
  exists eb, y. split_and!; [done..|]. unfold getIcp.
  destruct (findIndexE g e =? 0); simpl; rewrite Heb; simpl; by rewrite Hy.
Qed.

Lemma getMax_returns s :
  wf s → (0 < length (icf s))%nat →
  (∃ m, getMaxIcfEdge s = Some m) ∧ (∃ m, getMaxIcpEdge s = Some m).
Proof.
  intros [He Hp [_ Hfl _ Hfr _] [_ Hpl _ Hpr _] _ _ _ _] Hn.
  destruct (vget_Forall _ (forb_rank2edge s) 0 Hfr) as (fi & Hfi & Hfin); [lia|].
  destruct (vget_Forall _ (perm_rank2edge s) 0 Hpr) as (pi & Hpi & Hpin); [lia|].
  destruct (vget_ok (icf s) fi) as [xf Hxf]; [lia|].
  destruct (vget_ok (icp s) pi) as [xp Hxp]; [lia|].
  destruct (vget_ok (edges s) fi) as [ef Hef]; [lia|].
  destruct (vget_ok (edges s) pi) as [ep Hep]; [lia|].
  split.
  - unfold getMaxIcfEdge. rewrite Hfi. simpl.
    destruct (vsize (forb_rank2edge s) <=? 1); [eauto|]. rewrite Hxf. simpl.
    destruct (xf <? 0)%float; eauto.
  - unfold getMaxIcpEdge. rewrite Hpi. simpl.
    destruct (vsize (perm_rank2edge s) <=? 1); [eauto|]. rewrite Hxp. simpl.
    destruct (xp <? 0)%float; eauto.
Qed.

(** X10. In every state reachable from [initInducedCosts] the bundle map and
    the member lists describe one partition of the ranks: every rank up to
    [numEdges] is a member of the bundle [edgeToBundle] names for it, every
    member of a bundle is mapped to that bundle, and no member list holds a
    rank twice. *)
Theorem bundles_partition (s : EdgeHeap) :
  graph_ok g = true → reachable g k s →
  (∀ r, r ≤ numEdges g →
     ∃ b m, vget (edgeToBundle s) r = Some b ∧ vget (edgeBundles s) b = Some m ∧ r ∈ m) ∧
  (∀ b m r, vget (edgeBundles s) b = Some m → r ∈ m → vget (edgeToBundle s) r = Some b) ∧
  (∀ b m, vget (edgeBundles s) b = Some m → NoDup m).
Proof.
  intros Hok Hreach. destruct (reachable_sizes s Hok Hreach) as [Hwf Hlen].
  destruct (reachable_agree g k s Hok Hreach) as [Hmem Hown Hnd].
  split_and!; [|done..].
  intros r Hr. destruct (vget_ok (edgeToBundle s) r) as [b Hb].
  { rewrite (wf_e2b_len _ Hwf). lia. }
  destruct (Hmem r b Hb) as (m & Hm & Hin). eauto.
Qed.

(** X11. A merge that proceeds in a reachable state returns and unifies the
    two edges: both now resolve to the surviving bundle, the absorbed
    bundle's member list is empty, [getIcf] and [getIcp] answer the same
    value for both edges (and print nothing), and merging the same two
    edges again changes nothing. *)
Theorem merge_unifies (s : EdgeHeap) (e1 e2 : Edge) (to from : RankId) :
  graph_ok g = true → reachable g k s →
  merge_proceeds g s e1 e2 = Some (to, from) →
  ∃ s' x y,
    mergeEdges g s e1 e2 = Some s' ∧
    vget (edgeToBundle s') (findIndexE g e1) = Some to ∧
    vget (edgeToBundle s') (findIndexE g e2) = Some to ∧
    vget (edgeBundles s') from = Some [] ∧
    getIcf g s' e1 = Some (x, s') ∧ getIcf g s' e2 = Some (x, s') ∧
    getIcp g s' e1 = Some (y, s') ∧ getIcp g s' e2 = Some (y, s') ∧
    mergeEdges g s' e1 e2 = Some s'.
Proof.
  intros Hok Hreach Hpr. destruct (reachable_sizes s Hok Hreach) as [Hwf Hlen].
  destruct (reachable_agree g k s Hok Hreach) as [Hmem Hown Hnd].
  destruct (merge_proceeds_bundles s e1 e2 to from Hpr)
    as (Hland & Hne & eb1 & eb2 & E1 & E2 & Hroles).
  destruct (mergeEdges_run g s e1 e2 to from Hwf Hpr)
    as (mf & mt & x0 & y0 & a & b & e2b & Hmf & Hmt & Hx & _ & _ & _ & _ & Heq & Hwf' &
        Hin & Hout).
  set (sm := merged_state s to from mf mt x0 y0 a b e2b) in *.
  assert (length (icf sm) = length (icf s)) as Hlm.
  { subst sm. simpl. destruct (x0 <? 0)%float; rewrite ?length_insert; done. }
  destruct (removeEdge_total sm from Hwf') as (s' & Hrun & Hwfs').
  { apply vget_lt in Hx. lia. }
  assert (edgeToBundle s' = e2b ∧ edgeBundles s' = edgeBundles sm ∧
          length (icf s') = length (icf s)) as (He' & Hb' & Hl').
  { destruct (removeEdge_cases _ _ _ Hwf' Hrun)
      as [->|(_ & _ & Hf & _ & He & Hb & _)]; [done|].
    split_and!; [done..|]. by rewrite Hf, length_insert. }
  assert (∀ r eb, vget (edgeToBundle s) r = Some eb → (eb = to ∨ eb = from) →
                  vget e2b r = Some to) as Hres.
  { intros r eb Hr [->| ->].
    - destruct (Hmem r to Hr) as (m & Hm & Hrm).
      rewrite Hout; [done|]. intros Hrf. apply (Hown _ _ _ Hmf) in Hrf. congruence.
    - destruct (Hmem r from Hr) as (m & Hm & Hrm). apply Hin. congruence. }
  assert (vget e2b (findIndexE g e1) = Some to) as R1.
  { apply (Hres _ eb1 E1). destruct Hroles as [[-> ->]|[-> ->]]; eauto. }
  assert (vget e2b (findIndexE g e2) = Some to) as R2.
  { apply (Hres _ eb2 E2). destruct Hroles as [[-> ->]|[-> ->]]; eauto. }
  assert (findIndexE g e1 ≠ 0 ∧ findIndexE g e2 ≠ 0) as [N1 N2].
  { split; intros H0; rewrite H0 in Hland; apply Hland;
      [apply N.land_0_l|apply N.land_0_r]. }
  apply N.eqb_neq in N1, N2.
  assert (N.to_nat to < length (icf s))%nat as Lto by (apply vget_lt in Hmt; destruct Hwf; lia).
  destruct (vget_ok (icf s') to) as [x Hxs]; [lia|].
  destruct (vget_ok (icp s') to) as [y Hys]; [rewrite (wf_icp _ Hwfs'); lia|].
  exists s', x, y. rewrite Heq, He', Hb'. split_and!; try done.
  - subst sm. simpl. unfold vget. apply list_lookup_insert_eq.
    rewrite length_insert. by eapply vget_lt.
  - unfold getIcf. rewrite N1, He', R1. simpl. by rewrite Hxs.
  - unfold getIcf. rewrite N2, He', R2. simpl. by rewrite Hxs.
  - unfold getIcp. rewrite N1, He', R1. simpl. by rewrite Hys.
  - unfold getIcp. rewrite N2, He', R2. simpl. by rewrite Hys.
  - unfold mergeEdges. apply N.eqb_neq in Hland. rewrite Hland, He', R1, R2. simpl.
    by rewrite N.eqb_refl.
Qed.

(** X12. No operation reads or writes outside a vector in a reachable state:
    for edges whose rank is at most [numEdges], each of [increaseIcf],
    [increaseIcp], [removeEdge], [mergeEdges], [getIcf], [getIcp],
    [getMaxIcfEdge] and [getMaxIcpEdge] returns, and the states the mutators
    return are reachable again. *)
Theorem reachable_safe (s : EdgeHeap) (e e' : Edge) (w : EdgeWeight) :
  graph_ok g = true → reachable g k s →
  findIndexE g e ≤ numEdges g → findIndexE g e' ≤ numEdges g →
  (∃ s', increaseIcf g s e w = Some s' ∧ reachable g k s') ∧
  (∃ s', increaseIcp g s e w = Some s' ∧ reachable g k s') ∧
  (∃ s', removeEdgeE g s e = Some s' ∧ reachable g k s') ∧
  (∃ s', mergeEdges g s e e' = Some s' ∧ reachable g k s') ∧
  (∃ x s', getIcf g s e = Some (x, s')) ∧
  (∃ y s', getIcp g s e = Some (y, s')) ∧
  (∃ m, getMaxIcfEdge s = Some m) ∧
  (∃ m, getMaxIcpEdge s = Some m).
Proof.
  intros Hok Hreach He He'. destruct (reachable_sizes s Hok Hreach) as [Hwf Hlen].
  assert (N.to_nat (findIndexE g e) < length (icf s))%nat as Hr by lia.
  assert (N.to_nat (findIndexE g e') < length (icf s))%nat as Hr' by lia.
  split_and!.
  - destruct (increaseIcf_returns g s e w Hwf Hr) as (s' & Hrun & _).
    exists s'. split; [done|]. eapply reach_step; [done|]. by eapply step_increaseIcf.
  - destruct (increaseIcp_returns g s e w Hwf Hr) as (s' & Hrun & _).
    exists s'. split; [done|]. eapply reach_step; [done|]. by eapply step_increaseIcp.
  - destruct (removeEdge_total s (findIndexE g e) Hwf Hr) as (s' & Hrun & _).
    exists s'. split; [done|]. eapply reach_step; [done|]. by eapply step_removeEdge.
  - destruct (mergeEdges_returns s e e' Hwf Hr Hr') as (s' & Hrun & _).
    exists s'. split; [done|]. eapply reach_step; [done|]. by eapply step_mergeEdges.
  - destruct (getIcf_returns s e Hwf Hr) as (eb & x & _ & _ & Hg). eauto.
  - destruct (getIcp_returns s e Hwf Hr) as (eb & y & _ & _ & Hg). eauto.
  - apply getMax_returns; [done|lia].
  - apply getMax_returns; [done|lia].
Qed.

End Safety.

Section Corners.
Variable g : StaticSparseGraph.
Variable k : Kernel.

(** X13. On a freshly constructed engine, before [initInducedCosts], the
    heap arrays are empty: both max-queries read slot 0 outside the array
    (the read of line 115 / 138 precedes the size test), while
    [increaseIcf], [increaseIcp], [removeEdge] and [mergeEdges] change
    nothing and [numUnprocessed] is 0. *)
Theorem fresh_engine (e e' : Edge) (w : EdgeWeight) :
  findIndexE g e ≤ numEdges g → findIndexE g e' ≤ numEdges g →
  getMaxIcfEdge (EdgeHeap_new g) = None ∧
  getMaxIcpEdge (EdgeHeap_new g) = None ∧
  increaseIcf g (EdgeHeap_new g) e w = Some (EdgeHeap_new g) ∧
  increaseIcp g (EdgeHeap_new g) e w = Some (EdgeHeap_new g) ∧
  removeEdgeE g (EdgeHeap_new g) e = Some (EdgeHeap_new g) ∧
  mergeEdges g (EdgeHeap_new g) e e' = Some (EdgeHeap_new g) ∧
  numUnprocessed (EdgeHeap_new g) = 0.
Proof.
  intros He He'.
  assert (∀ {A} (x : A) (r : N), r ≤ numEdges g →
            vget (replicate (N.to_nat (1 + numEdges g)) x) r = Some x) as Hrep.
  { intros A x r Hr. unfold vget. apply lookup_replicate_2. lia. }
  split_and!; try done.
  - unfold increaseIcf. cbn [EdgeHeap_new edgeToBundle icf].
    destruct ((0 <? findIndexE g e) && fneq w 0); [|done].
    rewrite (Hrep _ 0 _ He). simpl. rewrite (Hrep _ Forbidden 0) by lia. done.
  - unfold increaseIcp. cbn [EdgeHeap_new edgeToBundle icp].
    destruct ((0 <? findIndexE g e) && fneq w 0); [|done].
    rewrite (Hrep _ 0 _ He). simpl. rewrite (Hrep _ Forbidden 0) by lia. done.
  - unfold removeEdgeE, removeEdge. cbn [EdgeHeap_new icf icp].
    destruct (findIndexE g e =? 0); [done|]. destruct (0 <? findIndexE g e); [|done].
    rewrite (Hrep _ Forbidden _ He). done.
  - unfold mergeEdges. cbn [EdgeHeap_new edgeToBundle].
    destruct (N.land _ _ =? 0); [done|].
    rewrite (Hrep _ 0 _ He), (Hrep _ 0 _ He'). done.
Qed.

(** X14. In a reachable state, looking up an edge of rank 0 (an edge the
    graph does not know) answers the [Forbidden] sentinel and prints one
    line; [getIcp] prints the same line as [getIcf],
    ["getIcf on edge with rank 0"]. *)
Theorem lookup_rank0 (s : EdgeHeap) (e : Edge) :
  graph_ok g = true → reachable g k s →
  findIndexE g e = 0 →
  getIcf g s e = Some (Forbidden, print s "getIcf on edge with rank 0") ∧
  getIcp g s e = Some (Forbidden, print s "getIcf on edge with rank 0").
Proof.
  intros Hok Hreach H0.
  destruct (reachable_invariant g k s Hok Hreach) as (_ & [Hf Hp Hb _ _ _ _ _] & _).
  unfold getIcf, getIcp. rewrite H0. cbn [N.eqb print edgeToBundle icf icp].
  rewrite Hb. simpl. by rewrite Hf, Hp.
Qed.

Lemma increaseIcf_dead_entry s s' e w j x :
  vget (icf s) j = Some x → (0 <=? x)%float = false →
  increaseIcf g s e w = Some s' → vget (icf s') j = Some x.
Proof.
  intros Hj Hx Hrun. unfold increaseIcf in Hrun.
  destruct ((0 <? findIndexE g e) && fneq w 0); simpl in Hrun; [|congruence].
  destruct (vget (edgeToBundle s) (findIndexE g e)) as [eb|] eqn:Heb; [|done].
  simpl in Hrun. destruct (vget (icf s) eb) as [v|] eqn:Hv; [|done].
  simpl in Hrun. destruct (0 <=? v)%float eqn:Hlive; [|congruence].
  assert (j ≠ eb) as Hne by (intros ->; congruence).
  pose proof (vget_lt _ _ _ Hv) as Hlt.
  rewrite (vset_ok (icf s)) in Hrun by done. simpl in Hrun.
  unfold vget at 1 in Hrun. rewrite list_lookup_insert_eq in Hrun by done.
  simpl in Hrun. rewrite vset_ok in Hrun by (by rewrite length_insert).
  simpl in Hrun. rewrite list_insert_insert_eq in Hrun.
  destruct (updateHeap _ _ _ _ _) as [[heap index]|]; [|done]. simpl in Hrun.
  injection Hrun as <-. simpl. unfold vget. rewrite list_lookup_insert_ne by lia. done.
Qed.

Lemma increaseIcp_dead_entry s s' e w j y :
  vget (icp s) j = Some y → (0 <=? y)%float = false →
  increaseIcp g s e w = Some s' → vget (icp s') j = Some y.
Proof.
  intros Hj Hy Hrun. unfold increaseIcp in Hrun.
  destruct ((0 <? findIndexE g e) && fneq w 0); simpl in Hrun; [|congruence].
  destruct (vget (edgeToBundle s) (findIndexE g e)) as [eb|] eqn:Heb; [|done].
  simpl in Hrun. destruct (vget (icp s) eb) as [v|] eqn:Hv; [|done].
  simpl in Hrun. destruct (0 <=? v)%float eqn:Hlive; [|congruence].
  assert (j ≠ eb) as Hne by (intros ->; congruence).
  pose proof (vget_lt _ _ _ Hv) as Hlt.
  rewrite (vset_ok (icp s)) in Hrun by done. simpl in Hrun.
  unfold vget at 1 in Hrun. rewrite list_lookup_insert_eq in Hrun by done.
  simpl in Hrun. rewrite vset_ok in Hrun by (by rewrite length_insert).
  simpl in Hrun. rewrite list_insert_insert_eq in Hrun.
  destruct (updateHeap _ _ _ _ _) as [[heap index]|]; [|done]. simpl in Hrun.
  injection Hrun as <-. simpl. unfold vget. rewrite list_lookup_insert_ne by lia. done.
Qed.

(** X15. [increaseIcf] and [increaseIcp] never revive an entry: on a
    well-formed state, whatever the edge (of a rank inside the tables) and
    the delta, [increaseIcf] returns and every entry of [icf] whose value
    is not [>= 0] (a removed entry holding [Forbidden], any negative value,
    a NaN) keeps its value, whatever its [icp] value is; the call changes
    neither [icp] nor [unprocessed].  Likewise for [increaseIcp] and the
    entries of [icp]. *)
Theorem increase_never_revives (s : EdgeHeap) (e : Edge) (w : EdgeWeight) :
  well_formed s = true →
  findIndexE g e < vsize (icf s) →
  (∃ s', increaseIcf g s e w = Some s' ∧
         icp s' = icp s ∧ unprocessed s' = unprocessed s ∧
         ∀ j x, vget (icf s) j = Some x → (0 <=? x)%float = false →
                vget (icf s') j = Some x) ∧
  (∃ s', increaseIcp g s e w = Some s' ∧
         icf s' = icf s ∧ unprocessed s' = unprocessed s ∧
         ∀ j y, vget (icp s) j = Some y → (0 <=? y)%float = false →
                vget (icp s') j = Some y).
Proof.
  intros Hwf%well_formed_wf Hr. unfold vsize in Hr. split.
  - destruct (increaseIcf_returns g s e w Hwf) as (s' & Hrun & _); [lia|].
    exists s'. split; [done|].
    split_and!; [| |intros j x Hx Hdx; by eapply increaseIcf_dead_entry].
    all: destruct (increaseIcf_cases g s e w s' Hwf Hrun)
      as [->|(eb & v & heap & index & _ & _ & _ & -> & _)]; done.
  - destruct (increaseIcp_returns g s e w Hwf) as (s' & Hrun & _); [lia|].
    exists s'. split; [done|].
    split_and!; [| |intros j y Hy Hdy; by eapply increaseIcp_dead_entry].
    all: destruct (increaseIcp_cases g s e w s' Hwf Hrun)
      as [->|(eb & v & heap & index & _ & _ & _ & -> & _)]; done.
Qed.

(** X18. A cost increase is seen through every edge of the bundle: on a
    well-formed state, if two edges of non-zero rank resolve to the same
    bundle and the bundle's icf value [x] is live ([>= 0], whatever its icp
    value), then after [increaseIcf] on the first edge with a delta
    [w != 0] the look-up [getIcf] of the second edge answers
    [max (x + w) 0] and [getIcp] answers what it answered before; neither
    look-up prints.  Likewise for [increaseIcp] when the bundle's icp value
    is live, whatever its icf value. *)
Theorem increase_then_get (s : EdgeHeap) (e1 e2 : Edge) (w : EdgeWeight)
    (eb : RankId) :
  well_formed s = true →
  0 < findIndexE g e1 → 0 < findIndexE g e2 →
  fneq w 0 = true →
  vget (edgeToBundle s) (findIndexE g e1) = Some eb →
  vget (edgeToBundle s) (findIndexE g e2) = Some eb →
  (∀ x, vget (icf s) eb = Some x → (0 <=? x)%float = true →
     ∃ s' y, increaseIcf g s e1 w = Some s' ∧
             getIcf g s' e2 = Some (fmax (x + w) 0, s') ∧
             getIcp g s e2 = Some (y, s) ∧ getIcp g s' e2 = Some (y, s')) ∧
  (∀ y, vget (icp s) eb = Some y → (0 <=? y)%float = true →
     ∃ s' x, increaseIcp g s e1 w = Some s' ∧
             getIcp g s' e2 = Some (fmax (y + w) 0, s') ∧
             getIcf g s e2 = Some (x, s) ∧ getIcf g s' e2 = Some (x, s')).
Proof.
  intros Hwf%well_formed_wf H1 H2 Hw E1 E2.
  assert ((findIndexE g e2 =? 0) = false) as Hnz by (apply N.eqb_neq; lia).
  assert (N.to_nat eb < length (icf s))%nat as Leb.
  { pose proof (wf_e2b _ Hwf) as Hr. unfold ranks_ok in Hr.
    rewrite Forall_lookup in Hr. exact (Hr _ _ E1). }
  split.
  - intros x Hx Hlx.
    destruct (vget_ok (icp s) eb) as [y Hy]; [rewrite (wf_icp _ Hwf); lia|].
    destruct (increaseIcf_live g s e1 w eb x) as (heap & index & Hrun & _); try done.
    eexists _, y. split; [exact Hrun|]. unfold getIcf, getIcp. rewrite Hnz.
    cbn [edgeToBundle icf icp set_forb set_icf]. rewrite E2. simpl.
    unfold vget at 1. rewrite list_lookup_insert_eq by done. simpl. by rewrite Hy.
  - intros y Hy Hly.
    destruct (vget_ok (icf s) eb) as [x Hx]; [lia|].
    destruct (increaseIcp_live g s e1 w eb y) as (heap & index & Hrun & _); try done.
    eexists _, x. split; [exact Hrun|]. unfold getIcf, getIcp. rewrite Hnz.
    cbn [edgeToBundle icf icp set_perm set_icp]. rewrite E2. simpl.
    unfold vget at 1. rewrite list_lookup_insert_eq; [|rewrite (wf_icp _ Hwf); lia].
    simpl. by rewrite Hx.
Qed.

Lemma removeEdge_unprocessed s r s' :
  removeEdge s r = Some s' →
  unprocessed s' = unprocessed s ∨ unprocessed s' = u64_pred (unprocessed s).
Proof.
  unfold removeEdge. intros Hrun.
  destruct (r =? 0); [left; congruence|].
  apply bind_Some in Hrun as (c & _ & Hrun). destruct c; [|left; congruence].
  inv_run Hrun. subst s'. by right.
Qed.

(** X17. One call of a mutator changes [unprocessed] by at most one
    decrement in [uint64_t] arithmetic: on a well-formed state the counter
    is left as it is or replaced by its [uint64_t] predecessor.  A positive
    counter thus stays or drops by exactly one; the decrement of line 255
    is not guarded, so a counter of 0 stays 0 or wraps to [2^64 - 1]. *)
Theorem unprocessed_step (s s' : EdgeHeap) :
  well_formed s = true → step g s s' →
  (unprocessed s' = unprocessed s ∨ unprocessed s' = u64_pred (unprocessed s)) ∧
  (0 < unprocessed s < 2 ^ 64 →
     unprocessed s' = unprocessed s ∨ unprocessed s' + 1 = unprocessed s) ∧
  (unprocessed s = 0 → unprocessed s' = 0 ∨ unprocessed s' = 2 ^ 64 - 1).
Proof.
  intros Hwf%well_formed_wf Hstep.
  assert (unprocessed s' = unprocessed s ∨ unprocessed s' = u64_pred (unprocessed s))
    as Hun.
  { destruct Hstep as [e w s' Hrun|e w s' Hrun|e1 e2 s' Hrun|e s' Hrun].
    - destruct (increaseIcf_cases g s e w s' Hwf Hrun)
        as [->|(eb & x & heap & index & _ & _ & _ & -> & _)]; by left.
    - destruct (increaseIcp_cases g s e w s' Hwf Hrun)
        as [->|(eb & x & heap & index & _ & _ & _ & -> & _)]; by left.
    - destruct (merge_cases g s e1 e2 s' Hrun) as [->|(to & from & Hp)]; [by left|].
      destruct (mergeEdges_run g s e1 e2 to from Hwf Hp)
        as (mf & mt & x & y & a & b & e2b & _ & _ & _ & _ & _ & _ & _ & Heq & _).
      rewrite Heq in Hrun. by apply removeEdge_unprocessed in Hrun.
    - by apply removeEdge_unprocessed in Hrun. }
  split; [done|]. split.
  - intros [Hpos Hmax]. destruct Hun as [->| ->]; [by left|right].
    rewrite u64_pred_pos by done. lia.
  - intros H0. destruct Hun as [->| ->]; [by left|right]. by rewrite H0.
Qed.

End Corners.

Section NanReport.
Variable g : StaticSparseGraph.
Variable k : Kernel.

(** What the diagnostic sweep found. *)
Lemma nanSweep_report s l s' :
  nanSweep g s l = Some s' →
  (s' = s ∧
   ∀ i, i ∈ l → ∃ x y, vget (icf s) (findIndex g i) = Some x ∧ is_nan x = false ∧
                       vget (icp s) (findIndex g i) = Some y ∧ is_nan y = false) ∨
  (s' = print s "NaN! in icf" ∧
   ∃ r x, vget (icf s) r = Some x ∧ is_nan x = true) ∨
  (s' = print s "NaN! in icp" ∧
   ∃ r y, vget (icp s) r = Some y ∧ is_nan y = true).
Proof.
  induction l as [|i l IH]; simpl; intros Hrun.
  - injection Hrun as <-. left. split; [done|]. by intros i ?%elem_of_nil.
  - destruct (vget (icf s) (findIndex g i)) as [x|] eqn:Hx; [|done]. simpl in Hrun.
    destruct (is_nan x) eqn:Hnx.
    { injection Hrun as <-. right. left. eauto. }
    destruct (vget (icp s) (findIndex g i)) as [y|] eqn:Hy; [|done]. simpl in Hrun.
    destruct (is_nan y) eqn:Hny.
    { injection Hrun as <-. right. right. eauto. }
    destruct (IH Hrun) as [[-> Hclean]|H]; [|by right].
    left. split; [done|]. intros j [->|Hj]%elem_of_cons; [eauto 10|by apply Hclean].
Qed.

(** X16. The NaN report of [initInducedCosts] is sound and printed at most
    once (for a graph of fewer than [2^32] ranks, the range of the loop
    counter): the call returns a state that either printed nothing, and
    then the entries at the ranks of the edge ids [0 .. numEdges] are no
    NaN in either table, or printed the one line ["NaN! in icf"], and then
    [icf] holds a NaN, or printed the one line ["NaN! in icp"], and then
    [icp] holds a NaN. *)
Theorem init_nan_report :
  graph_ok g = true →
  1 + numEdges g < 2 ^ 32 →
  ∃ s, initInducedCosts g k (EdgeHeap_new g) = Some s ∧
    ((cout s = [] ∧
      ∀ i, i ≤ numEdges g →
        ∃ x y, vget (icf s) (findIndex g i) = Some x ∧ is_nan x = false ∧
               vget (icp s) (findIndex g i) = Some y ∧ is_nan y = false) ∨
     (cout s = ["NaN! in icf"] ∧ ∃ r x, vget (icf s) r = Some x ∧ is_nan x = true) ∨
     (cout s = ["NaN! in icp"] ∧ ∃ r y, vget (icp s) r = Some y ∧ is_nan y = true)).
Proof.
  intros Hok _.
  destruct (init_run g k Hok)
    as (s & Hrun & _ & _ & _ & Hicf & Hicp & _ & _ & _ & _ & _ & _ & _ & _ &
        s2 & Hsweep & Hcout).
  exists s. split; [done|]. rewrite Hcout, Hicf, Hicp.
  destruct (costs_frame g k (pairs g) (EdgeHeap_new g)) as (_ & _ & _ & _ & _ & _ & Hc).
  fold (costs_result g k (EdgeHeap_new g)) in Hc. simpl in Hc.
  destruct (nanSweep_report _ _ _ Hsweep) as [[-> Hclean]|[[-> Hnan]|[-> Hnan]]].
  - left. split; [done|]. intros i Hi. apply Hclean, elem_of_upto. lia.
  - right. left. split; [|done]. simpl. by rewrite Hc.
  - right. right. split; [|done]. simpl. by rewrite Hc.
Qed.

End NanReport.

Lemma bundles_partition_witness :
  ∃ b m, vget (edgeToBundle Sample.star_merged) 2 = Some b ∧
         vget (edgeBundles Sample.star_merged) b = Some m ∧ 2 ∈ m.
Proof.
  destruct (bundles_partition Sample.star Sample.wce Sample.star_merged) as (H & _).
  - vm_compute. reflexivity.
  - apply reach_step with Sample.star0.
    + apply reach_init. vm_compute. reflexivity.
    + apply step_mergeEdges with (MkEdge 0 2) (MkEdge 0 3). vm_compute. reflexivity.
  - apply (H 2). vm_compute. discriminate.
Defined.

Lemma merge_unifies_witness :
  ∃ s', mergeEdges Sample.star Sample.star0 (MkEdge 0 2) (MkEdge 0 3) = Some s' ∧
        vget (edgeToBundle s') 2 = Some 3 ∧ vget (edgeToBundle s') 3 = Some 3 ∧
        mergeEdges Sample.star s' (MkEdge 0 2) (MkEdge 0 3) = Some s'.
Proof.
  destruct (merge_unifies Sample.star Sample.wce Sample.star0 (MkEdge 0 2) (MkEdge 0 3) 3 2)
    as (s' & x & y & Hrun & H1 & H2 & _ & _ & _ & _ & _ & Hagain).
  - vm_compute. reflexivity.
  - apply reach_init. vm_compute. reflexivity.
  - vm_compute. reflexivity.
  - exists s'. split; [exact Hrun|]. split; [exact H1|]. split; [exact H2|exact Hagain].
Defined.

Lemma reachable_safe_witness :
  (∃ s', mergeEdges Sample.star Sample.star0 (MkEdge 0 1) (MkEdge 0 3) = Some s' ∧
         reachable Sample.star Sample.wce s') ∧
  (∃ m, getMaxIcfEdge Sample.star0 = Some m).
Proof.
  destruct (reachable_safe Sample.star Sample.wce Sample.star0 (MkEdge 0 1) (MkEdge 0 3)
              1%float) as (_ & _ & _ & Hm & _ & _ & Hf & _).
  - vm_compute. reflexivity.
  - apply reach_init. vm_compute. reflexivity.
  - vm_compute. discriminate.
  - vm_compute. discriminate.
  - split; [exact Hm|exact Hf].
Defined.

Lemma fresh_engine_witness :
  getMaxIcfEdge (EdgeHeap_new Sample.star) = None ∧
  removeEdgeE Sample.star (EdgeHeap_new Sample.star) (MkEdge 0 1)
    = Some (EdgeHeap_new Sample.star).
Proof.
  destruct (fresh_engine Sample.star (MkEdge 0 1) (MkEdge 0 2) 1%float)
    as (Hf & _ & _ & _ & Hr & _).
  - vm_compute. discriminate.
  - vm_compute. discriminate.
  - split; [exact Hf|exact Hr].
Defined.

Lemma lookup_rank0_witness :
  getIcp Sample.star Sample.star0 (MkEdge 1 2)
    = Some (Forbidden, print Sample.star0 "getIcf on edge with rank 0").
Proof.
  destruct (lookup_rank0 Sample.star Sample.wce Sample.star0 (MkEdge 1 2)) as [_ H].
  - vm_compute. reflexivity.
  - apply reach_init. vm_compute. reflexivity.
  - vm_compute. reflexivity.
  - exact H.
Defined.

Lemma increase_never_revives_witness :
  vget (icf Sample.star_nan2) 2 = Some nan ∧ vget (icp Sample.star_nan2) 2 = Some 0%float ∧
  ∃ s', increaseIcf Sample.star Sample.star_nan2 (MkEdge 0 2) 5%float = Some s' ∧
        vget (icf s') 2 = Some nan.
Proof.
  split; [reflexivity|]. split; [reflexivity|].
  destruct (increase_never_revives Sample.star Sample.star_nan2 (MkEdge 0 2) 5%float)
    as [(s' & Hrun & _ & _ & Hv) _]; [vm_compute; reflexivity..|].
  exists s'. split; [exact Hrun|]. apply Hv; vm_compute; reflexivity.
Defined.

Lemma unprocessed_step_witness :
  (unprocessed Sample.star0 = 3 ∧
   (unprocessed Sample.star_less3 = 3 ∨ unprocessed Sample.star_less3 + 1 = 3)) ∧
  (unprocessed Sample.star_drained = 0 ∧
   (unprocessed Sample.star_wrapped = 0 ∨ unprocessed Sample.star_wrapped = 2 ^ 64 - 1)).
Proof.
  split.
  - split; [reflexivity|].
    destruct (unprocessed_step Sample.star Sample.star0 Sample.star_less3) as (_ & H & _).
    + vm_compute. reflexivity.
    + apply step_removeEdge with (MkEdge 0 3). vm_compute. reflexivity.
    + apply H. vm_compute. split; reflexivity.
  - split; [reflexivity|].
    destruct (unprocessed_step Sample.star Sample.star_drained Sample.star_wrapped)
      as (_ & _ & H).
    + vm_compute. reflexivity.
    + apply step_removeEdge with (MkEdge 0 3). vm_compute. reflexivity.
    + apply H. reflexivity.
Defined.

Lemma increase_then_get_witness :
  (∃ s', increaseIcf Sample.star Sample.star_merged (MkEdge 0 2) 1%float = Some s' ∧
         getIcf Sample.star s' (MkEdge 0 3) = Some (8%float, s')) ∧
  (vget (icf Sample.star_nan2) 2 = Some nan ∧
   ∃ s', increaseIcp Sample.star Sample.star_nan2 (MkEdge 0 2) 5%float = Some s' ∧
         getIcp Sample.star s' (MkEdge 0 2) = Some (5%float, s')).
Proof.
  split.
  - destruct (increase_then_get Sample.star Sample.star_merged (MkEdge 0 2) (MkEdge 0 3)
                1%float 3) as [H _]; [vm_compute; reflexivity..|].
    destruct (H 7%float) as (s' & y & Hrun & Hget & _); [vm_compute; reflexivity..|].
    exists s'. split; [exact Hrun|exact Hget].
  - split; [reflexivity|].
    destruct (increase_then_get Sample.star Sample.star_nan2 (MkEdge 0 2) (MkEdge 0 2)
                5%float 2) as [_ H]; [vm_compute; reflexivity..|].
    destruct (H 0%float) as (s' & x & Hrun & Hget & _); [vm_compute; reflexivity..|].
    exists s'. split; [exact Hrun|exact Hget].
Defined.

Lemma init_nan_report_witness :
  ∃ s, initInducedCosts Sample.scenario Sample.wce (EdgeHeap_new Sample.scenario) = Some s ∧
    ((cout s = [] ∧
      ∀ i, i ≤ numEdges Sample.scenario →
        ∃ x y, vget (icf s) (findIndex Sample.scenario i) = Some x ∧ is_nan x = false ∧
               vget (icp s) (findIndex Sample.scenario i) = Some y ∧ is_nan y = false) ∨
     (cout s = ["NaN! in icf"] ∧ ∃ r x, vget (icf s) r = Some x ∧ is_nan x = true) ∨
     (cout s = ["NaN! in icp"] ∧ ∃ r y, vget (icp s) r = Some y ∧ is_nan y = true)).
Proof.
  apply (init_nan_report Sample.scenario Sample.wce); vm_compute; reflexivity.
Defined.

(** ** The edge table and the answers of the max-queries *)

Section EdgeTable.
Variable g : StaticSparseGraph.
Variable k : Kernel.

Lemma edges_ranked_insert s (u v : NodeId) :
  edges_ranked g s → rank_uv g u v ≠ 0 →
  ∀ r e, vget (<[N.to_nat (rank_uv g u v) := MkEdge u v]> (edges s)) r = Some e →
         e = InvalidEdge ∨ (findIndexE g e = r ∧ r ≠ 0).
Proof.
  intros Hs Hne r e Hr. unfold vget in Hr.
  destruct (decide (r = rank_uv g u v)) as [->|Hd].
  - apply list_lookup_insert_Some in Hr as [(_ & <- & _)|(Hc & _)]; [|done].
    right. done.
  - rewrite list_lookup_insert_ne in Hr by lia. by apply Hs.
Qed.

Lemma edges_ranked_costs L : ∀ s,
  edges_ranked g s → edges_ranked g (fold_left (initEdge_result g k) L s).
Proof.
  induction L as [|p L IH]; intros s Hs; [done|]. simpl. apply IH.
  unfold initEdge_result. destruct (ranked g p) eqn:Hr; [|done].
  assert (rank_uv g p.1 p.2 ≠ 0) as Hne.
  { unfold ranked in Hr. apply andb_true_iff in Hr as [_ Hr].
    apply negb_true_iff in Hr. by apply N.eqb_neq. }
  destruct (plain _); intros r e; simpl; by apply edges_ranked_insert.
Qed.

Lemma edges_step s s' : wf s → step g s s' → edges s' = edges s.
Proof.
  intros Hwf Hstep.
  destruct Hstep as [e w s' Hrun|e w s' Hrun|e1 e2 s' Hrun|e s' Hrun].
  - by destruct (increaseIcf_cases g s e w s' Hwf Hrun)
      as [->|(eb & x & heap & index & _ & _ & _ & -> & _)].
  - by destruct (increaseIcp_cases g s e w s' Hwf Hrun)
      as [->|(eb & x & heap & index & _ & _ & _ & -> & _)].
  - destruct (merge_cases g s e1 e2 s' Hrun) as [->|(to & from & Hp)]; [done|].
    destruct (mergeEdges_run g s e1 e2 to from Hwf Hp)
      as (mf & mt & x & y & a & b & e2b & _ & _ & _ & _ & _ & _ & _ & Heq & _).
    rewrite Heq in Hrun. by apply removeEdge_frame in Hrun as (_ & -> & _).
  - by apply removeEdge_frame in Hrun as (_ & -> & _).
Qed.

Lemma reachable_edges s :
  graph_ok g = true → reachable g k s → edges_ranked g s.
Proof.
  intros Hok Hreach. induction Hreach as [s Hrun|s s' Hreach IH Hstep].
  - destruct (init_run g k Hok) as (s0 & Hrun0 & _ & _ & He & _).
    assert (s0 = s) as -> by congruence. unfold edges_ranked. rewrite He.
    apply edges_ranked_costs. intros r e Hr. left. simpl in Hr.
    unfold vget in Hr. by apply lookup_replicate in Hr as [-> _].
  - destruct (reachable_invariant g k s Hok Hreach) as (Hwf & _).
    unfold edges_ranked. rewrite (edges_step s s' Hwf Hstep). by apply IH.
Qed.

(** X19. In every reachable state the edge table maps a rank to
    [InvalidEdge] or to an edge of that rank, so the max-queries name the
    heap top: both return, and an answer other than [InvalidEdge] is an edge
    whose rank is non-zero, sits at slot 0 of the heap and holds a value
    that is not negative. *)
Theorem max_edge_rank (s : EdgeHeap) :
  graph_ok g = true → reachable g k s →
  (∀ r e, vget (edges s) r = Some e → e = InvalidEdge ∨ findIndexE g e = r) ∧
  ∃ ef ep,
    getMaxIcfEdge s = Some ef ∧ getMaxIcpEdge s = Some ep ∧
    (ef = InvalidEdge ∨
     ∃ x, vget (forb_rank2edge s) 0 = Some (findIndexE g ef) ∧ findIndexE g ef ≠ 0 ∧
          vget (icf s) (findIndexE g ef) = Some x ∧ (x <? 0)%float = false) ∧
    (ep = InvalidEdge ∨
     ∃ y, vget (perm_rank2edge s) 0 = Some (findIndexE g ep) ∧ findIndexE g ep ≠ 0 ∧
          vget (icp s) (findIndexE g ep) = Some y ∧ (y <? 0)%float = false).
Proof.
  intros Hok Hreach. pose proof (reachable_edges s Hok Hreach) as Hed.
  destruct (reachable_sizes g k s Hok Hreach) as [Hwf Hlen].
  split. { intros r e Hr. destruct (Hed r e Hr) as [?|[? _]]; eauto. }
  destruct (getMax_returns s Hwf) as [[ef Hf] [ep Hp]]; [lia|].
  exists ef, ep. split_and!; [done..| |].
  - unfold getMaxIcfEdge in Hf.
    destruct (vget (forb_rank2edge s) 0) as [top|] eqn:Htop; [|done]. simpl in Hf.
    destruct (vsize (forb_rank2edge s) <=? 1); [left; congruence|].
    destruct (vget (icf s) top) as [x|] eqn:Hx; [|done]. simpl in Hf.
    destruct (x <? 0)%float eqn:Hneg; [left; congruence|].
    destruct (Hed top ef Hf) as [?|[<- ?]]; [by left|]. right. eauto.
  - unfold getMaxIcpEdge in Hp.
    destruct (vget (perm_rank2edge s) 0) as [top|] eqn:Htop; [|done]. simpl in Hp.
    destruct (vsize (perm_rank2edge s) <=? 1); [left; congruence|].
    destruct (vget (icp s) top) as [y|] eqn:Hy; [|done]. simpl in Hp.
    destruct (y <? 0)%float eqn:Hneg; [left; congruence|].
    destruct (Hed top ep Hp) as [?|[<- ?]]; [by left|]. right. eauto.
Qed.

End EdgeTable.

Lemma max_edge_rank_witness :
  ∃ ef, getMaxIcfEdge Sample.star_merged = Some ef ∧
        (ef = InvalidEdge ∨
         ∃ x, vget (forb_rank2edge Sample.star_merged) 0 = Some (findIndexE Sample.star ef) ∧
              findIndexE Sample.star ef ≠ 0 ∧
              vget (icf Sample.star_merged) (findIndexE Sample.star ef) = Some x ∧
              (x <? 0)%float = false).
Proof.
  destruct (max_edge_rank Sample.star Sample.wce Sample.star_merged)
    as (_ & ef & ep & Hf & _ & H & _).
  - vm_compute. reflexivity.
  - apply reach_step with Sample.star0.
    + apply reach_init. vm_compute. reflexivity.
    + apply step_mergeEdges with (MkEdge 0 2) (MkEdge 0 3). vm_compute. reflexivity.
  - exists ef. split; [exact Hf|exact H].
Defined.

(** X20. In a heap-ordered state the top of the icp heap is a maximum: on a
    well-formed state without NaN in [icp] whose icp heap is ordered, the
    entry of the rank at slot 0 is at least the entry of every rank, and
    [getMaxIcpEdge] answers from that rank. *)
Theorem perm_top_is_maximum (s : EdgeHeap) (r : RankId) (y : EdgeWeight) :
  well_formed s = true →
  nonanb (icp s) = true →
  heap_ordered (icp s) (perm_rank2edge s) = true →
  vget (icp s) r = Some y →
  ∃ top m, vget (perm_rank2edge s) 0 = Some top ∧ vget (icp s) top = Some m ∧
           (y <=? m)%float = true ∧
           getMaxIcpEdge s =
             (if vsize (perm_rank2edge s) <=? 1 then Some InvalidEdge
              else if (m <? 0)%float then Some InvalidEdge
              else vget (edges s) top).
Proof.
  intros Hwf%well_formed_wf Hnp%nonanb_spec Hop Hy.
  apply heap_ordered_spec in Hop; [|by apply wf_perm_ranks].
  destruct (top_is_maximum (length (icf s)) (perm_rank2edge s) (edge2perm_rank s)
              (icp s) r y) as (top & m & Htop & Hm & Hle); try done;
    [apply Hwf|apply Hwf|].
  exists top, m. split_and!; try done.
  unfold getMaxIcpEdge. rewrite Htop. simpl. by rewrite Hm.
Qed.

Lemma perm_top_is_maximum_witness :
  ∃ top m, vget (perm_rank2edge Sample.scenario0) 0 = Some top ∧
           vget (icp Sample.scenario0) top = Some m ∧
           (0 <=? m)%float = true.
Proof.
  destruct (perm_top_is_maximum Sample.scenario0 4 0%float)
    as (top & m & Htop & Hm & Hle & _); [vm_compute; reflexivity..|].
  exists top, m. split; [exact Htop|]. split; [exact Hm|exact Hle].
Defined.
